(** * Federation: schema object model, override composition rules,
      shareable-field precomputation and the query planner's scope algebra.

    A shallow embedding of the TypeScript sources
    - [query-planner-js/src/Scope.ts] and [QueryPlanningContext.ts],
    - [internals-js/src/precompute.ts],
    - the schema object model ([definitions.ts]),
    together with a model of the override rules of composition, whose
    implementation is only visible through its test-suite. *)

From Stdlib Require Import ZArith String Ascii List Lia Bool.
From stdpp Require Import base list strings sorting gmap.
Import ListNotations.

Set Warnings "-register-all".

Open Scope string_scope.
Open Scope list_scope.

(** ** Shared helpers: JavaScript strings, arrays and 32-bit integers *)

Module Js.

(** [ToInt32]: what [x | 0] yields on an integral double. *)
Definition toInt32 (z : Z) : Z := ((z + 2 ^ 31) mod 2 ^ 32 - 2 ^ 31)%Z.

(** [Math.imul(a, b)]: C-like 32-bit multiplication. *)
Definition imul (a b : Z) : Z := toInt32 (toInt32 a * toInt32 b).

(** [s.charCodeAt(i)] for each index of [s], in order.  The strings of the
    model are sequences of 8-bit codes, the code units of a JavaScript
    string whose characters are below 256. *)
Fixpoint charCodes (s : string) : list Z :=
  match s with
  | EmptyString => []
  | String c r => Z.of_N (N_of_ascii c) :: charCodes r
  end.

(** The double-quote character. *)
Definition quote : ascii := ascii_of_nat 34.
Definition dquote : string := String quote EmptyString.

(** [Array.prototype.join]. *)
Definition join (sep : string) (l : list string) : string := String.concat sep l.

(** [Array.prototype.sort()] without comparator, on an array of strings:
    ascending code-unit order. *)
Definition str_le (a b : string) : Prop := String.leb a b = true.

Global Instance str_le_dec a b : Decision (str_le a b).
Proof. unfold str_le. apply _. Defined.

Definition sort (l : list string) : list string := merge_sort str_le l.

(** [Array.prototype.includes] on an array of names. *)
Definition includes (l : list string) (x : string) : bool :=
  existsb (String.eqb x) l.

End Js.

(** ** GraphQL documents and schemas as the planner sees them (graphql-js) *)

Module Ast.

Inductive ValueNode : Type :=
| VariableValue (name : string)
| IntValue (value : string)
| FloatValue (value : string)
| StringValue (value : string)
| BooleanValue (value : bool)
| NullValue
| EnumValue (value : string)
| ListValue (values : list ValueNode)
| ObjectValue (fields : list (string * ValueNode)).

Record DirectiveNode : Type := mkDirective {
  d_name : string;
  d_arguments : list (string * ValueNode)
}.

Inductive SelectionNode : Type :=
| Field (name : string) (directives : option (list DirectiveNode))
        (selectionSet : list SelectionNode)
| InlineFragment (typeCondition : option string)
        (directives : option (list DirectiveNode))
        (selectionSet : list SelectionNode)
| FragmentSpread (name : string) (directives : option (list DirectiveNode)).

Record FragmentDefinitionNode : Type := mkFragment {
  fr_name : string;
  fr_typeCondition : option string;
  fr_selectionSet : list SelectionNode
}.

(** *** [print] followed by [stripIgnoredCharacters]

    Both functions belong to graphql-js.  Printing a directive and
    stripping the ignored characters amounts to emitting its lexical
    tokens, separated by one space exactly where two non-punctuator
    tokens meet. *)

Inductive Token : Type :=
| Punct (s : string)
| Lexeme (s : string).

(** The escapes of a string literal.  Of the escapes of graphql-js, the
    quote and the backslash are modelled; control characters, which its
    versions escape in different ways, are left as they are. *)
Fixpoint escape (s : string) : string :=
  match s with
  | EmptyString => EmptyString
  | String c r =>
      if (Ascii.eqb c Js.quote || Ascii.eqb c "\"%char)%bool
      then String "\"%char (String c (escape r))
      else String c (escape r)
  end.

Definition printString (s : string) : string :=
  String Js.quote (escape s) ++ Js.dquote.

Fixpoint valueTokens (v : ValueNode) : list Token :=
  match v with
  | VariableValue n => [Punct "$"; Lexeme n]
  | IntValue s => [Lexeme s]
  | FloatValue s => [Lexeme s]
  | StringValue s => [Lexeme (printString s)]
  | BooleanValue b => [Lexeme (if b then "true" else "false")]
  | NullValue => [Lexeme "null"]
  | EnumValue s => [Lexeme s]
  | ListValue vs =>
      Punct "[" :: List.concat (List.map valueTokens vs) ++ [Punct "]"]
  | ObjectValue fs =>
      Punct "{"
        :: List.concat
             (List.map (fun f => Lexeme (fst f) :: Punct ":" :: valueTokens (snd f)) fs)
        ++ [Punct "}"]
  end.

Definition argumentTokens (a : string * ValueNode) : list Token :=
  Lexeme (fst a) :: Punct ":" :: valueTokens (snd a).

Definition directiveTokens (d : DirectiveNode) : list Token :=
  Punct "@" :: Lexeme (d_name d)
    :: match d_arguments d with
       | [] => []
       | args => Punct "(" :: List.concat (List.map argumentTokens args) ++ [Punct ")"]
       end.

Fixpoint render (prevLexeme : bool) (ts : list Token) : string :=
  match ts with
  | [] => EmptyString
  | Punct s :: r => s ++ render false r
  | Lexeme s :: r => (if prevLexeme then " " else EmptyString) ++ s ++ render true r
  end.

Definition printStripped (d : DirectiveNode) : string :=
  render false (directiveTokens d).

End Ast.

Module GraphQL.

Inductive TypeKind : Type :=
| ScalarKind | ObjectKind | InterfaceKind | UnionKind | EnumKind | InputObjectKind.

Global Instance TypeKind_eq_dec : EqDecision TypeKind.
Proof. solve_decision. Defined.

(** A type reference as found on a field: a named type under list and
    non-null wrappers. *)
Inductive GraphQLType : Type :=
| Named (name : string)
| ListOf (ofType : GraphQLType)
| NonNull (ofType : GraphQLType).

(** Federation metadata of the composed schema ([composedSchema]). *)
Record FederationFieldMetadata : Type := mkFieldMeta {
  fm_graphName : option string;
  fm_requires : option (list Ast.SelectionNode);
  fm_provides : option (list Ast.SelectionNode)
}.

Record FederationTypeMetadata : Type := mkTypeMeta {
  tm_graphName : option string;
  tm_keys : option (list (string * list (list Ast.SelectionNode)))
}.

Record GraphQLField : Type := mkField {
  f_name : string;
  f_type : GraphQLType;
  f_federation : option FederationFieldMetadata
}.

Record GraphQLNamedType : Type := mkType {
  t_name : string;
  t_kind : TypeKind;
  t_interfaces : list string;
  t_unionTypes : list string;
  t_fields : list GraphQLField;
  t_federation : option FederationTypeMetadata
}.

(** Named types are unique by name inside a schema; the planner compares
    them by reference, the model by name. *)
Record GraphQLSchema : Type := mkSchema {
  typeMap : list GraphQLNamedType;
  queryType : option string
}.

Definition getType (schema : GraphQLSchema) (name : string) : option GraphQLNamedType :=
  List.find (fun t => String.eqb (t_name t) name) (typeMap schema).

Definition kindOf (schema : GraphQLSchema) (name : string) : option TypeKind :=
  option_map t_kind (getType schema name).

Definition hasKind (schema : GraphQLSchema) (name : string) (k : TypeKind) : bool :=
  bool_decide (kindOf schema name = Some k).

Definition isObjectType schema name := hasKind schema name ObjectKind.
Definition isInterfaceType schema name := hasKind schema name InterfaceKind.
Definition isUnionType schema name := hasKind schema name UnionKind.

Definition isAbstractType schema name : bool :=
  isInterfaceType schema name || isUnionType schema name.

Definition isCompositeType schema name : bool :=
  isObjectType schema name || isInterfaceType schema name || isUnionType schema name.

Fixpoint getNamedType (t : GraphQLType) : string :=
  match t with
  | Named n => n
  | ListOf t' => getNamedType t'
  | NonNull t' => getNamedType t'
  end.

(** [schema.getImplementations(iface)]: the types of the type map that list
    [iface] among their interfaces, objects and interfaces apart. *)
Definition implementationsOf (schema : GraphQLSchema) (k : TypeKind) (iface : string)
  : list string :=
  List.map t_name
    (List.filter
       (fun t => bool_decide (t_kind t = k) && Js.includes (t_interfaces t) iface)
       (typeMap schema)).

(** [schema.getPossibleTypes(abstractType)]. *)
Definition schemaPossibleTypes (schema : GraphQLSchema) (name : string) : list string :=
  match getType schema name with
  | Some t =>
      if bool_decide (t_kind t = UnionKind) then t_unionTypes t
      else implementationsOf schema ObjectKind name
  | None => []
  end.

(** [schema.isSubType(abstractType, maybeSubType)]. *)
Definition isSubType (schema : GraphQLSchema) (abstractType maybeSubType : string) : bool :=
  match getType schema abstractType with
  | Some t =>
      if bool_decide (t_kind t = UnionKind)
      then Js.includes (t_unionTypes t) maybeSubType
      else Js.includes
             (implementationsOf schema ObjectKind abstractType
                ++ implementationsOf schema InterfaceKind abstractType)
             maybeSubType
  | None => false
  end.

(** [isTypeSubTypeOf(schema, maybeSubType, superType)] on named types. *)
Definition isTypeSubTypeOf (schema : GraphQLSchema) (maybeSubType superType : string) : bool :=
  if String.eqb maybeSubType superType then true
  else isAbstractType schema superType
       && (isInterfaceType schema maybeSubType || isObjectType schema maybeSubType)
       && isSubType schema superType maybeSubType.

End GraphQL.

(** ** The scope algebra ([Scope.ts]) *)

Module Scope.
Import Ast GraphQL.

(** The part of [QueryPlanningContext] the scope algebra and the field
    collector read. *)
Record QueryPlanningContext : Type := mkContext {
  schema : GraphQLSchema;
  fragments : list (string * FragmentDefinitionNode);
  autoFragmentization : bool
}.

(** [QueryPlanningContext.getPossibleTypes]. *)
Definition getPossibleTypes (context : QueryPlanningContext) (type : string) : list string :=
  if isAbstractType (schema context) type
  then schemaPossibleTypes (schema context) type
  else [type].

(** A scope is a chain of refinements.  Its constructor is private: every
    link of a chain is built by [create] or [refine] and carries the same
    planning context, which the model passes alongside. *)
Inductive Scope : Type :=
| mkScope (parentType : string)
          (directives : option (list DirectiveNode))
          (enclosing : option Scope).

Definition parentType (s : Scope) : string :=
  match s with mkScope p _ _ => p end.
Definition directives (s : Scope) : option (list DirectiveNode) :=
  match s with mkScope _ d _ => d end.
Definition enclosing (s : Scope) : option Scope :=
  match s with mkScope _ _ e => e end.

Definition create (parentType : string) : Scope := mkScope parentType None None.

(** [Scope.stringHash]. *)
Definition stringHash (s : string) : Z :=
  fold_left (fun h c => Js.toInt32 (Js.imul 31 h + c)) (Js.charCodes s) 31%Z.

Section WithPrinter.

(** [Scope.directiveToString]: [stripIgnoredCharacters(print(d))]. *)
Variable directiveToString : DirectiveNode -> string.

(** The comparison loop of [directivesEquals]: indices [i .. i+n-1]. *)
Fixpoint stringsEqualFrom (n i : nat) (a b : list string) : bool :=
  match n with
  | O => true
  | S n' =>
      if negb (bool_decide (a !! i = b !! i)) then false
      else stringsEqualFrom n' (S i) a b
  end.

(** [Scope.directivesEquals]. *)
Definition directivesEquals (d1 d2 : option (list DirectiveNode)) : bool :=
  match d1 with
  | None => negb (bool_decide (is_Some d2))
  | Some l1 =>
      match d2 with
      | None => false
      | Some l2 =>
          if negb (Nat.eqb (length l1) (length l2)) then false
          else
            let d1Strings := Js.sort (List.map directiveToString l1) in
            let d2Strings := Js.sort (List.map directiveToString l2) in
            stringsEqualFrom (length l1) 0 d1Strings d2Strings
      end
  end.

(** [Scope.equals], on an argument that is a scope. *)
Fixpoint equals (thisScope thatScope : Scope) : bool :=
  match thisScope, thatScope with
  | mkScope p1 d1 e1, mkScope p2 d2 e2 =>
      if negb (String.eqb p1 p2) || negb (directivesEquals d1 d2) then false
      else
        match e1, e2 with
        | Some thisNext, Some thatNext => equals thisNext thatNext
        | None, None => true
        | _, _ => false
        end
  end.

(** [Scope.hashCode]. *)
Definition hashCode (s : Scope) : Z :=
  let hash := stringHash (parentType s) in
  let hash :=
    match directives s with
    | Some ds =>
        (hash +
           fold_left (fun prev curr => Js.toInt32 (Js.imul 31 prev + curr))
             (List.map (fun d => stringHash (directiveToString d)) ds) 31)%Z
    | None => hash
    end in
  Js.toInt32 hash.

End WithPrinter.

Section WithContext.

Variable context : QueryPlanningContext.

(** [Scope.isStrictlyRefinedBy]. *)
Fixpoint isStrictlyRefinedBy (scope : Scope) (type : string) : bool :=
  match scope with
  | mkScope p _ e =>
      if isTypeSubTypeOf (schema context) p type then false
      else match e with
           | Some next => isStrictlyRefinedBy next type
           | None => true
           end
  end.

(** [Scope.isStrictlyRefining]. *)
Fixpoint isStrictlyRefining (scope : Scope) (type : string) : bool :=
  match scope with
  | mkScope p _ e =>
      if negb (String.eqb p type) && isTypeSubTypeOf (schema context) p type then true
      else match e with
           | Some next => isStrictlyRefining next type
           | None => false
           end
  end.

(** [Scope.pruneRefinedTypes], on a defined scope. *)
Fixpoint pruneScope (toPrune : Scope) (refiningType : string) : option Scope :=
  match toPrune with
  | mkScope p d e =>
      let rest :=
        match e with
        | Some next => pruneScope next refiningType
        | None => None
        end in
      if negb (bool_decide (is_Some d))
         && isTypeSubTypeOf (schema context) refiningType p
      then rest
      else Some (mkScope p d rest)
  end.

Definition pruneRefinedTypes (toPrune : option Scope) (refiningType : string)
  : option Scope :=
  match toPrune with
  | None => None
  | Some s => pruneScope s refiningType
  end.

(** [Scope.refine]. *)
Definition refine (this : Scope) (type : string)
           (directives : option (list DirectiveNode)) : Scope :=
  let directives :=
    match directives with
    | Some [] => None
    | other => other
    end in
  match directives with
  | Some ds => mkScope type (Some ds) (Some this)
  | None =>
      if negb (isStrictlyRefinedBy this type) then this
      else mkScope type None (pruneRefinedTypes (Some this) type)
  end.

(** The loop of [computePossibleRuntimeTypes]. *)
Fixpoint intersectEnclosing (nextScope : Scope) (possibleTypes : list string)
  : list string :=
  match nextScope with
  | mkScope p _ e =>
      let enclosingPossibleTypes := getPossibleTypes context p in
      let possibleTypes :=
        List.filter (fun t => Js.includes enclosingPossibleTypes t) possibleTypes in
      match e with
      | Some next => intersectEnclosing next possibleTypes
      | None => possibleTypes
      end
  end.

(** [Scope.computePossibleRuntimeTypes]. *)
Definition computePossibleRuntimeTypes (this : Scope) : list string :=
  let possibleTypes := getPossibleTypes context (parentType this) in
  match enclosing this with
  | Some next => intersectEnclosing next possibleTypes
  | None => possibleTypes
  end.

(** [Scope.possibleRuntimeTypes]: the cache holds the value computed on
    first use, and nothing the computation reads is ever written. *)
Definition possibleRuntimeTypes (this : Scope) : list string :=
  computePossibleRuntimeTypes this.

End WithContext.

End Scope.

(** ** The flat scope of the earlier [Scope.ts]

    The same file holds an earlier [Scope] class: a parent type, the sorted
    possible types and the directives, with [identityKey] but neither
    [equals] nor [hashCode]. *)

Module FlatScope.
Import Ast.

Record Scope : Type := mkScope {
  parentType : string;
  possibleTypes : list string;
  directives : option (list DirectiveNode)
}.

(** The constructor sorts the possible types. *)
Definition new (parentType : string) (possibleTypes : list string)
           (directives : option (list DirectiveNode)) : Scope :=
  mkScope parentType (Js.sort possibleTypes) directives.

(** All the results, or [None] as soon as one call throws. *)
Fixpoint sequence {A} (l : list (option A)) : option (list A) :=
  match l with
  | [] => Some []
  | Some a :: r => option_map (cons a) (sequence r)
  | None :: _ => None
  end.

(** [valueIdentityKey]; [None] stands for the [TypeError] of reading a
    property of [undefined].  The method is handed to [Array.prototype.map]
    unbound, so [bound] tells whether [this] is the scope: an unbound call
    cannot evaluate [this.valueIdentityKey]. *)
Fixpoint valueIdentityKey (bound : bool) (value : ValueNode) : option string :=
  match value with
  | VariableValue name => Some name
  | IntValue v => Some v
  | FloatValue v => Some v
  | StringValue v => Some v
  | EnumValue v => Some v
  | BooleanValue b => Some (if b then "true" else "false")
  | NullValue => Some "<null>"
  | ListValue values =>
      if bound
      then option_map (Js.join "-") (sequence (List.map (valueIdentityKey false) values))
      else None
  | ObjectValue fields =>
      match fields with
      | [] => Some EmptyString
      | _ =>
          if bound
          then option_map (Js.join "-")
                 (sequence
                    (List.map
                       (fun f => option_map (fun k => (fst f ++ "-" ++ k)%string)
                                   (valueIdentityKey true (snd f)))
                       fields))
          else None
      end
  end.

(** [directiveIdentityKey]. *)
Definition directiveIdentityKey (bound : bool) (directive : DirectiveNode) : option string :=
  let argumentsKey :=
    match d_arguments directive with
    | [] => Some EmptyString
    | arguments =>
        if bound
        then option_map (Js.join "-")
               (sequence
                  (List.map
                     (fun arg => option_map (fun k => (fst arg ++ "-" ++ k)%string)
                                   (valueIdentityKey true (snd arg)))
                     arguments))
        else None
    end in
  option_map (fun k => (d_name directive ++ "-" ++ k)%string) argumentsKey.

(** [identityKey]: [this.directives.map(this.directiveIdentityKey)] calls
    the method unbound.  The cache holds the key once computed. *)
Definition identityKey (this : Scope) : option string :=
  let directivesKey :=
    match directives this with
    | Some ds =>
        option_map (Js.join "-") (sequence (List.map (directiveIdentityKey false) ds))
    | None => Some EmptyString
    end in
  option_map
    (fun k => (parentType this ++ "-" ++ Js.join "-" (possibleTypes this) ++ "-" ++ k)%string)
    directivesKey.

End FlatScope.

(** ** The planning context and the field collector ([QueryPlanningContext.ts]) *)

Module PlanningContext.
Import Ast GraphQL Scope.

Inductive Error : Type :=
| GraphQLError (message : string).

(** Outcome of a planner call: a value, a thrown error, or the recursion
    budget of the model exhausted (fragment spreads may be cyclic). *)
Inductive Result (A : Type) : Type :=
| Ok (a : A)
| Throw (e : Error)
| OutOfFuel.
Arguments Ok {A} a.
Arguments Throw {A} e.
Arguments OutOfFuel {A}.

Definition bind {A B} (r : Result A) (k : A -> Result B) : Result B :=
  match r with
  | Ok a => k a
  | Throw e => Throw e
  | OutOfFuel => OutOfFuel
  end.

Notation "'do' x <- r ; k" := (bind r (fun x => k))
  (at level 10, x name, r at level 100, k at level 200).

(** An entry of a [FieldSet]. *)
Record FieldEntry : Type := mkEntry {
  e_scope : Scope;
  e_fieldNode : SelectionNode;
  e_fieldDef : GraphQLField
}.

Definition FieldSet : Type := list FieldEntry.

(** graphql-js' meta-field definitions. *)
Definition TypeNameMetaFieldDef : GraphQLField :=
  mkField "__typename" (NonNull (Named "String")) None.
Definition SchemaMetaFieldDef : GraphQLField :=
  mkField "__schema" (NonNull (Named "__Schema")) None.
Definition TypeMetaFieldDef : GraphQLField :=
  mkField "__type" (Named "__Type") None.

Definition typenameField : SelectionNode := Field "__typename" None [].

(** [getFederationMetadataForField] and [getFederationMetadataForType] read
    the federation extension stored on the definition. *)
Definition getFederationMetadataForField (fieldDef : GraphQLField) := f_federation fieldDef.

Definition getFederationMetadataForType (schema : GraphQLSchema) (type : string)
  : option FederationTypeMetadata :=
  match getType schema type with
  | Some t => t_federation t
  | None => None
  end.

(** Modelled from the spec: [getFieldDef] of [utilities/graphql], which is
    not part of the sources at hand; it "looks up a field, folding in
    meta-fields ([__typename], [__schema], [__type])". *)
Definition lookupFieldDef (schema : GraphQLSchema) (parentType fieldName : string)
  : option GraphQLField :=
  if String.eqb fieldName "__schema" && bool_decide (queryType schema = Some parentType)
  then Some SchemaMetaFieldDef
  else if String.eqb fieldName "__type" && bool_decide (queryType schema = Some parentType)
  then Some TypeMetaFieldDef
  else if String.eqb fieldName "__typename" && isCompositeType schema parentType
  then Some TypeNameMetaFieldDef
  else if isObjectType schema parentType || isInterfaceType schema parentType
  then match getType schema parentType with
       | Some t => List.find (fun f => String.eqb (f_name f) fieldName) (t_fields t)
       | None => None
       end
  else None.

Section WithContext.

Variable context : QueryPlanningContext.

(** [QueryPlanningContext.getFieldDef]. *)
Definition getFieldDef (parentType fieldName : string) : Result GraphQLField :=
  match lookupFieldDef (schema context) parentType fieldName with
  | Some fieldDef => Ok fieldDef
  | None =>
      Throw (GraphQLError
               ("Cannot query field " ++ Js.dquote ++ fieldName ++ Js.dquote ++ " on type "
                  ++ Js.dquote ++ parentType ++ Js.dquote))
  end.

(** [getBaseService] and [getOwningService]. *)
Definition getBaseService (parentType : string) : option string :=
  match getFederationMetadataForType (schema context) parentType with
  | Some m => tm_graphName m
  | None => None
  end.

Definition getOwningService (parentType : string) (fieldDef : GraphQLField)
  : option string :=
  match getFederationMetadataForField fieldDef with
  | Some {| fm_graphName := Some g |} => Some g
  | _ => getBaseService parentType
  end.

(** [getFragmentCondition]: [typeFromAST] resolves the condition by name. *)
Definition getFragmentCondition (parentType : string) (typeCondition : option string)
  : string :=
  match typeCondition with
  | None => parentType
  | Some name => name
  end.

(** [scopeForFragment]. *)
Definition scopeForFragment (currentScope : Scope) (typeCondition : option string)
           (fragmentDirectives : option (list DirectiveNode)) : option Scope :=
  let condition := getFragmentCondition (parentType currentScope) typeCondition in
  let newScope := refine context currentScope condition fragmentDirectives in
  if Nat.eqb (length (possibleRuntimeTypes context newScope)) 0 then None
  else Some newScope.

(** [collectFields]: the array [fields] is threaded through the loop. *)
Fixpoint collectFields (fuel : nat) (scope : Scope) (selections : list SelectionNode)
         (fields : FieldSet) : Result FieldSet :=
  match fuel with
  | O => OutOfFuel
  | S fuel' =>
      match selections with
      | [] => Ok fields
      | selection :: rest =>
          match selection with
          | Field name _ _ =>
              do fieldDef <- getFieldDef (parentType scope) name ;
              collectFields fuel' scope rest (fields ++ [mkEntry scope selection fieldDef])
          | InlineFragment typeCondition dirs selectionSet =>
              match scopeForFragment scope typeCondition dirs with
              | Some newScope =>
                  do fields' <- collectFields fuel' newScope selectionSet fields ;
                  collectFields fuel' scope rest fields'
              | None => collectFields fuel' scope rest fields
              end
          | FragmentSpread fragmentName dirs =>
              match List.find (fun f => String.eqb (fst f) fragmentName)
                      (fragments context) with
              | None => collectFields fuel' scope rest fields
              | Some (_, fragment) =>
                  match scopeForFragment scope (fr_typeCondition fragment) dirs with
                  | Some newScope =>
                      do fields' <- collectFields fuel' newScope
                                   (fr_selectionSet fragment) fields ;
                      collectFields fuel' scope rest fields'
                  | None => collectFields fuel' scope rest fields
                  end
              end
          end
      end
  end.

(** The body of the loop of [getKeyFields] for one possible type. *)
Definition keyFieldsOfType (fuel : nat) (scope : Scope) (serviceName : string)
           (fetchAll : bool) (possibleType : string) : Result FieldSet :=
  let keys :=
    match getFederationMetadataForType (schema context) possibleType with
    | Some {| tm_keys := Some byService |} =>
        option_map snd (List.find (fun e => String.eqb (fst e) serviceName) byService)
    | _ => None
    end in
  match keys with
  | None | Some [] => Ok []
  | Some (key0 :: others) =>
      if fetchAll then
        fold_left
          (fun acc key =>
             do sofar <- acc ;
             do more <- collectFields fuel (refine context scope possibleType None) key [] ;
             Ok (sofar ++ more))
          (key0 :: others) (Ok [])
      else collectFields fuel (refine context scope possibleType None) key0 []
  end.

(** [getKeyFields]. *)
Definition getKeyFields (fuel : nat) (scope : Scope) (serviceName : string)
           (fetchAll : bool) : Result FieldSet :=
  fold_left
    (fun acc possibleType =>
       do keyFields <- acc ;
       do more <- keyFieldsOfType fuel scope serviceName fetchAll possibleType ;
       Ok (keyFields ++ more))
    (possibleRuntimeTypes context scope)
    (Ok [mkEntry scope typenameField TypeNameMetaFieldDef]).

(** [getRequiredFields]. *)
Definition getRequiredFields (fuel : nat) (scope : Scope) (fieldDef : GraphQLField)
           (serviceName : string) : Result FieldSet :=
  do requiredFields <- getKeyFields fuel scope serviceName false ;
  match getFederationMetadataForField fieldDef with
  | Some {| fm_requires := Some requires |} =>
      do more <- collectFields fuel scope requires [] ;
      Ok (requiredFields ++ more)
  | _ => Ok requiredFields
  end.

(** [getProvidedFields]. *)
Definition getProvidedFields (fuel : nat) (fieldDef : GraphQLField)
           (serviceName : string) : Result FieldSet :=
  let returnType := getNamedType (f_type fieldDef) in
  if negb (isCompositeType (schema context) returnType) then Ok []
  else
    do providedFields <- getKeyFields fuel (create returnType) serviceName true ;
    match getFederationMetadataForField fieldDef with
    | Some {| fm_provides := Some provides |} =>
        do more <- collectFields fuel (create returnType) provides [] ;
        Ok (providedFields ++ more)
    | _ => Ok providedFields
    end.

End WithContext.

End PlanningContext.

(** ** Vocabulary of the statements about scopes *)

Module ScopeSpec.
Import Ast GraphQL Scope.

(** What graphql-js guarantees of a schema that passed validation: type
    names are unique, unions list object types only, and an object that
    implements an interface also implements the interfaces of that
    interface. *)
Definition uniqueNames (schema : GraphQLSchema) : bool :=
  bool_decide (NoDup (List.map t_name (typeMap schema))).

Definition unionsOfObjects (schema : GraphQLSchema) : bool :=
  forallb
    (fun t =>
       negb (bool_decide (t_kind t = UnionKind))
       || forallb (fun m => isObjectType schema m) (t_unionTypes t))
    (typeMap schema).

Definition interfacesInherited (schema : GraphQLSchema) : bool :=
  forallb
    (fun o =>
       negb (bool_decide (t_kind o = ObjectKind))
       || forallb
            (fun i2 =>
               match getType schema i2 with
               | Some t2 => forallb (fun i1 => Js.includes (t_interfaces o) i1) (t_interfaces t2)
               | None => true
               end)
            (t_interfaces o))
    (typeMap schema).

Definition validSchema (schema : GraphQLSchema) : bool :=
  uniqueNames schema && unionsOfObjects schema && interfacesInherited schema.

(** The parent types along a chain, innermost first. *)
Fixpoint chainTypes (s : Scope) : list string :=
  match s with
  | mkScope p _ e =>
      p :: match e with Some next => chainTypes next | None => [] end
  end.

Definition chainTypesOpt (o : option Scope) : list string :=
  match o with Some s => chainTypes s | None => [] end.

(** The claim's reading of list equality: position by position, a
    directive equal to its counterpart when the names and the argument
    maps agree. *)
Definition lookupArgument (args : list (string * ValueNode)) (name : string)
  : option ValueNode :=
  option_map snd (List.find (fun a => String.eqb (fst a) name) args).

Definition sameDirective (d1 d2 : DirectiveNode) : Prop :=
  d_name d1 = d_name d2
  /\ forall name, lookupArgument (d_arguments d1) name = lookupArgument (d_arguments d2) name.

Definition elementwiseEqual (l1 l2 : list DirectiveNode) : Prop :=
  Forall2 sameDirective l1 l2.

Definition dirA : DirectiveNode := mkDirective "a" [].
Definition dirB : DirectiveNode := mkDirective "b" [].

(** A small supergraph:
<<
  interface Node { id: ID }
  interface Entity implements Node { id: ID }
  type User implements Entity & Node { id: ID  name: String  friend: Entity }
  type Product implements Node { id: ID }
  union SearchResult = User | Product
>> *)
Definition idField : GraphQLField := mkField "id" (Named "ID") None.

Definition exampleSchema : GraphQLSchema :=
  GraphQL.mkSchema
    [ mkType "Node" InterfaceKind [] [] [idField] None;
      mkType "Entity" InterfaceKind ["Node"] [] [idField] None;
      mkType "User" ObjectKind ["Entity"; "Node"] []
        [idField; mkField "name" (Named "String") None;
         mkField "friend" (Named "Entity") None]
        (Some (mkTypeMeta (Some "accounts")
                 (Some [("accounts", [[Field "id" None []]])])));
      mkType "Product" ObjectKind ["Node"] [] [idField] None;
      mkType "SearchResult" UnionKind [] ["User"; "Product"] [] None;
      mkType "ID" ScalarKind [] [] [] None;
      mkType "String" ScalarKind [] [] [] None ]
    None.

Definition exampleContext : QueryPlanningContext := mkContext exampleSchema [] false.

(** The scopes of [... on User @a @b] and [... on User @b @a] under a
    selection on [User]. *)
Definition scopeAB : Scope :=
  refine exampleContext (create "User") "User" (Some [dirA; dirB]).
Definition scopeBA : Scope :=
  refine exampleContext (create "User") "User" (Some [dirB; dirA]).

(** A schema that would not pass validation, which graphql-js builds all
    the same: [User] implements [Entity] but not the interface [Node] that
    [Entity] implements.
<<
  interface Node { id: ID }
  interface Entity implements Node { id: ID }
  type User implements Entity { id: ID }
>> *)
Definition unvalidatedSchema : GraphQLSchema :=
  GraphQL.mkSchema
    [ mkType "Node" InterfaceKind [] [] [idField] None;
      mkType "Entity" InterfaceKind ["Node"] [] [idField] None;
      mkType "User" ObjectKind ["Entity"] [] [idField] None;
      mkType "ID" ScalarKind [] [] [] None ]
    None.

Definition unvalidatedContext : QueryPlanningContext := mkContext unvalidatedSchema [] false.

End ScopeSpec.

(** ** Precomputed federation predicates ([precompute.ts]) *)

Module Precompute.

(** A parsed field selection, as found in the [fields] argument of [@key]
    and [@provides]. *)
Inductive Selection : Type :=
| Sel (name : string) (subselection : list Selection).

(** A directive application: the name of its definition, its [fields]
    argument when it has one, and the extension it was written in. *)
Record Directive : Type := mkDirective {
  d_name : string;
  d_fields : list Selection;
  d_ofExtension : option nat
}.

Inductive TypeRef : Type :=
| NamedRef (name : string)
| ListRef (ofType : TypeRef)
| NonNullRef (ofType : TypeRef).

Fixpoint baseType (t : TypeRef) : string :=
  match t with
  | NamedRef n => n
  | ListRef t' => baseType t'
  | NonNullRef t' => baseType t'
  end.

Record FieldDefinition : Type := mkField {
  f_parent : string;
  f_name : string;
  f_type : TypeRef;
  f_appliedDirectives : list Directive;
  f_ofExtension : option nat
}.

Inductive Kind : Type :=
| ObjectType | InterfaceType | UnionType | ScalarType | EnumType | InputObjectType.

Global Instance Kind_eq_dec : EqDecision Kind.
Proof. solve_decision. Defined.

Record NamedType : Type := mkType {
  t_name : string;
  t_kind : Kind;
  t_interfaces : list string;
  t_appliedDirectives : list Directive;
  t_fields : list FieldDefinition
}.

(** [federationMetadata(schema)]: the federation directives in use and the
    [isFieldExternal] test of the metadata object. *)
Record FederationMetadata : Type := mkMetadata {
  isFed2Schema : bool;
  keyDirective : string;
  shareableDirective : string;
  providesDirective : string;
  isFieldExternal : FieldDefinition -> bool
}.

Record Schema : Type := mkSchema {
  allTypes : list NamedType;
  federationMetadata : option FederationMetadata
}.

Definition coordinate (f : FieldDefinition) : string :=
  f_parent f ++ "." ++ f_name f.

(** [schema.types(kind)]. *)
Definition types (schema : Schema) (k : Kind) : list NamedType :=
  List.filter (fun t => bool_decide (t_kind t = k)) (allTypes schema).

(** [element.appliedDirectivesOf(definition)]. *)
Definition appliedDirectivesOf (applied : list Directive) (definition : string)
  : list Directive :=
  List.filter (fun d => String.eqb (d_name d) definition) applied.

(** [element.hasAppliedDirective(definition)]. *)
Definition hasAppliedDirective (applied : list Directive) (definition : string) : bool :=
  negb (Nat.eqb (length (appliedDirectivesOf applied definition)) 0).

Definition sameExtension (a b : option nat) : bool := bool_decide (a = b).

Section Collector.

(** [collectTargetFields] with [includeInterfaceFieldsImplementations: true]
    and [validate: false]; the function lives in another file of the
    package.  Its arguments are the schema, the name of the parent type and
    the directive application. *)
Variable collectTargetFields : Schema -> string -> Directive -> list FieldDefinition.

Definition addAll (fields : gset string) (found : list FieldDefinition) : gset string :=
  fold_left (fun fields f => fields ∪ {[ coordinate f ]}) found fields.

(** The closure [addKeyFields]. *)
Definition addKeyFields (schema : Schema) (metadata : FederationMetadata)
           (fields : gset string) (type : NamedType) : gset string :=
  fold_left
    (fun fields key => addAll fields (collectTargetFields schema (t_name type) key))
    (appliedDirectivesOf (t_appliedDirectives type) (keyDirective metadata))
    fields.

(** The body of the loop over the fields of an object type. *)
Definition visitField (schema : Schema) (metadata : FederationMetadata)
           (directive : option string) (includeOtherFieldsOnType : bool)
           (directivesOnType : list Directive)
           (fields : gset string) (field : FieldDefinition) : gset string :=
  let fieldIsShareable :=
    match directive with
    | Some d => hasAppliedDirective (f_appliedDirectives field) d
    | None => false
    end
    || (negb (Nat.eqb (length directivesOnType) 0)
        && existsb (fun d => sameExtension (f_ofExtension field) (d_ofExtension d))
             directivesOnType) in
  let fields :=
    if fieldIsShareable
    then if includeOtherFieldsOnType then fields ∪ {[ coordinate field ]} else fields
    else fields in
  fold_left
    (fun fields provides =>
       fold_left
         (fun fields f =>
            if isFieldExternal metadata f then fields ∪ {[ coordinate f ]} else fields)
         (collectTargetFields schema (baseType (f_type field)) provides)
         fields)
    (appliedDirectivesOf (f_appliedDirectives field) (providesDirective metadata))
    fields.

(** The body of the loop over object types. *)
Definition visitObjectType (schema : Schema) (metadata : FederationMetadata)
           (directive : option string) (includeOtherFieldsOnType : bool)
           (fields : gset string) (type : NamedType) : gset string :=
  let fields := addKeyFields schema metadata fields type in
  let directivesOnType :=
    match directive with
    | Some d => appliedDirectivesOf (t_appliedDirectives type) d
    | None => []
    end in
  fold_left
    (visitField schema metadata directive includeOtherFieldsOnType directivesOnType)
    (t_fields type) fields.

(** The set [fields] once both loops have run. *)
Definition collectedCoordinates (schema : Schema) (metadata : FederationMetadata)
           (directive : option string) (includeOtherFieldsOnType : bool) : gset string :=
  let fields :=
    fold_left (visitObjectType schema metadata directive includeOtherFieldsOnType)
      (types schema ObjectType) ∅ in
  fold_left (addKeyFields schema metadata) (types schema InterfaceType) fields.

(** [computeAllFieldsWithDirective]; [None] when the assertion on the
    metadata fails. *)
Definition computeAllFieldsWithDirective (schema : Schema) (directive : option string)
           (includeOtherFieldsOnType : bool) : option (FieldDefinition -> bool) :=
  match federationMetadata schema with
  | None => None
  | Some metadata =>
      let fields := collectedCoordinates schema metadata directive includeOtherFieldsOnType in
      Some (fun field => bool_decide (coordinate field ∈ fields))
  end.

Definition fed2Directive (schema : Schema) (pick : FederationMetadata -> string)
  : option string :=
  match federationMetadata schema with
  | Some metadata => if isFed2Schema metadata then Some (pick metadata) else None
  | None => None
  end.

(** [computeShareables]. *)
Definition computeShareables (schema : Schema) : option (FieldDefinition -> bool) :=
  computeAllFieldsWithDirective schema (fed2Directive schema shareableDirective) true.

(** [computeKeys]. *)
Definition computeKeys (schema : Schema) : option (FieldDefinition -> bool) :=
  computeAllFieldsWithDirective schema (fed2Directive schema keyDirective) false.

End Collector.

End Precompute.

(** ** Vocabulary of the statements about the shareable predicate *)

Module PrecomputeSpec.
Import Precompute.

Section Collector.

Variable collectTargetFields : Schema -> string -> Directive -> list FieldDefinition.
Variable schema : Schema.
Variable metadata : FederationMetadata.

(** (a) and (b), as the code applies them: to the fields of object types of
    a federation 2 schema. *)
Definition markedShareable (f : FieldDefinition) : Prop :=
  isFed2Schema metadata = true
  /\ exists T g,
      In T (types schema ObjectType) /\ In g (t_fields T)
      /\ coordinate g = coordinate f
      /\ (hasAppliedDirective (f_appliedDirectives g) (shareableDirective metadata) = true
          \/ exists d,
              In d (appliedDirectivesOf (t_appliedDirectives T) (shareableDirective metadata))
              /\ f_ofExtension g = d_ofExtension d).

(** (c): the field is selected by a [@key] of an object or interface type. *)
Definition keyField (f : FieldDefinition) : Prop :=
  exists T key g,
    (In T (types schema ObjectType) \/ In T (types schema InterfaceType))
    /\ In key (appliedDirectivesOf (t_appliedDirectives T) (keyDirective metadata))
    /\ In g (collectTargetFields schema (t_name T) key)
    /\ coordinate g = coordinate f.

(** (d), as the code applies it: the field is external and selected by a
    [@provides] found on a field of any object type, the selection being
    read against the type that field returns. *)
Definition providedExternal (f : FieldDefinition) : Prop :=
  exists T p provides g,
    In T (types schema ObjectType) /\ In p (t_fields T)
    /\ In provides (appliedDirectivesOf (f_appliedDirectives p) (providesDirective metadata))
    /\ In g (collectTargetFields schema (baseType (f_type p)) provides)
    /\ isFieldExternal metadata g = true
    /\ coordinate g = coordinate f.

(** (d), as the claim words it: the [@provides] sits on a field of the
    parent type of the field in question. *)
Definition providedFromParentType (f : FieldDefinition) : Prop :=
  exists T p provides g,
    In T (allTypes schema) /\ t_name T = f_parent f /\ In p (t_fields T)
    /\ In provides (appliedDirectivesOf (f_appliedDirectives p) (providesDirective metadata))
    /\ In g (collectTargetFields schema (baseType (f_type p)) provides)
    /\ isFieldExternal metadata g = true
    /\ coordinate g = coordinate f.

(** (a) and (b), as the claim words them. *)
Definition shareableOnField (f : FieldDefinition) : Prop :=
  hasAppliedDirective (f_appliedDirectives f) (shareableDirective metadata) = true.

Definition shareableOnParentType (f : FieldDefinition) : Prop :=
  exists T d,
    In T (allTypes schema) /\ t_name T = f_parent f
    /\ In d (appliedDirectivesOf (t_appliedDirectives T) (shareableDirective metadata))
    /\ f_ofExtension f = d_ofExtension d.

(** The shareable predicate of the claim. *)
Definition claimedShareable (f : FieldDefinition) : Prop :=
  shareableOnField f \/ shareableOnParentType f \/ keyField f \/ providedFromParentType f.

End Collector.

(** [type.field(name)] by the names of the type and the field. *)
Definition findField (schema : Schema) (parentType name : string) : option FieldDefinition :=
  match List.find (fun t => String.eqb (t_name t) parentType) (allTypes schema) with
  | Some t => List.find (fun f => String.eqb (f_name f) name) (t_fields t)
  | None => None
  end.

Definition implementationFields (schema : Schema) (parentType name : string)
  : list FieldDefinition :=
  List.flat_map
    (fun t =>
       if Js.includes (t_interfaces t) parentType
       then List.filter (fun f => String.eqb (f_name f) name) (t_fields t)
       else [])
    (allTypes schema).

(** Modelled from the spec: [collectTargetFields], which lives in another
    file of the package.  Every field the selection names on the parent
    type, the same field of the implementations when the parent is an
    interface, and the fields of the sub-selections read against the
    returned type. *)
Fixpoint collectSelection (schema : Schema) (parentType : string) (s : Selection)
  : list FieldDefinition :=
  match s with
  | Sel name subselection =>
      match findField schema parentType name with
      | None => []
      | Some f =>
          f :: implementationFields schema parentType name
            ++ List.flat_map (collectSelection schema (baseType (f_type f))) subselection
      end
  end.

Definition collectSelectedFields (schema : Schema) (parentType : string) (d : Directive)
  : list FieldDefinition :=
  List.flat_map (collectSelection schema parentType) (d_fields d).

(** The second subgraph of the test "override field in a @provides":
<<
  type T @key(fields: "k") { k: ID  a: A @shareable @provides(fields: "b { v }") }
  type A @key(fields: "id") { id: ID!  b: B }
  type B @key(fields: "id") { id: ID!  v: String @external }
>> *)
Definition app (name : string) (fields : list Selection) : Directive :=
  mkDirective name fields None.

Definition field_T_k := mkField "T" "k" (NamedRef "ID") [] None.
Definition field_T_a :=
  mkField "T" "a" (NamedRef "A")
    [app "shareable" []; app "provides" [Sel "b" [Sel "v" []]]] None.
Definition field_A_id := mkField "A" "id" (NonNullRef (NamedRef "ID")) [] None.
Definition field_A_b := mkField "A" "b" (NamedRef "B") [] None.
Definition field_B_id := mkField "B" "id" (NonNullRef (NamedRef "ID")) [] None.
Definition field_B_v := mkField "B" "v" (NamedRef "String") [app "external" []] None.

Definition subgraph2Metadata : FederationMetadata :=
  mkMetadata true "key" "shareable" "provides"
    (fun f => hasAppliedDirective (f_appliedDirectives f) "external").

Definition subgraph2 : Schema :=
  mkSchema
    [ mkType "T" ObjectType [] [app "key" [Sel "k" []]] [field_T_k; field_T_a];
      mkType "A" ObjectType [] [app "key" [Sel "id" []]] [field_A_id; field_A_b];
      mkType "B" ObjectType [] [app "key" [Sel "id" []]] [field_B_id; field_B_v] ]
    (Some subgraph2Metadata).

End PrecomputeSpec.

(** ** The schema object model ([definitions.ts]) *)

Module Som.
Import Ast.

(** Every element of a schema is an object of the JavaScript heap; a
    reference is the address of an object. *)
Abbreviation ptr := nat.

Inductive SchemaRoot : Type := query | mutation | subscription.

Global Instance SchemaRoot_eq_dec : EqDecision SchemaRoot.
Proof. solve_decision. Defined.

(** A root is the string of its name. *)
Definition rootString (root : SchemaRoot) : string :=
  match root with
  | query => "query"
  | mutation => "mutation"
  | subscription => "subscription"
  end.

(** JavaScript [Map]s keep insertion order. *)
Definition JsMap (K V : Type) : Type := list (K * V).

Definition map_get {K V} `{EqDecision K} (m : JsMap K V) (k : K) : option V :=
  option_map snd (List.find (fun e => bool_decide (fst e = k)) m).

Fixpoint map_set {K V} `{EqDecision K} (m : JsMap K V) (k : K) (v : V) : JsMap K V :=
  match m with
  | [] => [(k, v)]
  | (k', v') :: r => if bool_decide (k' = k) then (k, v) :: r else (k', v') :: map_set r k v
  end.

Definition map_values {K V} (m : JsMap K V) : list V := List.map snd m.

(** What [valueFromASTUntyped] makes of a value node.  A number is kept as
    the literal it is parsed from, a variable evaluates to [undefined],
    and an object keeps one entry per key, in the order the keys first
    come, with the last value given. *)
Inductive Value : Type :=
| VUndefined
| VNull
| VNumber (literal : string)
| VString (s : string)
| VBoolean (b : bool)
| VList (items : list Value)
| VObject (entries : list (string * Value)).

Fixpoint valueFromASTUntyped (v : ValueNode) : Value :=
  match v with
  | VariableValue _ => VUndefined
  | IntValue s => VNumber s
  | FloatValue s => VNumber s
  | StringValue s => VString s
  | BooleanValue b => VBoolean b
  | NullValue => VNull
  | EnumValue s => VString s
  | ListValue vs => VList (List.map valueFromASTUntyped vs)
  | ObjectValue fs =>
      VObject
        (fold_left (fun entries f => map_set entries (fst f) (valueFromASTUntyped (snd f)))
           fs [])
  end.

(** [buildValue]: [undefined] when there is no node. *)
Definition buildValue (value : option ValueNode) : option Value :=
  option_map valueFromASTUntyped value.

(** A type as a field holds it: a named type object, or a [ListType]
    wrapper around a type (which a sloppy caller can leave undefined). *)
Inductive TypeRef : Type :=
| NamedRef (type : ptr)
| ListType (_type : option TypeRef).

Inductive NamedKind : Type := ScalarType | ObjectType | UnionType | InputObjectType.

Global Instance NamedKind_eq_dec : EqDecision NamedKind.
Proof. solve_decision. Defined.

(** The field [kind] of a named type. *)
Definition kindString (k : NamedKind) : string :=
  match k with
  | ScalarType => "ScalarType"
  | ObjectType => "ObjectType"
  | UnionType => "UnionType"
  | InputObjectType => "InputObjectType"
  end.

(** A JavaScript [Set] of references. *)
Definition set_add (s : list ptr) (x : ptr) : list ptr :=
  if bool_decide (x ∈ s) then s else s ++ [x].

(** *** The classes *)

Record SchemaObj : Type := mkSchemaObj {
  mutable : bool;
  _schemaDefinition : option ptr;
  builtInTypes : JsMap string ptr;
  typesMap : JsMap string ptr;
  directivesMap : JsMap string ptr
}.

Record SchemaDefinitionObj : Type := mkSchemaDefinitionObj {
  sd_parent : option ptr;
  sd_appliedDirectives : list ptr;
  rootsMap : JsMap SchemaRoot ptr
}.

(** [ScalarType], [ObjectType], [UnionType] and [InputObjectType]: the
    fields of [BaseNamedType], the [fieldsMap] of the two object kinds and
    the [typesList] of unions. *)
Record NamedTypeObj : Type := mkNamedTypeObj {
  nt_kind : NamedKind;
  nt_name : string;
  nt_parent : option ptr;
  nt_appliedDirectives : list ptr;
  _referencers : list ptr;
  fieldsMap : JsMap string ptr;
  typesList : list ptr
}.

Record FieldDefinitionObj : Type := mkFieldDefinitionObj {
  fd_name : string;
  fd_parent : option ptr;
  fd_type : option TypeRef;
  fd_args : JsMap string ptr;
  fd_appliedDirectives : list ptr
}.

Record InputFieldDefinitionObj : Type := mkInputFieldDefinitionObj {
  if_name : string;
  if_parent : option ptr;
  if_type : option TypeRef;
  if_appliedDirectives : list ptr
}.

Record ArgumentDefinitionObj : Type := mkArgumentDefinitionObj {
  ad_name : string;
  ad_parent : option ptr;
  ad_type : option TypeRef;
  ad_defaultValue : option Value;
  ad_appliedDirectives : list ptr
}.

Record DirectiveDefinitionObj : Type := mkDirectiveDefinitionObj {
  dd_name : string;
  dd_parent : option ptr;
  dd_args : JsMap string ptr;
  dd_appliedDirectives : list ptr
}.

Record DirectiveObj : Type := mkDirectiveObj {
  dir_name : string;
  dir_parent : option ptr;
  dir_args : JsMap string Value
}.

Inductive Object : Type :=
| Schema (o : SchemaObj)
| SchemaDefinition (o : SchemaDefinitionObj)
| NamedType (o : NamedTypeObj)
| FieldDefinition (o : FieldDefinitionObj)
| InputFieldDefinition (o : InputFieldDefinitionObj)
| ArgumentDefinition (o : ArgumentDefinitionObj)
| DirectiveDefinition (o : DirectiveDefinitionObj)
| Directive (o : DirectiveObj).

Abbreviation Heap := (list Object).

(** *** Computations on the heap that may throw *)

(** What is thrown: a [GraphQLError], a failed [assert], a plain [Error],
    or the [TypeError] of the runtime.  A message is the text of the
    source, names and types printed into it as the source does; where the
    source prints a whole field, a directive application or an arbitrary
    element into a message, the model keeps the fixed part of the text. *)
Inductive Error : Type :=
| GraphQLError (message : string)
| AssertionError (message : string)
| PlainError (message : string)
| TypeError (message : string).

Definition M (A : Type) : Type := Heap -> Error + (A * Heap).

Definition ret {A} (a : A) : M A := fun h => inr (a, h).
Definition throw {A} (e : Error) : M A := fun _ => inl e.
Definition bind {A B} (m : M A) (k : A -> M B) : M B :=
  fun h => match m h with
           | inl e => inl e
           | inr (a, h') => k a h'
           end.

Notation "'let*' x := m 'in' k" := (bind m (fun x => k))
  (at level 10, x name, m at level 100, k at level 200).
Notation "m ;; k" := (bind m (fun _ => k))
  (at level 100, k at level 200, right associativity).

Definition assert (cond : bool) (message : string) : M unit :=
  if cond then ret tt else throw (AssertionError message).

Definition alloc (o : Object) : M ptr := fun h => inr (length h, h ++ [o]).

Definition deref (p : ptr) : M Object :=
  fun h => match h !! p with
           | Some o => inr (o, h)
           | None => inl (TypeError "dangling reference")
           end.

Definition store (p : ptr) (o : Object) : M unit := fun h => inr (tt, <[p := o]> h).

Fixpoint forEach {A} (l : list A) (body : A -> M unit) : M unit :=
  match l with
  | [] => ret tt
  | a :: r => body a ;; forEach r body
  end.

Definition derefSchema (p : ptr) : M SchemaObj :=
  let* o := deref p in
  match o with
  | Schema s => ret s
  | _ => throw (TypeError "not a schema")
  end.

Definition derefNamedType (p : ptr) : M NamedTypeObj :=
  let* o := deref p in
  match o with
  | NamedType t => ret t
  | _ => throw (TypeError "not a named type")
  end.

(** *** Writing the fields of an object *)

Definition with_typesMap (s : SchemaObj) (m : JsMap string ptr) : SchemaObj :=
  mkSchemaObj (mutable s) (_schemaDefinition s) (builtInTypes s) m (directivesMap s).

Definition with_directivesMap (s : SchemaObj) (m : JsMap string ptr) : SchemaObj :=
  mkSchemaObj (mutable s) (_schemaDefinition s) (builtInTypes s) (typesMap s) m.

Definition with_rootsMap (d : SchemaDefinitionObj) (m : JsMap SchemaRoot ptr)
  : SchemaDefinitionObj :=
  mkSchemaDefinitionObj (sd_parent d) (sd_appliedDirectives d) m.

Definition with_referencers (t : NamedTypeObj) (r : list ptr) : NamedTypeObj :=
  mkNamedTypeObj (nt_kind t) (nt_name t) (nt_parent t) (nt_appliedDirectives t) r
    (fieldsMap t) (typesList t).

Definition with_fieldsMap (t : NamedTypeObj) (m : JsMap string ptr) : NamedTypeObj :=
  mkNamedTypeObj (nt_kind t) (nt_name t) (nt_parent t) (nt_appliedDirectives t)
    (_referencers t) m (typesList t).

Definition with_typesList (t : NamedTypeObj) (l : list ptr) : NamedTypeObj :=
  mkNamedTypeObj (nt_kind t) (nt_name t) (nt_parent t) (nt_appliedDirectives t)
    (_referencers t) (fieldsMap t) l.

Definition with_fd_type (f : FieldDefinitionObj) (t : option TypeRef) : FieldDefinitionObj :=
  mkFieldDefinitionObj (fd_name f) (fd_parent f) t (fd_args f) (fd_appliedDirectives f).

Definition with_fd_args (f : FieldDefinitionObj) (m : JsMap string ptr) : FieldDefinitionObj :=
  mkFieldDefinitionObj (fd_name f) (fd_parent f) (fd_type f) m (fd_appliedDirectives f).

Definition with_if_type (f : InputFieldDefinitionObj) (t : option TypeRef)
  : InputFieldDefinitionObj :=
  mkInputFieldDefinitionObj (if_name f) (if_parent f) t (if_appliedDirectives f).

Definition with_dd_args (d : DirectiveDefinitionObj) (m : JsMap string ptr)
  : DirectiveDefinitionObj :=
  mkDirectiveDefinitionObj (dd_name d) (dd_parent d) m (dd_appliedDirectives d).

(** *** [BaseElement] *)

Module BaseElement.

(** The field [_parent]; a schema has none. *)
Definition parent (o : Object) : option ptr :=
  match o with
  | Schema _ => None
  | SchemaDefinition o => sd_parent o
  | NamedType o => nt_parent o
  | FieldDefinition o => fd_parent o
  | InputFieldDefinition o => if_parent o
  | ArgumentDefinition o => ad_parent o
  | DirectiveDefinition o => dd_parent o
  | Directive o => dir_parent o
  end.

(** [schema()]: follow the parents up to the schema object.  A chain of
    parents is shorter than the heap is large, which bounds the walk. *)
Fixpoint schemaFrom (fuel : nat) (h : Heap) (p : ptr) : option ptr :=
  match fuel with
  | O => None
  | S fuel' =>
      match h !! p with
      | Some o =>
          match parent o with
          | None => None
          | Some _parent =>
              match h !! _parent with
              | Some (Schema _) => Some _parent
              | Some _ => schemaFrom fuel' h _parent
              | None => None
              end
          end
      | None => None
      end
  end.

Definition schema (this : ptr) : M (option ptr) :=
  fun h => inr (schemaFrom (length h) h this, h).

(** The field [_appliedDirectives]. *)
Definition appliedDirectives (o : Object) : list ptr :=
  match o with
  | SchemaDefinition d => sd_appliedDirectives d
  | NamedType t => nt_appliedDirectives t
  | FieldDefinition f => fd_appliedDirectives f
  | InputFieldDefinition f => if_appliedDirectives f
  | ArgumentDefinition a => ad_appliedDirectives a
  | DirectiveDefinition d => dd_appliedDirectives d
  | Schema _ | Directive _ => []
  end.

(** [this._appliedDirectives.push(directive)]. *)
Definition pushAppliedDirective (o : Object) (directive : ptr) : option Object :=
  match o with
  | SchemaDefinition d =>
      Some (SchemaDefinition
              (mkSchemaDefinitionObj (sd_parent d) (sd_appliedDirectives d ++ [directive])
                 (rootsMap d)))
  | NamedType t =>
      Some (NamedType
              (mkNamedTypeObj (nt_kind t) (nt_name t) (nt_parent t)
                 (nt_appliedDirectives t ++ [directive]) (_referencers t)
                 (fieldsMap t) (typesList t)))
  | FieldDefinition f =>
      Some (FieldDefinition
              (mkFieldDefinitionObj (fd_name f) (fd_parent f) (fd_type f) (fd_args f)
                 (fd_appliedDirectives f ++ [directive])))
  | InputFieldDefinition f =>
      Some (InputFieldDefinition
              (mkInputFieldDefinitionObj (if_name f) (if_parent f) (if_type f)
                 (if_appliedDirectives f ++ [directive])))
  | ArgumentDefinition a =>
      Some (ArgumentDefinition
              (mkArgumentDefinitionObj (ad_name a) (ad_parent a) (ad_type a)
                 (ad_defaultValue a) (ad_appliedDirectives a ++ [directive])))
  | DirectiveDefinition d =>
      Some (DirectiveDefinition
              (mkDirectiveDefinitionObj (dd_name d) (dd_parent d) (dd_args d)
                 (dd_appliedDirectives d ++ [directive])))
  | Schema _ | Directive _ => None
  end.

(** [addAppliedDirective]. *)
Definition addAppliedDirective (this : ptr) (directive : ptr) : M ptr :=
  let* o := deref this in
  match pushAppliedDirective o directive with
  | Some o' => store this o' ;; ret directive
  | None => throw (TypeError "not a schema element")
  end.

End BaseElement.

(** *** [ListType] *)

Module ListType.

(** [baseType()], and the base of a named type, which is itself; [None]
    where the JavaScript dereferences [undefined]. *)
Fixpoint baseType (t : TypeRef) : option ptr :=
  match t with
  | NamedRef p => Some p
  | ListType None => None
  | ListType (Some t') => baseType t'
  end.

(** [schema()]: the schema of the base type. *)
Definition schema (t : TypeRef) : M (option ptr) :=
  match baseType t with
  | Some base => BaseElement.schema base
  | None => throw (TypeError "cannot read properties of undefined (reading 'kind')")
  end.

End ListType.

(** [type.schema()] on what a caller passes as a type: a named type or a
    list wrapper. *)
Definition schemaOfType (type : TypeRef) : M (option ptr) :=
  match type with
  | NamedRef p => BaseElement.schema p
  | ListType _ => ListType.schema type
  end.

(** [`${type}`]: [toString()] of a named type is its name, and of a list
    wrapper the string of what it wraps between brackets. *)
Fixpoint typeToString (type : TypeRef) : M string :=
  match type with
  | NamedRef p => let* t := derefNamedType p in ret (nt_name t)
  | ListType None => ret "[undefined]"
  | ListType (Some inner) => let* s := typeToString inner in ret ("[" ++ s ++ "]")%string
  end.

(** *** [BaseNamedType] *)

Module BaseNamedType.

(** [addReferencer]. *)
Definition addReferencer (this : ptr) (referencer : ptr) : M unit :=
  let* t := derefNamedType this in
  store this (NamedType (with_referencers t (set_add (_referencers t) referencer))).

End BaseNamedType.

(** *** [BaseSchema] *)

Module BaseSchema.

(** [setSchemaDefinition] and [setBuiltIn]. *)
Definition setSchemaDefinition (this : ptr) (schemaDefinition : ptr) : M unit :=
  let* s := derefSchema this in
  store this
    (Schema (mkSchemaObj (mutable s) (Some schemaDefinition)
               (builtInTypes s) (typesMap s) (directivesMap s))).

Definition setBuiltIn (this : ptr) (name : string) (type : ptr) : M unit :=
  let* s := derefSchema this in
  store this
    (Schema (mkSchemaObj (mutable s) (_schemaDefinition s)
               (map_set (builtInTypes s) name type) (typesMap s) (directivesMap s))).

(** The getter [schemaDefinition]. *)
Definition schemaDefinition (this : ptr) : M ptr :=
  let* s := derefSchema this in
  match _schemaDefinition s with
  | Some d => ret d
  | None =>
      throw (AssertionError "Badly constructed schema; doesn't have a schema definition")
  end.

(** [type(name)]. *)
Definition type (this : ptr) (name : string) : M (option ptr) :=
  let* s := derefSchema this in
  match map_get (typesMap s) name with
  | Some t => ret (Some t)
  | None => ret (map_get (builtInTypes s) name)
  end.

End BaseSchema.

(** [schema!.type(name)] on a possibly undefined schema. *)
Definition typeIn (schema : option ptr) (name : string) : M (option ptr) :=
  match schema with
  | Some s => BaseSchema.type s name
  | None => throw (TypeError "cannot read properties of undefined (reading 'type')")
  end.

(** *** [Ctors] *)

Inductive World : Type := ImmutableWorld | MutableWorld.

Definition builtInTypeNames : list string := ["Int"; "Float"; "String"; "Boolean"; "ID"].

Module Ctors.

Definition createSchema (w : World) : M ptr :=
  alloc (Schema (mkSchemaObj (match w with MutableWorld => true | ImmutableWorld => false end)
                   None [] [] [])).

Definition createSchemaDefinition (parent : option ptr) : M ptr :=
  alloc (SchemaDefinition (mkSchemaDefinitionObj parent [] [])).

Definition createTypeOfKind (k : NamedKind) (name : string) (schema : option ptr) : M ptr :=
  alloc (NamedType (mkNamedTypeObj k name schema [] [] [] [])).

Definition createScalarType := createTypeOfKind ScalarType.
Definition createObjectType := createTypeOfKind ObjectType.
Definition createUnionType := createTypeOfKind UnionType.
Definition createInputObjectType := createTypeOfKind InputObjectType.

Definition createList (type : option TypeRef) : TypeRef := ListType type.

Definition createFieldDefinition (name : string) (parent : option ptr)
           (type : option TypeRef) : M ptr :=
  alloc (FieldDefinition (mkFieldDefinitionObj name parent type [] [])).

Definition createInputFieldDefinition (name : string) (parent : option ptr)
           (type : option TypeRef) : M ptr :=
  alloc (InputFieldDefinition (mkInputFieldDefinitionObj name parent type [])).

Definition createFieldArgumentDefinition (name : string) (parent : option ptr)
           (type : option TypeRef) (defaultValue : option Value) : M ptr :=
  alloc (ArgumentDefinition (mkArgumentDefinitionObj name parent type defaultValue [])).

Definition createDirectiveArgumentDefinition := createFieldArgumentDefinition.

Definition createDirectiveDefinition (name : string) (parent : option ptr) : M ptr :=
  alloc (DirectiveDefinition (mkDirectiveDefinitionObj name parent [] [])).

Definition createDirective (name : string) (parent : option ptr)
           (args : JsMap string Value) : M ptr :=
  alloc (Directive (mkDirectiveObj name parent args)).

(** [checkDetached]: the immutable world refuses an undefined value. *)
Definition checkDetached {A} (w : World) (v : option A) : M (option A) :=
  match w, v with
  | ImmutableWorld, None => throw (PlainError "Invalid detached value")
  | _, _ => ret v
  end.

(** [schema()]. *)
Definition schema (w : World) : M ptr :=
  let* doc := createSchema w in
  forEach builtInTypeNames
    (fun builtIn =>
       let* type := createScalarType builtIn (Some doc) in
       BaseSchema.setBuiltIn doc builtIn type) ;;
  ret doc.

(** [addSchemaDefinition]. *)
Definition addSchemaDefinition (schema : ptr) : M ptr :=
  let* schemaDefinition := createSchemaDefinition (Some schema) in
  BaseSchema.setSchemaDefinition schema schemaDefinition ;;
  ret schema.

(** [createNamedType]: a kind without a branch is given as the string
    the caller passes. *)
Definition createNamedType (kind : NamedKind + string) (name : string) (schema : ptr)
  : M ptr :=
  match kind with
  | inl k => createTypeOfKind k name (Some schema)
  | inr other => throw (AssertionError ("Missing branch for type " ++ other))
  end.

End Ctors.

(** *** The module-level helpers *)

(** [addReferencerToType]. *)
Definition addReferencerToType (referencer : ptr) (type : option TypeRef) : M unit :=
  match type with
  | None => throw (TypeError "cannot read properties of undefined (reading 'kind')")
  | Some t =>
      match ListType.baseType t with
      | Some base => BaseNamedType.addReferencer base referencer
      | None => throw (TypeError "cannot read properties of undefined (reading 'kind')")
      end
  end.

(** [addTypeDefinition]. *)
Definition addTypeDefinition (namedType : ptr) (schema : ptr) : M unit :=
  let* t := derefNamedType namedType in
  let* s := derefSchema schema in
  store schema (Schema (with_typesMap s (map_set (typesMap s) (nt_name t) namedType))).

(** [addDirectiveDefinition]. *)
Definition addDirectiveDefinition (definition : ptr) (schema : ptr) : M unit :=
  let* o := deref definition in
  match o with
  | DirectiveDefinition d =>
      let* s := derefSchema schema in
      store schema
        (Schema (with_directivesMap s (map_set (directivesMap s) (dd_name d) definition)))
  | _ => throw (TypeError "not a directive definition")
  end.

(** [addRoot]. *)
Definition addRoot (root : SchemaRoot) (typeName : string) (schemaDefinition : ptr)
  : M unit :=
  let* schema := BaseElement.schema schemaDefinition in
  let* type := typeIn schema typeName in
  let* o := deref schemaDefinition in
  match o, type with
  | SchemaDefinition d, Some t =>
      store schemaDefinition
        (SchemaDefinition (with_rootsMap d (map_set (rootsMap d) root t))) ;;
      addReferencerToType schemaDefinition (Some (NamedRef t))
  | SchemaDefinition _, None => addReferencerToType schemaDefinition None
  | _, _ => throw (TypeError "not a schema definition")
  end.

Definition argumentName (arg : ptr) : M string :=
  let* o := deref arg in
  match o with
  | ArgumentDefinition a => ret (ad_name a)
  | _ => throw (TypeError "not an argument definition")
  end.

(** [addFieldArg] and [addDirectiveArg]. *)
Definition addFieldArg (arg : ptr) (field : ptr) : M unit :=
  let* name := argumentName arg in
  let* o := deref field in
  match o with
  | FieldDefinition f =>
      store field (FieldDefinition (with_fd_args f (map_set (fd_args f) name arg)))
  | _ => throw (TypeError "not a field definition")
  end.

Definition addDirectiveArg (arg : ptr) (directive : ptr) : M unit :=
  let* name := argumentName arg in
  let* o := deref directive in
  match o with
  | DirectiveDefinition d =>
      store directive (DirectiveDefinition (with_dd_args d (map_set (dd_args d) name arg)))
  | _ => throw (TypeError "not a directive definition")
  end.

Definition hasFields (k : NamedKind) : bool :=
  bool_decide (k = ObjectType) || bool_decide (k = InputObjectType).

Definition fieldName (field : ptr) : M string :=
  let* o := deref field in
  match o with
  | FieldDefinition f => ret (fd_name f)
  | InputFieldDefinition f => ret (if_name f)
  | _ => throw (TypeError "not a field")
  end.

(** [addField]: scalars and unions have no [fields]. *)
Definition addField (field : ptr) (objectType : ptr) : M unit :=
  let* name := fieldName field in
  let* t := derefNamedType objectType in
  if hasFields (nt_kind t)
  then store objectType (NamedType (with_fieldsMap t (map_set (fieldsMap t) name field)))
  else throw (TypeError "cannot read properties of undefined (reading 'set')").

(** [addTypeToUnion]: only unions have [types]. *)
Definition addTypeToUnion (typeName : string) (unionType : ptr) : M unit :=
  let* schema := BaseElement.schema unionType in
  let* type := typeIn schema typeName in
  let* u := derefNamedType unionType in
  if bool_decide (nt_kind u = UnionType)
  then match type with
       | Some t =>
           store unionType (NamedType (with_typesList u (typesList u ++ [t]))) ;;
           addReferencerToType unionType (Some (NamedRef t))
       | None => addReferencerToType unionType None
       end
  else throw (TypeError "cannot read properties of undefined (reading 'push')").

(** *** Building a schema from a parsed document *)

Inductive TypeNode : Type :=
| NamedTypeNode (name : string)
| ListTypeNode (type : TypeNode)
| NonNullTypeNode (type : TypeNode).

Record InputValueDefinitionNode : Type := mkInputValue {
  iv_name : string;
  iv_type : TypeNode;
  iv_defaultValue : option ValueNode;
  iv_directives : list DirectiveNode
}.

Record FieldDefinitionNode : Type := mkFieldNode {
  fn_name : string;
  fn_arguments : list InputValueDefinitionNode;
  fn_type : TypeNode;
  fn_directives : list DirectiveNode
}.

Inductive DefinitionNode : Type :=
| OperationDefinition
| FragmentDefinition
| SchemaDefinitionNode (directives : list DirectiveNode)
                       (operationTypes : list (SchemaRoot * string))
| ScalarTypeDefinition (name : string) (directives : list DirectiveNode)
| ObjectTypeDefinition (name : string) (directives : list DirectiveNode)
                       (fields : list FieldDefinitionNode)
| InterfaceTypeDefinition (name : string) (directives : list DirectiveNode)
| UnionTypeDefinition (name : string) (directives : list DirectiveNode)
                      (types : list string)
| EnumTypeDefinition (name : string) (directives : list DirectiveNode)
| InputObjectTypeDefinition (name : string) (directives : list DirectiveNode)
                            (fields : list InputValueDefinitionNode)
| DirectiveDefinitionNode (name : string) (arguments : list InputValueDefinitionNode)
| TypeSystemExtension.

Definition DocumentNode : Type := list DefinitionNode.

Section Build.

Variable w : World.

(** [buildDirective]. *)
Definition buildDirective (directiveNode : DirectiveNode) (element : ptr) : M ptr :=
  let args :=
    fold_left (fun args argNode => map_set args (fst argNode) (valueFromASTUntyped (snd argNode)))
      (d_arguments directiveNode) [] in
  Ctors.createDirective (d_name directiveNode) (Some element) args.

(** [buildAppliedDirectives]. *)
Definition buildAppliedDirectives (directives : list DirectiveNode) (element : ptr) : M unit :=
  forEach directives
    (fun directive =>
       let* built := buildDirective directive element in
       BaseElement.addAppliedDirective element built ;; ret tt).

(** [buildWrapperTypeOrTypeRef]. *)
Fixpoint buildWrapperTypeOrTypeRef (typeNode : TypeNode) (schema : option ptr)
  : M (option TypeRef) :=
  match typeNode with
  | ListTypeNode inner =>
      let* built := buildWrapperTypeOrTypeRef inner schema in
      ret (Some (Ctors.createList built))
  | NonNullTypeNode _ => throw (PlainError "TODO")
  | NamedTypeNode name =>
      let* type := typeIn schema name in
      ret (option_map NamedRef type)
  end.

(** [buildFieldArgumentDefinition]; [buildDirectiveArgumentDefinition] has
    the same body. *)
Definition buildFieldArgumentDefinition (inputNode : InputValueDefinitionNode) (parent : ptr)
  : M ptr :=
  let* schema := BaseElement.schema parent in
  let* type := buildWrapperTypeOrTypeRef (iv_type inputNode) schema in
  let* built := Ctors.createFieldArgumentDefinition (iv_name inputNode) (Some parent) type
                  (buildValue (iv_defaultValue inputNode)) in
  buildAppliedDirectives (iv_directives inputNode) built ;;
  addReferencerToType built type ;;
  ret built.

Definition buildDirectiveArgumentDefinition := buildFieldArgumentDefinition.

(** [buildFieldDefinition]. *)
Definition buildFieldDefinition (fieldNode : FieldDefinitionNode) (parentType : ptr)
  : M ptr :=
  let* schema := BaseElement.schema parentType in
  let* type := buildWrapperTypeOrTypeRef (fn_type fieldNode) schema in
  let* builtField := Ctors.createFieldDefinition (fn_name fieldNode) (Some parentType) type in
  buildAppliedDirectives (fn_directives fieldNode) builtField ;;
  forEach (fn_arguments fieldNode)
    (fun inputValueDef =>
       let* arg := buildFieldArgumentDefinition inputValueDef builtField in
       addFieldArg arg builtField) ;;
  addReferencerToType builtField type ;;
  ret builtField.

(** [buildInputFieldDefinition]. *)
Definition buildInputFieldDefinition (fieldNode : InputValueDefinitionNode)
           (parentType : ptr) : M ptr :=
  let* schema := BaseElement.schema parentType in
  let* type := buildWrapperTypeOrTypeRef (iv_type fieldNode) schema in
  let* builtField := Ctors.createInputFieldDefinition (iv_name fieldNode) (Some parentType) type in
  buildAppliedDirectives (iv_directives fieldNode) builtField ;;
  addReferencerToType builtField type ;;
  ret builtField.

(** [buildDirectiveDefinition]. *)
Definition buildDirectiveDefinition (name : string)
           (arguments : list InputValueDefinitionNode) (parent : ptr) : M ptr :=
  let* builtDirective := Ctors.createDirectiveDefinition name (Some parent) in
  forEach arguments
    (fun inputValueDef =>
       let* arg := buildDirectiveArgumentDefinition inputValueDef builtDirective in
       addDirectiveArg arg builtDirective) ;;
  ret builtDirective.

(** [buildNamedTypeShallow]. *)
Definition buildNamedTypeShallow (documentNode : DocumentNode) (schema : ptr) : M unit :=
  forEach documentNode
    (fun definitionNode =>
       let shell kind name :=
         (let* type := Ctors.createNamedType kind name schema in addTypeDefinition type schema) in
       match definitionNode with
       | ScalarTypeDefinition name _ => shell (inl ScalarType) name
       | ObjectTypeDefinition name _ _ => shell (inl ObjectType) name
       | InterfaceTypeDefinition name _ => shell (inr "InterfaceType") name
       | UnionTypeDefinition name _ _ => shell (inl UnionType) name
       | EnumTypeDefinition name _ => shell (inr "EnumType") name
       | InputObjectTypeDefinition name _ _ => shell (inl InputObjectType) name
       | TypeSystemExtension => throw (PlainError "Extensions are a TODO")
       | _ => ret tt
       end).

(** [buildSchemaDefinition]. *)
Definition buildSchemaDefinition (directives : list DirectiveNode)
           (operationTypes : list (SchemaRoot * string)) (schema : ptr) : M unit :=
  Ctors.addSchemaDefinition schema ;;
  let* definition := BaseSchema.schemaDefinition schema in
  buildAppliedDirectives directives definition ;;
  forEach operationTypes
    (fun opTypeNode =>
       let* definition := BaseSchema.schemaDefinition schema in
       addRoot (fst opTypeNode) (snd opTypeNode) definition).

(** [buildNamedTypeInner], on the type of that name. *)
Definition buildNamedTypeInner (definitionNode : DefinitionNode) (type : option ptr)
  : M unit :=
  let inner directives (body : ptr -> M unit) : M unit :=
    match type with
    | Some t => buildAppliedDirectives directives t ;; body t
    | None => throw (TypeError "cannot read properties of undefined")
    end in
  match definitionNode with
  | ScalarTypeDefinition _ directives => inner directives (fun _ => ret tt)
  | ObjectTypeDefinition _ directives fields =>
      inner directives
        (fun objectType =>
           forEach fields
             (fun fieldNode =>
                let* field := buildFieldDefinition fieldNode objectType in
                addField field objectType))
  | InterfaceTypeDefinition _ directives => inner directives (fun _ => throw (PlainError "TODO"))
  | UnionTypeDefinition _ directives types =>
      inner directives
        (fun unionType => forEach types (fun name => addTypeToUnion name unionType))
  | EnumTypeDefinition _ directives => inner directives (fun _ => throw (PlainError "TODO"))
  | InputObjectTypeDefinition _ directives fields =>
      inner directives
        (fun inputObjectType =>
           forEach fields
             (fun fieldNode =>
                let* field := buildInputFieldDefinition fieldNode inputObjectType in
                addField field inputObjectType))
  | _ => ret tt
  end.

Definition definitionName (definitionNode : DefinitionNode) : string :=
  match definitionNode with
  | ScalarTypeDefinition name _ | ObjectTypeDefinition name _ _
  | InterfaceTypeDefinition name _ | UnionTypeDefinition name _ _
  | EnumTypeDefinition name _ | InputObjectTypeDefinition name _ _
  | DirectiveDefinitionNode name _ => name
  | _ => EmptyString
  end.

(** [buildSchemaInternal]. *)
Definition buildSchemaInternal (documentNode : DocumentNode) : M ptr :=
  let* doc := Ctors.schema w in
  buildNamedTypeShallow documentNode doc ;;
  forEach documentNode
    (fun definitionNode =>
       match definitionNode with
       | OperationDefinition | FragmentDefinition =>
           throw (GraphQLError "Invalid executable definition found while building schema")
       | SchemaDefinitionNode directives operationTypes =>
           buildSchemaDefinition directives operationTypes doc
       | DirectiveDefinitionNode name arguments =>
           let* definition := buildDirectiveDefinition name arguments doc in
           addDirectiveDefinition definition doc
       | TypeSystemExtension => throw (PlainError "Extensions are a TODO")
       | _ =>
           let* type := BaseSchema.type doc (definitionName definitionNode) in
           buildNamedTypeInner definitionNode type
       end) ;;
  ret doc.

End Build.

(** *** Deep copy between the two worlds *)

Section Copy.

Variable destWorld : World.

(** [copyDirective]. *)
Definition copyDirective (source : ptr) (parentDest : ptr) : M ptr :=
  let* o := deref source in
  match o with
  | Directive d =>
      let args := fold_left (fun args e => map_set args (fst e) (snd e)) (dir_args d) [] in
      Ctors.createDirective (dir_name d) (Some parentDest) args
  | _ => throw (TypeError "not a directive")
  end.

(** [copyAppliedDirectives]. *)
Definition copyAppliedDirectives (source : ptr) (dest : ptr) : M unit :=
  let* o := deref source in
  forEach (BaseElement.appliedDirectives o)
    (fun directive =>
       let* copied := copyDirective directive dest in
       BaseElement.addAppliedDirective dest copied ;; ret tt).

(** [copySchemaDefinitionInner]. *)
Definition copySchemaDefinitionInner (source : ptr) (dest : ptr) : M unit :=
  let* o := deref source in
  match o with
  | SchemaDefinition d =>
      forEach (rootsMap d)
        (fun entry =>
           let* type := derefNamedType (snd entry) in
           addRoot (fst entry) (nt_name type) dest) ;;
      copyAppliedDirectives source dest
  | _ => throw (TypeError "not a schema definition")
  end.

(** [copyNamedTypeShallow]. *)
Definition copyNamedTypeShallow (source : ptr) (schema : ptr) : M ptr :=
  let* t := derefNamedType source in
  Ctors.createNamedType (inl (nt_kind t)) (nt_name t) schema.

(** [copyWrapperTypeOrTypeRef]. *)
Fixpoint copyTypeRef (source : TypeRef) (destParent : option ptr) : M (option TypeRef) :=
  match source with
  | ListType inner =>
      let* copied :=
        match inner with
        | Some t => copyTypeRef t destParent
        | None => Ctors.checkDetached destWorld None
        end in
      ret (Some (Ctors.createList copied))
  | NamedRef p =>
      let* t := derefNamedType p in
      let* type := typeIn destParent (nt_name t) in
      ret (option_map NamedRef type)
  end.

Definition copyWrapperTypeOrTypeRef (source : option TypeRef) (destParent : option ptr)
  : M (option TypeRef) :=
  match source with
  | None => Ctors.checkDetached destWorld None
  | Some t => copyTypeRef t destParent
  end.

(** [copyFieldArgumentDefinition]; [copyDirectiveArgumentDefinition] has
    the same body. *)
Definition copyFieldArgumentDefinition (source : ptr) (destParent : ptr) : M ptr :=
  let* o := deref source in
  match o with
  | ArgumentDefinition a =>
      let* schema := BaseElement.schema destParent in
      let* type := copyWrapperTypeOrTypeRef (ad_type a) schema in
      let* copied := Ctors.createFieldArgumentDefinition (ad_name a) (Some destParent) type
                       (ad_defaultValue a) in
      copyAppliedDirectives source copied ;;
      addReferencerToType copied type ;;
      ret copied
  | _ => throw (TypeError "not an argument definition")
  end.

Definition copyDirectiveArgumentDefinition := copyFieldArgumentDefinition.

(** [copyFieldDefinition]. *)
Definition copyFieldDefinition (source : ptr) (destParent : ptr) : M ptr :=
  let* o := deref source in
  match o with
  | FieldDefinition f =>
      let* schema := BaseElement.schema destParent in
      let* type := copyWrapperTypeOrTypeRef (fd_type f) schema in
      let* copiedField := Ctors.createFieldDefinition (fd_name f) (Some destParent) type in
      copyAppliedDirectives source copiedField ;;
      forEach (map_values (fd_args f))
        (fun sourceArg =>
           let* arg := copyFieldArgumentDefinition sourceArg copiedField in
           addFieldArg arg copiedField) ;;
      addReferencerToType copiedField type ;;
      ret copiedField
  | _ => throw (TypeError "not a field definition")
  end.

(** [copyInputFieldDefinition]. *)
Definition copyInputFieldDefinition (source : ptr) (destParent : ptr) : M ptr :=
  let* o := deref source in
  match o with
  | InputFieldDefinition f =>
      let* schema := BaseElement.schema destParent in
      let* type := copyWrapperTypeOrTypeRef (if_type f) schema in
      let* copied := Ctors.createInputFieldDefinition (if_name f) (Some destParent) type in
      copyAppliedDirectives source copied ;;
      addReferencerToType copied type ;;
      ret copied
  | _ => throw (TypeError "not an input field definition")
  end.

(** [copyNamedTypeInner]. *)
Definition copyNamedTypeInner (source : ptr) (dest : option ptr) : M unit :=
  match dest with
  | None => throw (TypeError "cannot read properties of undefined")
  | Some dest =>
      copyAppliedDirectives source dest ;;
      let* t := derefNamedType source in
      match nt_kind t with
      | ObjectType =>
          forEach (map_values (fieldsMap t))
            (fun field =>
               let* copied := copyFieldDefinition field dest in
               addField copied dest)
      | UnionType =>
          forEach (typesList t)
            (fun type =>
               let* member := derefNamedType type in
               addTypeToUnion (nt_name member) dest)
      | InputObjectType =>
          forEach (map_values (fieldsMap t))
            (fun field =>
               let* copied := copyInputFieldDefinition field dest in
               addField copied dest)
      | ScalarType => ret tt
      end
  end.

(** [copyDirectiveDefinition]. *)
Definition copyDirectiveDefinition (source : ptr) (destParent : ptr) : M ptr :=
  let* o := deref source in
  match o with
  | DirectiveDefinition d =>
      let* copiedDirective := Ctors.createDirectiveDefinition (dd_name d) (Some destParent) in
      forEach (map_values (dd_args d))
        (fun sourceArg =>
           let* arg := copyDirectiveArgumentDefinition sourceArg copiedDirective in
           addDirectiveArg arg copiedDirective) ;;
      ret copiedDirective
  | _ => throw (TypeError "not a directive definition")
  end.

(** [copy]. *)
Definition copy (source : ptr) : M ptr :=
  let* fresh := Ctors.schema destWorld in
  let* sourceDefinition := BaseSchema.schemaDefinition source in
  let* doc := Ctors.addSchemaDefinition fresh in
  let* s := derefSchema source in
  forEach (map_values (typesMap s))
    (fun type =>
       let* shell := copyNamedTypeShallow type doc in
       addTypeDefinition shell doc) ;;
  let* destDefinition := BaseSchema.schemaDefinition doc in
  copySchemaDefinitionInner sourceDefinition destDefinition ;;
  forEach (map_values (typesMap s))
    (fun type =>
       let* t := derefNamedType type in
       let* dest := BaseSchema.type doc (nt_name t) in
       copyNamedTypeInner type dest) ;;
  forEach (map_values (directivesMap s))
    (fun directive =>
       let* copied := copyDirectiveDefinition directive doc in
       addDirectiveDefinition copied doc) ;;
  ret doc.

End Copy.

(** *** The classes of the two worlds *)

Definition attachement (schema : option ptr) : string :=
  match schema with
  | Some _ => "attached to another schema"
  | None => "detached"
  end.

(** The body shared by the [applyDirective] methods. *)
Definition applyDirective (this : ptr) (name : string) (args : option (JsMap string Value))
  : M ptr :=
  let* directive := Ctors.createDirective name (Some this) (default [] args) in
  BaseElement.addAppliedDirective this directive.

(** The immutable [Schema]. *)
Module ImmutableSchema.

Definition parse (document : DocumentNode) : M ptr :=
  buildSchemaInternal ImmutableWorld document.

Definition toMutable (this : ptr) : M ptr := copy MutableWorld this.

End ImmutableSchema.

Module MutableSchema.

Definition empty : M ptr :=
  let* doc := Ctors.schema MutableWorld in
  Ctors.addSchemaDefinition doc.

Definition parse (document : DocumentNode) : M ptr :=
  buildSchemaInternal MutableWorld document.

Definition ensureTypeNotFound (this : ptr) (name : string) : M unit :=
  let* existing := BaseSchema.type this name in
  match existing with
  | Some _ => throw (GraphQLError ("Type " ++ name ++ " already exists in this schema"))
  | None => ret tt
  end.

Definition addType (this : ptr) (name : string) (ctor : string -> M ptr) : M ptr :=
  ensureTypeNotFound this name ;;
  let* newType := ctor name in
  let* t := derefNamedType newType in
  let* s := derefSchema this in
  store this (Schema (with_typesMap s (map_set (typesMap s) (nt_name t) newType))) ;;
  ret newType.

Definition addObjectType (this : ptr) (name : string) : M ptr :=
  addType this name (fun n => Ctors.createObjectType n (Some this)).

Definition addScalarType (this : ptr) (name : string) : M ptr :=
  let* s := derefSchema this in
  match map_get (builtInTypes s) name with
  | Some _ =>
      throw (GraphQLError
               ("Cannot add scalar type of name " ++ name ++ " as it is a built-in type"))
  | None => addType this name (fun n => Ctors.createScalarType n (Some this))
  end.

Definition addOrGetType (this : ptr) (name : string) (kind : NamedKind)
           (adder : string -> M ptr) : M ptr :=
  let* s := derefSchema this in
  match map_get (typesMap s) name with
  | Some existing =>
      let* t := derefNamedType existing in
      if bool_decide (nt_kind t = kind) then ret existing
      else throw (GraphQLError
                    ("Type " ++ name ++ " already exists and is not an " ++ kindString kind
                       ++ " (it is a " ++ kindString (nt_kind t) ++ ")"))
  | None => adder name
  end.

Definition addOrGetObjectType (this : ptr) (name : string) : M ptr :=
  addOrGetType this name ObjectType (addObjectType this).

Definition addOrGetScalarType (this : ptr) (name : string) : M ptr :=
  addOrGetType this name ScalarType (addScalarType this).

Definition addDirective (this : ptr) (directive : ptr) : M unit :=
  addDirectiveDefinition directive this.

Definition toImmutable (this : ptr) : M ptr := copy ImmutableWorld this.

End MutableSchema.

Module MutableSchemaDefinition.

Definition setRoot (this : ptr) (rootType : SchemaRoot) (objectType : ptr) : M ptr :=
  let* typeSide := BaseElement.schema objectType in
  let* thisSide := BaseElement.schema this in
  if negb (bool_decide (typeSide = thisSide))
  then
    let* provided := typeToString (NamedRef objectType) in
    throw (GraphQLError
             ("Cannot use provided type " ++ provided ++ " for " ++ rootString rootType
                ++ " as it is not attached to this schema (it is "
                ++ attachement typeSide ++ ")"))
  else
    let* o := deref this in
    match o with
    | SchemaDefinition d =>
        store this
          (SchemaDefinition (with_rootsMap d (map_set (rootsMap d) rootType objectType))) ;;
        ret objectType
    | _ => throw (TypeError "not a schema definition")
    end.

End MutableSchemaDefinition.

Module MutableScalarType.

(** A built-in scalar refuses directives. *)
Definition applyDirective (this : ptr) (name : string) (args : option (JsMap string Value))
  : M ptr :=
  let* t := derefNamedType this in
  if Js.includes builtInTypeNames (nt_name t)
  then throw (PlainError "Cannot apply directive to built-in type")
  else applyDirective this name args.

End MutableScalarType.

Module MutableObjectType.

(** [addField].  The message for a name already taken ends with the
    existing field printed between parentheses, which is left out here. *)
Definition addField (this : ptr) (name : string) (type : TypeRef) : M ptr :=
  let* t := derefNamedType this in
  match map_get (fieldsMap t) name with
  | Some _ => throw (GraphQLError ("Field " ++ name ++ " already exists in type " ++ nt_name t))
  | None =>
      let* typeSide := schemaOfType type in
      let* thisSide := BaseElement.schema this in
      if negb (bool_decide (typeSide = thisSide))
      then
        let* provided := typeToString type in
        throw (GraphQLError
                 ("Cannot use provided type " ++ provided
                    ++ " as it is not attached to this schema (it is "
                    ++ attachement typeSide ++ ")"))
      else
        let* field := Ctors.createFieldDefinition name (Some this) (Some type) in
        let* t := derefNamedType this in
        store this (NamedType (with_fieldsMap t (map_set (fieldsMap t) name field))) ;;
        ret field
  end.

End MutableObjectType.

Module MutableInputObjectType.

(** [addField], with the same message as for an object type. *)
Definition addField (this : ptr) (name : string) (type : TypeRef) : M ptr :=
  let* t := derefNamedType this in
  match map_get (fieldsMap t) name with
  | Some _ => throw (GraphQLError ("Field " ++ name ++ " already exists in type " ++ nt_name t))
  | None =>
      let* typeSide := schemaOfType type in
      let* thisSide := BaseElement.schema this in
      if negb (bool_decide (typeSide = thisSide))
      then
        let* provided := typeToString type in
        throw (GraphQLError
                 ("Cannot use provided type " ++ provided
                    ++ " as it is not attached to this schema (it is "
                    ++ attachement typeSide ++ ")"))
      else
        let* field := Ctors.createInputFieldDefinition name (Some this) (Some type) in
        let* t := derefNamedType this in
        store this (NamedType (with_fieldsMap t (map_set (fieldsMap t) name field))) ;;
        ret field
  end.

End MutableInputObjectType.

Module MutableUnionType.

Definition addType (this : ptr) (type : ptr) : M unit :=
  let* typeSide := BaseElement.schema type in
  let* thisSide := BaseElement.schema this in
  if negb (bool_decide (typeSide = thisSide))
  then
    let* provided := typeToString (NamedRef type) in
    let* u := derefNamedType this in
    throw (GraphQLError
             ("Cannot add provided type " ++ provided ++ " to union " ++ nt_name u
                ++ " as it is not attached to this schema (it is "
                ++ attachement typeSide ++ ")"))
  else
    let* u := derefNamedType this in
    if bool_decide (type ∈ typesList u) then ret tt
    else store this (NamedType (with_typesList u (typesList u ++ [type]))).

End MutableUnionType.

Module MutableFieldDefinition.

Definition setType (this : ptr) (type : TypeRef) : M ptr :=
  let* o := deref this in
  match o with
  | FieldDefinition f =>
      let* thisSide := BaseElement.schema this in
      match thisSide with
      | None =>
          throw (GraphQLError
                   ("Cannot set the type of field " ++ fd_name f ++ " as it is detached"))
      | Some _ =>
          let* typeSide := schemaOfType type in
          if negb (bool_decide (typeSide = thisSide))
          then
            let* provided := typeToString type in
            throw (GraphQLError
                     ("Cannot set provided type " ++ provided ++ " to field " ++ fd_name f
                        ++ " as it is not attached to this schema (it is "
                        ++ attachement typeSide ++ ")"))
          else
            store this (FieldDefinition (with_fd_type f (Some type))) ;;
            ret this
      end
  | _ => throw (TypeError "not a field definition")
  end.

End MutableFieldDefinition.

Module MutableInputFieldDefinition.

Definition setType (this : ptr) (type : TypeRef) : M ptr :=
  let* o := deref this in
  match o with
  | InputFieldDefinition f =>
      let* thisSide := BaseElement.schema this in
      match thisSide with
      | None =>
          throw (GraphQLError
                   ("Cannot set the type of input field " ++ if_name f ++ " as it is detached"))
      | Some _ =>
          let* typeSide := schemaOfType type in
          if negb (bool_decide (typeSide = thisSide))
          then
            let* provided := typeToString type in
            throw (GraphQLError
                     ("Cannot set provided type " ++ provided ++ " to input field "
                        ++ if_name f ++ " as it is not attached to this schema (it is "
                        ++ attachement typeSide ++ ")"))
          else
            store this (InputFieldDefinition (with_if_type f (Some type))) ;;
            ret this
      end
  | _ => throw (TypeError "not an input field definition")
  end.

End MutableInputFieldDefinition.

Module MutableDirectiveDefinition.

Definition addArgument (this : ptr) (name : string) (type : TypeRef)
           (defaultValue : option Value) : M ptr :=
  let* o := deref this in
  match o with
  | DirectiveDefinition d =>
      let* thisSide := BaseElement.schema this in
      match thisSide with
      | None =>
          throw (GraphQLError
                   ("Cannot add argument to directive definition " ++ dd_name d
                      ++ " as it is detached"))
      | Some _ =>
          let* typeSide := schemaOfType type in
          if negb (bool_decide (typeSide = thisSide))
          then
            let* provided := typeToString type in
            throw (GraphQLError
                     ("Cannot use type " ++ provided
                        ++ " for argument of directive definition " ++ dd_name d
                        ++ " as it is not attached to this schema (it is "
                        ++ attachement typeSide ++ ")"))
          else
            let* newArg := Ctors.createDirectiveArgumentDefinition name (Some this)
                             (Some type) defaultValue in
            addDirectiveArg newArg this ;;
            ret newArg
      end
  | _ => throw (TypeError "not a directive definition")
  end.

End MutableDirectiveDefinition.

End Som.

(** ** Composition and the [@override] rules *)

Module Composition.

Inductive ErrorCode : Type :=
| OVERRIDE_FROM_SELF_ERROR
| OVERRIDE_SOURCE_HAS_OVERRIDE
| OVERRIDE_COLLISION_WITH_ANOTHER_DIRECTIVE
| OVERRIDE_ON_BOTH_FIELD_AND_TYPE
| INVALID_FIELD_SHARING.

Global Instance ErrorCode_eq_dec : EqDecision ErrorCode.
Proof. solve_decision. Defined.

Record CompositionError : Type := mkError {
  code : ErrorCode;
  message : string
}.

(** A field of a subgraph with the federation directives it carries. *)
Record FieldDecl : Type := mkFieldDecl {
  fieldName : string;
  fieldType : string;
  override : option string;
  external : bool;
  shareable : bool
}.

(** An object type of a subgraph; [keys] lists the fields of each [@key]. *)
Record TypeDecl : Type := mkTypeDecl {
  typeName : string;
  keys : list (list string);
  fields : list FieldDecl
}.

Record Subgraph : Type := mkSubgraph {
  name : string;
  url : string;
  typeDefs : list TypeDecl
}.

Definition findSubgraph (subgraphs : list Subgraph) (n : string) : option Subgraph :=
  List.find (fun s => String.eqb (name s) n) subgraphs.

Definition findType (s : Subgraph) (T : string) : option TypeDecl :=
  List.find (fun t => String.eqb (typeName t) T) (typeDefs s).

Definition findField (s : Subgraph) (T a : string) : option FieldDecl :=
  match findType s T with
  | Some t => List.find (fun f => String.eqb (fieldName f) a) (fields t)
  | None => None
  end.

(** The key predicate: the field appears in a [@key] of its parent type. *)
Definition isKeyField (s : Subgraph) (T a : string) : bool :=
  match findType s T with
  | Some t => Js.includes (List.concat (keys t)) a
  | None => false
  end.

Definition coordinate (T a : string) : string := T ++ "." ++ a.

Definition quoted (s : string) : string := Js.dquote ++ s ++ Js.dquote.

(** *** The override table *)

Definition fromSelfError (S T a : string) : CompositionError :=
  mkError OVERRIDE_FROM_SELF_ERROR
    ("Source and destination subgraphs " ++ quoted S
       ++ " are the same for overridden field " ++ quoted (coordinate T a)).

Definition sourceHasOverrideError (S from T a : string) : CompositionError :=
  mkError OVERRIDE_SOURCE_HAS_OVERRIDE
    ("Field " ++ quoted (coordinate T a) ++ " on subgraph " ++ quoted S
       ++ " is also marked with directive @override in subgraph " ++ quoted from
       ++ ". Only one @override directive is allowed per field.").

Definition collisionError (S marked T a : string) : CompositionError :=
  mkError OVERRIDE_COLLISION_WITH_ANOTHER_DIRECTIVE
    ("@override cannot be used on field " ++ quoted (coordinate T a)
       ++ " on subgraph " ++ quoted S ++ " since " ++ quoted (coordinate T a)
       ++ " on " ++ quoted marked ++ " is marked with directive " ++ quoted "@external").

Definition hasOverride (f : FieldDecl) : bool := bool_decide (is_Some (override f)).

(** Modelled from the spec: the override table of the composition engine,
    which is not part of the sources at hand (its test-suite is).  The
    errors raised for the field [T.a] of subgraph [S]: the rows on the
    source of the override are tried in order, and the row on the
    overriding field itself is checked next to the row on an external
    source. *)
Definition overrideErrorsOfField (subgraphs : list Subgraph) (S : Subgraph) (T : string)
           (f : FieldDecl) : list CompositionError :=
  let a := fieldName f in
  match override f with
  | None => []
  | Some from =>
      if String.eqb from (name S) then [fromSelfError (name S) T a]
      else
        match findSubgraph subgraphs from with
        | None => []
        | Some S' =>
            match findField S' T a with
            | None => []
            | Some f' =>
                if hasOverride f' then [sourceHasOverrideError (name S) from T a]
                else
                  (if external f' then [collisionError (name S) from T a] else [])
                    ++ (if external f then [collisionError (name S) (name S) T a] else [])
            end
        end
  end.

Definition overrideErrors (subgraphs : list Subgraph) : list CompositionError :=
  List.flat_map
    (fun S =>
       List.flat_map
         (fun t => List.flat_map (overrideErrorsOfField subgraphs S (typeName t)) (fields t))
         (typeDefs S))
    subgraphs.

(** Modelled from the spec: a valid [@override(from: S')] on [T.a] in [S];
    no row of the table applies, and [S'] does declare [T.a]. *)
Definition validOverride (subgraphs : list Subgraph) (S : Subgraph) (T a : string) : bool :=
  match findField S T a with
  | Some f =>
      match override f with
      | Some from =>
          negb (String.eqb from (name S))
          && match findSubgraph subgraphs from with
             | Some S' =>
                 match findField S' T a with
                 | Some f' => negb (hasOverride f') && negb (external f') && negb (external f)
                 | None => false
                 end
             | None => false
             end
      | None => false
      end
  | None => false
  end.

Definition overrideSource (S : Subgraph) (T a : string) : option string :=
  match findField S T a with
  | Some f => override f
  | None => None
  end.

(** [T.a] of subgraph [G] has been taken over by a valid override. *)
Definition overridden (subgraphs : list Subgraph) (G : Subgraph) (T a : string) : bool :=
  existsb
    (fun S => bool_decide (overrideSource S T a = Some (name G))
              && validOverride subgraphs S T a)
    subgraphs.

(** *** Rewriting and sharing *)

(** Modelled from the spec: override rewriting removes [T.a] from the
    contribution of the overridden subgraph.  After rewriting, [G]
    contributes [T.a] when it declares it, does not mark it external, and
    has not been overridden. *)
Definition resolves (subgraphs : list Subgraph) (G : Subgraph) (T a : string) : bool :=
  match findField G T a with
  | Some f => negb (external f) && negb (overridden subgraphs G T a)
  | None => false
  end.

Definition isShareable (G : Subgraph) (T a : string) : bool :=
  match findField G T a with
  | Some f => shareable f || isKeyField G T a
  | None => false
  end.

Fixpoint dedup (l : list string) : list string :=
  match l with
  | [] => []
  | x :: r => x :: List.filter (fun y => negb (String.eqb x y)) (dedup r)
  end.

Definition typeNames (subgraphs : list Subgraph) : list string :=
  dedup (List.flat_map (fun S => List.map typeName (typeDefs S)) subgraphs).

Definition fieldNames (subgraphs : list Subgraph) (T : string) : list string :=
  dedup
    (List.flat_map
       (fun S => match findType S T with
                 | Some t => List.map fieldName (fields t)
                 | None => []
                 end)
       subgraphs).

Fixpoint enumerate (names : list string) : string :=
  match names with
  | [] => EmptyString
  | [x] => quoted x
  | [x; y] => quoted x ++ " and " ++ quoted y
  | x :: r => quoted x ++ ", " ++ enumerate r
  end.

Definition sharingError (T a : string) (resolvers : list string) : CompositionError :=
  mkError INVALID_FIELD_SHARING
    ("Non-shareable field " ++ quoted (coordinate T a)
       ++ " is resolved from multiple subgraphs: it is resolved from subgraphs "
       ++ enumerate resolvers ++ " and defined as non-shareable in all of them").

(** Modelled from the spec: the last row of the table; [T.a] is resolved
    by several subgraphs after rewriting, and is shareable in none of
    them. *)
Definition sharingErrorsOfField (subgraphs : list Subgraph) (T a : string)
  : list CompositionError :=
  let resolvers := List.filter (fun G => resolves subgraphs G T a) subgraphs in
  if (1 <? length resolvers)%nat
     && forallb (fun G => negb (isShareable G T a)) resolvers
  then [sharingError T a (List.map name resolvers)]
  else [].

Definition sharingErrors (subgraphs : list Subgraph) : list CompositionError :=
  List.flat_map
    (fun T => List.flat_map (sharingErrorsOfField subgraphs T) (fieldNames subgraphs T))
    (typeNames subgraphs).

(** *** The supergraph *)

(** [@join__field(graph: G, external: e)]. *)
Record JoinField : Type := mkJoinField {
  graph : string;
  joinExternal : bool
}.

Global Instance JoinField_eq_dec : EqDecision JoinField.
Proof. solve_decision. Defined.

(** [@join__type(graph: G, key: k)]. *)
Record JoinType : Type := mkJoinType {
  typeGraph : string;
  key : option (list string)
}.

Record SuperField : Type := mkSuperField {
  superFieldName : string;
  superFieldType : string;
  joinFields : list JoinField
}.

Record SuperType : Type := mkSuperType {
  superTypeName : string;
  joinTypes : list JoinType;
  superFields : list SuperField
}.

Definition Supergraph : Type := list SuperType.

(** Modelled from the spec: the [@join__field] applications of [T.a], one
    per subgraph that declares and keeps the field, and
    [@join__field(graph: S', external: true)] for a subgraph [S'] whose key
    field was overridden. *)
Definition joinFieldOf (subgraphs : list Subgraph) (T a : string) (G : Subgraph)
  : list JoinField :=
  match findField G T a with
  | None => []
  | Some f =>
      if overridden subgraphs G T a
      then if isKeyField G T a then [mkJoinField (name G) true] else []
      else [mkJoinField (name G) (external f)]
  end.

Definition mergedJoinFields (subgraphs : list Subgraph) (T a : string) : list JoinField :=
  List.flat_map (joinFieldOf subgraphs T a) subgraphs.

(** The declared type: the overriding subgraph's when there is one, the
    first declaration otherwise. *)
Definition mergedFieldType (subgraphs : list Subgraph) (T a : string) : string :=
  let declared S := option_map fieldType (findField S T a) in
  match List.find (fun S => validOverride subgraphs S T a) subgraphs with
  | Some winner => default EmptyString (declared winner)
  | None =>
      default EmptyString
        (List.find (fun _ => true) (omap declared subgraphs))
  end.

Definition mergedJoinTypes (subgraphs : list Subgraph) (T : string) : list JoinType :=
  List.flat_map
    (fun G =>
       match findType G T with
       | None => []
       | Some t =>
           match keys t with
           | [] => [mkJoinType (name G) None]
           | ks => List.map (fun k => mkJoinType (name G) (Some k)) ks
           end
       end)
    subgraphs.

Definition keptInSupergraph (subgraphs : list Subgraph) (T a : string) : bool :=
  negb (Nat.eqb (length (mergedJoinFields subgraphs T a)) 0).

Definition merge (subgraphs : list Subgraph) : Supergraph :=
  List.map
    (fun T =>
       mkSuperType T (mergedJoinTypes subgraphs T)
         (List.map
            (fun a =>
               mkSuperField a (mergedFieldType subgraphs T a) (mergedJoinFields subgraphs T a))
            (List.filter (keptInSupergraph subgraphs T) (fieldNames subgraphs T))))
    (typeNames subgraphs).

Inductive CompositionResult : Type :=
| Success (supergraph : Supergraph)
| Failure (errors : list CompositionError).

(** Modelled from the spec: [composeAsFed2Subgraphs], the composition
    engine, is not part of the sources at hand, only its test-suite is.
    Composition yields the supergraph, or the non-empty list of the errors
    of the override table followed by the sharing conflicts. *)
Definition compose (subgraphs : list Subgraph) : CompositionResult :=
  match overrideErrors subgraphs ++ sharingErrors subgraphs with
  | [] => Success (merge subgraphs)
  | errors => Failure errors
  end.

Definition superField (sg : Supergraph) (T a : string) : option SuperField :=
  match List.find (fun t => String.eqb (superTypeName t) T) sg with
  | Some t => List.find (fun f => String.eqb (superFieldName f) a) (superFields t)
  | None => None
  end.

End Composition.

(** ** Vocabulary of the statements about the schema object model *)

Module SomSpec.
Import Ast Som.

(** *** Reading a schema back *)

Definition referencersOf (h : Heap) (type : ptr) : list ptr :=
  match h !! type with
  | Some (NamedType t) => _referencers t
  | _ => []
  end.

Definition typeOfField (h : Heap) (field : ptr) : option TypeRef :=
  match h !! field with
  | Some (FieldDefinition f) => fd_type f
  | Some (InputFieldDefinition f) => if_type f
  | Some (ArgumentDefinition a) => ad_type a
  | _ => None
  end.

(** The named type an element refers to through its declared type. *)
Definition referencedType (h : Heap) (element : ptr) : option ptr :=
  match typeOfField h element with
  | Some t => ListType.baseType t
  | None => None
  end.

(** [type.field(name)] on a heap. *)
Definition lookupField (h : Heap) (type : ptr) (name : string) : option ptr :=
  match h !! type with
  | Some (NamedType t) => map_get (fieldsMap t) name
  | _ => None
  end.

(** Running a computation on the empty heap. *)
Definition run {A} (m : M A) : Error + (A * Heap) := m [].

(** *** Referencer symmetry *)

(** The named types an element refers to: the declared type of a field,
    input field or argument, the members of a union, the root types of a
    schema definition. *)
Definition declaredBase (t : option TypeRef) : list ptr :=
  match t with
  | Some r => match ListType.baseType r with Some base => [base] | None => [] end
  | None => []
  end.

Definition typesReferencedBy (o : Object) : list ptr :=
  match o with
  | SchemaDefinition d => map_values (rootsMap d)
  | NamedType t => typesList t
  | FieldDefinition f => declaredBase (fd_type f)
  | InputFieldDefinition f => declaredBase (if_type f)
  | ArgumentDefinition a => declaredBase (ad_type a)
  | Schema _ | DirectiveDefinition _ | Directive _ => []
  end.

Definition attachedTo (h : Heap) (schema : ptr) (element : ptr) : bool :=
  bool_decide (BaseElement.schemaFrom (length h) h element = Some schema).

(** Referencer symmetry of the elements attached to [schema]: whoever
    refers to a type is listed among the referencers of that type. *)
Definition referencerSymmetry (h : Heap) (schema : ptr) : bool :=
  forallb
    (fun X =>
       match h !! X with
       | Some o =>
           negb (attachedTo h schema X)
           || forallb (fun T => bool_decide (X ∈ referencersOf h T)) (typesReferencedBy o)
       | None => true
       end)
    (seq 0 (length h)).

(** <<
  schema { query: A }
  type A { f: B }   type B { x: Int }   type C { y: [Int] }   union U = A | B
>> *)
Definition typesABC : DocumentNode :=
  [ ObjectTypeDefinition "A" [] [mkFieldNode "f" [] (NamedTypeNode "B") []];
    ObjectTypeDefinition "B" [] [mkFieldNode "x" [] (NamedTypeNode "Int") []];
    ObjectTypeDefinition "C" [] [mkFieldNode "y" [] (ListTypeNode (NamedTypeNode "Int")) []];
    UnionTypeDefinition "U" [] ["A"; "B"] ].

Definition documentABC : DocumentNode :=
  SchemaDefinitionNode [] [(query, "A")] :: typesABC.

(** [type A { x: Int }], a document without a schema definition. *)
Definition documentA : DocumentNode :=
  [ ObjectTypeDefinition "A" [] [mkFieldNode "x" [] (NamedTypeNode "Int") []] ].

Definition the {A} (o : option A) : M A :=
  match o with
  | Some a => ret a
  | None => throw (TypeError "undefined")
  end.

(** [const A = schema.addObjectType("A"); const f = A.addField("f", schema.intType())]
    on an empty mutable schema. *)
Definition addFieldScenario : M (ptr * ptr * ptr) :=
  let* doc := MutableSchema.empty in
  let* A := MutableSchema.addObjectType doc "A" in
  let* int := BaseSchema.type doc "Int" in
  let* Int := the int in
  let* f := MutableObjectType.addField A "f" (NamedRef Int) in
  ret (doc, Int, f).

(** [schema.schemaDefinition.setRoot("query", schema.addObjectType("Q"))]. *)
Definition setRootScenario : M (ptr * ptr * ptr) :=
  let* doc := MutableSchema.empty in
  let* Q := MutableSchema.addObjectType doc "Q" in
  let* definition := BaseSchema.schemaDefinition doc in
  let* _ := MutableSchemaDefinition.setRoot definition query Q in
  ret (doc, definition, Q).

(** The field [A.f] and the types [B] and [C] of the parsed [documentABC]. *)
Definition parsedABC : M (ptr * ptr * ptr * ptr) :=
  let* doc := MutableSchema.parse documentABC in
  let* a := BaseSchema.type doc "A" in
  let* A := the a in
  let* b := BaseSchema.type doc "B" in
  let* B := the b in
  let* c := BaseSchema.type doc "C" in
  let* C := the c in
  fun h => match lookupField h A "f" with
           | Some f => inr ((doc, f, B, C), h)
           | None => inl (TypeError "undefined")
           end.

(** [U.addType(C)] on the parsed [documentABC]. *)
Definition unionAddTypeScenario : M (ptr * ptr * ptr) :=
  let* doc := MutableSchema.parse documentABC in
  let* u := BaseSchema.type doc "U" in
  let* U := the u in
  let* c := BaseSchema.type doc "C" in
  let* C := the c in
  MutableUnionType.addType U C ;;
  ret (doc, U, C).

(** *** Structure of a schema

    What structural equality compares: the roots, the types with their
    directive applications, fields, arguments and members, and the
    directive definitions, every type reference read by name. *)

Inductive Shape : Type :=
| Node (label : string) (children : list Shape).

Fixpoint describeValue (v : Value) : Shape :=
  match v with
  | VUndefined => Node "undefined" []
  | VNull => Node "null" []
  | VNumber s => Node "number" [Node s []]
  | VString s => Node "string" [Node s []]
  | VBoolean b => Node (if b then "true" else "false") []
  | VList l => Node "list" (List.map describeValue l)
  | VObject es => Node "object" (List.map (fun e => Node (fst e) [describeValue (snd e)]) es)
  end.

Definition nameOfType (h : Heap) (p : ptr) : Shape :=
  match h !! p with
  | Some (NamedType t) => Node (nt_name t) []
  | _ => Node "?" []
  end.

Fixpoint describeTypeRef (h : Heap) (t : TypeRef) : Shape :=
  match t with
  | NamedRef p => nameOfType h p
  | ListType None => Node "list" [Node "undefined" []]
  | ListType (Some t') => Node "list" [describeTypeRef h t']
  end.

Definition describeType (h : Heap) (t : option TypeRef) : Shape :=
  match t with
  | Some r => Node "type" [describeTypeRef h r]
  | None => Node "type" [Node "undefined" []]
  end.

Definition describeDirective (h : Heap) (d : ptr) : Shape :=
  match h !! d with
  | Some (Directive o) =>
      Node ("@" ++ dir_name o)
        (List.map (fun e => Node (fst e) [describeValue (snd e)]) (dir_args o))
  | _ => Node "?" []
  end.

Definition describeDirectives (h : Heap) (l : list ptr) : Shape :=
  Node "directives" (List.map (describeDirective h) l).

Definition describeArgument (h : Heap) (a : ptr) : Shape :=
  match h !! a with
  | Some (ArgumentDefinition o) =>
      Node (ad_name o)
        [ describeType h (ad_type o);
          Node "default" (match ad_defaultValue o with
                          | Some v => [describeValue v]
                          | None => []
                          end);
          describeDirectives h (ad_appliedDirectives o) ]
  | _ => Node "?" []
  end.

Definition describeField (h : Heap) (f : ptr) : Shape :=
  match h !! f with
  | Some (FieldDefinition o) =>
      Node (fd_name o)
        [ describeType h (fd_type o);
          Node "arguments" (List.map (describeArgument h) (map_values (fd_args o)));
          describeDirectives h (fd_appliedDirectives o) ]
  | Some (InputFieldDefinition o) =>
      Node (if_name o)
        [ describeType h (if_type o); describeDirectives h (if_appliedDirectives o) ]
  | _ => Node "?" []
  end.

Definition kindName (k : NamedKind) : string :=
  match k with
  | ScalarType => "scalar"
  | ObjectType => "type"
  | UnionType => "union"
  | InputObjectType => "input"
  end.

Definition describeNamedType (h : Heap) (t : ptr) : Shape :=
  match h !! t with
  | Some (NamedType o) =>
      Node (kindName (nt_kind o) ++ " " ++ nt_name o)
        [ describeDirectives h (nt_appliedDirectives o);
          Node "fields" (List.map (describeField h) (map_values (fieldsMap o)));
          Node "types" (List.map (nameOfType h) (typesList o)) ]
  | _ => Node "?" []
  end.

Definition rootName (r : SchemaRoot) : string :=
  match r with
  | query => "query"
  | mutation => "mutation"
  | subscription => "subscription"
  end.

Definition describeSchemaDefinition (h : Heap) (d : option ptr) : Shape :=
  match d with
  | Some p =>
      match h !! p with
      | Some (SchemaDefinition o) =>
          Node "schema"
            [ describeDirectives h (sd_appliedDirectives o);
              Node "roots"
                (List.map (fun e => Node (rootName (fst e)) [nameOfType h (snd e)])
                   (rootsMap o)) ]
      | _ => Node "?" []
      end
  | None => Node "no schema definition" []
  end.

Definition describeDirectiveDefinition (h : Heap) (d : ptr) : Shape :=
  match h !! d with
  | Some (DirectiveDefinition o) =>
      Node ("directive @" ++ dd_name o)
        (List.map (describeArgument h) (map_values (dd_args o)))
  | _ => Node "?" []
  end.

Definition describe (h : Heap) (schema : ptr) : Shape :=
  match h !! schema with
  | Some (Schema o) =>
      Node "document"
        [ describeSchemaDefinition h (_schemaDefinition o);
          Node "types" (List.map (describeNamedType h) (map_values (typesMap o)));
          Node "directives"
            (List.map (describeDirectiveDefinition h) (map_values (directivesMap o))) ]
  | _ => Node "?" []
  end.

(** <<
  schema @core(feature: "x") { query: A }
  directive @tag(name: String = "t")
  scalar S @tag
  type A @tag(name: "a") { f(x: [Int] = [1] @tag): B @tag  g: U }
  type B { x: Int }
  input I { i: S = 3 @tag }
  union U = A | B
>> *)
Definition tag (args : list (string * ValueNode)) : DirectiveNode := mkDirective "tag" args.

Definition documentRich : DocumentNode :=
  [ SchemaDefinitionNode [mkDirective "core" [("feature", StringValue "x")]] [(query, "A")];
    DirectiveDefinitionNode "tag"
      [mkInputValue "name" (NamedTypeNode "String") (Some (StringValue "t")) []];
    ScalarTypeDefinition "S" [tag []];
    ObjectTypeDefinition "A" [tag [("name", StringValue "a")]]
      [ mkFieldNode "f"
          [mkInputValue "x" (ListTypeNode (NamedTypeNode "Int"))
             (Some (ListValue [IntValue "1"])) [tag []]]
          (NamedTypeNode "B") [tag []];
        mkFieldNode "g" [] (NamedTypeNode "U") [] ];
    ObjectTypeDefinition "B" [] [mkFieldNode "x" [] (NamedTypeNode "Int") []];
    InputObjectTypeDefinition "I" []
      [mkInputValue "i" (NamedTypeNode "S") (Some (IntValue "3")) [tag []]];
    UnionTypeDefinition "U" [] ["A"; "B"] ].

(** A schema, its conversion to the other world, and the conversion back. *)
Definition roundTripFromMutable (document : DocumentNode) : M (ptr * ptr * ptr) :=
  let* x := MutableSchema.parse document in
  let* y := MutableSchema.toImmutable x in
  let* z := ImmutableSchema.toMutable y in
  ret (x, y, z).

Definition roundTripFromImmutable (document : DocumentNode) : M (ptr * ptr * ptr) :=
  let* x := ImmutableSchema.parse document in
  let* y := ImmutableSchema.toMutable x in
  let* z := MutableSchema.toImmutable y in
  ret (x, y, z).

(** *** Schemas without a schema definition *)

(** What the getter [schemaDefinition] reads of an object. *)
Definition definitionSlot (o : Object) : option (option ptr) :=
  match o with
  | Schema s => Some (_schemaDefinition s)
  | _ => None
  end.

(** [h'] holds every object of [h], each with the schema definition it had. *)
Definition extends (h h' : Heap) : Prop :=
  forall p o, h !! p = Some o ->
              exists o', h' !! p = Some o' /\ definitionSlot o' = definitionSlot o.

(** A computation that leaves the schema definitions alone. *)
Definition stable {A} (m : M A) : Prop :=
  forall h a h', m h = inr (a, h') -> extends h h'.

(** The schema at [doc] has no schema definition. *)
Definition definitionUndefined (doc : ptr) (h : Heap) : Prop :=
  exists so, h !! doc = Some (Schema so) /\ _schemaDefinition so = None.

Definition hasSchemaDefinition (document : DocumentNode) : bool :=
  existsb (fun d => match d with SchemaDefinitionNode _ _ => true | _ => false end)
    document.

End SomSpec.

(** ** The subgraphs of the override test-suite *)

Module CompositionSpec.
Import Composition.

Definition plain (n t : string) : FieldDecl := mkFieldDecl n t None false false.
Definition overriding (n t from : string) : FieldDecl :=
  mkFieldDecl n t (Some from) false false.

Definition subgraphOf (n : string) (types : list TypeDecl) : Subgraph :=
  mkSubgraph n ("https://" ++ n) types.

(** "multiple override error". *)
Definition twoWay1 : Subgraph :=
  subgraphOf "Subgraph1"
    [ mkTypeDecl "Query" [] [plain "t" "T"];
      mkTypeDecl "T" [["k"]] [plain "k" "ID"; overriding "a" "Int" "Subgraph2"] ].
Definition twoWay2 : Subgraph :=
  subgraphOf "Subgraph2"
    [ mkTypeDecl "T" [["k"]] [plain "k" "ID"; overriding "a" "Int" "Subgraph1"] ].

(** "override @key field". *)
Definition keyOverride1 : Subgraph :=
  subgraphOf "Subgraph1"
    [ mkTypeDecl "Query" [] [plain "t" "T"];
      mkTypeDecl "T" [["k"]] [overriding "k" "ID" "Subgraph2"; plain "a" "Int"] ].
Definition keyOverride2 : Subgraph :=
  subgraphOf "Subgraph2"
    [ mkTypeDecl "T" [["k"]] [plain "k" "ID"; plain "b" "Int"] ].

(** The same, with a field overridden from its own subgraph next to it. *)
Definition keyOverride1Broken : Subgraph :=
  subgraphOf "Subgraph1"
    [ mkTypeDecl "Query" [] [plain "t" "T"];
      mkTypeDecl "T" [["k"]]
        [overriding "k" "ID" "Subgraph2"; overriding "a" "Int" "Subgraph1"] ].

(** "multiple override error", with [T.a] marked [@shareable] on both
    sides. *)
Definition overridingShareable (n t from : string) : FieldDecl :=
  mkFieldDecl n t (Some from) false true.

Definition twoWayShareable1 : Subgraph :=
  subgraphOf "Subgraph1"
    [ mkTypeDecl "Query" [] [plain "t" "T"];
      mkTypeDecl "T" [["k"]] [plain "k" "ID"; overridingShareable "a" "Int" "Subgraph2"] ].
Definition twoWayShareable2 : Subgraph :=
  subgraphOf "Subgraph2"
    [ mkTypeDecl "T" [["k"]] [plain "k" "ID"; overridingShareable "a" "Int" "Subgraph1"] ].

(** The document of a subgraph declares no type twice and no field twice
    in a type. *)
Definition declaredOnce (S : Subgraph) : bool :=
  bool_decide (NoDup (List.map typeName (typeDefs S)))
  && forallb (fun t => bool_decide (NoDup (List.map fieldName (fields t)))) (typeDefs S).

(** No field of the subgraph other than [T.a] raises an error of the
    override table. *)
Definition noOtherOverrideError (subgraphs : list Subgraph) (S : Subgraph) (T a : string)
  : bool :=
  forallb
    (fun t =>
       forallb
         (fun f =>
            (String.eqb (typeName t) T && String.eqb (fieldName f) a)
            || Nat.eqb (length (overrideErrorsOfField subgraphs S (typeName t) f)) 0)
         (fields t))
    (typeDefs S).

(** No coordinate other than [T.a] has a sharing conflict. *)
Definition noOtherSharingConflict (subgraphs : list Subgraph) (T a : string) : bool :=
  forallb
    (fun T' =>
       forallb
         (fun a' =>
            (String.eqb T' T && String.eqb a' a)
            || Nat.eqb (length (sharingErrorsOfField subgraphs T' a')) 0)
         (fieldNames subgraphs T'))
    (typeNames subgraphs).

End CompositionSpec.

(** ** Grouping ([utilities/groupBy]) *)

Module Utilities.

Section GroupBy.

(** The keys of an [Immutable.Map] are compared by value; [U] is a type
    whose values are equal when they are the same value. *)
Context {T U : Type} `{Countable U}.

Variable keyFunction : T -> U.

(** The body of the loop: [group.push(element)] extends the array the map
    holds under the key, [result.set(key, [element])] starts a new one. *)
Definition groupStep (result : gmap U (list T)) (element : T) : gmap U (list T) :=
  let key := keyFunction element in
  match result !! key with
  | Some group => <[key := group ++ [element]]> result
  | None => <[key := [element]]> result
  end.

(** [groupBy(keyFunction)(iterable)]. *)
Definition groupBy (iterable : list T) : gmap U (list T) :=
  fold_left groupStep iterable ∅.

End GroupBy.

End Utilities.

(** ** Vocabulary of the statements about chains of scopes *)

Module ChainSpec.
Import Ast GraphQL Scope.

(** The links of a chain that carry directives, innermost first. *)
Fixpoint directiveLinks (s : Scope) : list (string * list DirectiveNode) :=
  match s with
  | mkScope p d e =>
      match d with Some ds => [(p, ds)] | None => [] end
        ++ match e with Some next => directiveLinks next | None => [] end
  end.

(** The parent types of the links that enclose a scope. *)
Definition enclosingTypes (s : Scope) : list string :=
  match enclosing s with
  | Some next => ScopeSpec.chainTypes next
  | None => []
  end.

(** The links of a chain, innermost first: parent type and directives. *)
Fixpoint chainLinks (s : Scope) : list (string * option (list DirectiveNode)) :=
  match s with
  | mkScope p d e =>
      (p, d) :: match e with Some next => chainLinks next | None => [] end
  end.

Definition chainLinksOpt (o : option Scope) : list (string * option (list DirectiveNode)) :=
  match o with Some s => chainLinks s | None => [] end.

(** The number of directives on the innermost link. *)
Definition directiveCount (s : Scope) : nat :=
  match directives s with
  | Some ds => length ds
  | None => 0
  end.

End ChainSpec.

(** ** Vocabulary of the statements about the key predicate *)

Module KeysSpec.
Import Precompute PrecomputeSpec.

(** The subgraph [subgraph2] read as a federation 1 schema. *)
Definition fed1Metadata : FederationMetadata :=
  mkMetadata false "key" "shareable" "provides"
    (fun f => hasAppliedDirective (f_appliedDirectives f) "external").

Definition fed1Subgraph : Schema :=
  mkSchema (allTypes subgraph2) (Some fed1Metadata).

End KeysSpec.

(** ** Vocabulary of the statements about collected fields *)

Module CollectSpec.
Import Ast GraphQL Scope PlanningContext.

(** The keys the federation metadata of a type declares for a service. *)
Definition declaredKeys (context : QueryPlanningContext) (type serviceName : string)
  : option (list (list SelectionNode)) :=
  match getFederationMetadataForType (schema context) type with
  | Some {| tm_keys := Some byService |} =>
      option_map snd (List.find (fun e => String.eqb (fst e) serviceName) byService)
  | _ => None
  end.

(** The entry [getKeyFields] starts from. *)
Definition typenameEntry (scope : Scope) : FieldEntry :=
  mkEntry scope typenameField TypeNameMetaFieldDef.




End CollectSpec.

(** ** Vocabulary of the statements about mutable schemas *)

Module SchemaSpec.
Import Ast Som SomSpec.

(** [schema.type(name)] read on a heap; undefined also when the call
    throws. *)
Definition typeOf (h : Heap) (schema : ptr) (name : string) : option ptr :=
  match BaseSchema.type schema name h with
  | inr (r, _) => r
  | inl _ => None
  end.

(** What [type(name)] returns on a schema object. *)
Definition resolve (s : SchemaObj) (name : string) : option ptr :=
  match map_get (typesMap s) name with
  | Some t => Some t
  | None => map_get (builtInTypes s) name
  end.

(** A named type as its constructor leaves it. *)
Definition freshType (kind : NamedKind) (name : string) (schema : ptr) : Object :=
  NamedType (mkNamedTypeObj kind name (Some schema) [] [] [] []).

(** The objects [MutableSchema.empty()] leaves behind when it allocates
    from address [base] on: the schema, the five built-in scalars and the
    schema definition. *)
Definition emptySchemaObjects (base : ptr) : list Object :=
  [ Schema
      (mkSchemaObj true (Some (base + 6))
         [("Int", base + 1); ("Float", base + 2); ("String", base + 3);
          ("Boolean", base + 4); ("ID", base + 5)]
         [] []);
    freshType ScalarType "Int" base;
    freshType ScalarType "Float" base;
    freshType ScalarType "String" base;
    freshType ScalarType "Boolean" base;
    freshType ScalarType "ID" base;
    SchemaDefinition (mkSchemaDefinitionObj (Some base) [] []) ].

(** The structure of an empty schema. *)
Definition emptyShape : Shape :=
  Node "document"
    [ Node "schema" [Node "directives" []; Node "roots" []];
      Node "types" [];
      Node "directives" [] ].

Definition alreadyExists (name : string) : Error :=
  GraphQLError ("Type " ++ name ++ " already exists in this schema").

Definition isBuiltIn (name : string) : Error :=
  GraphQLError ("Cannot add scalar type of name " ++ name ++ " as it is a built-in type").

(** The members of a union, read on a heap. *)
Definition membersOf (h : Heap) (union : ptr) : list ptr :=
  match h !! union with
  | Some (NamedType u) => typesList u
  | _ => []
  end.

(** Two objects that link to the same parent, both schemas or neither:
    writing one over the other keeps every element attached where it was. *)
Definition sameLink (o o' : Object) : Prop :=
  BaseElement.parent o' = BaseElement.parent o
  /\ match o, o' with
     | Schema _, Schema _ => True
     | Schema _, _ | _, Schema _ => False
     | _, _ => True
     end.

(** The union [U] and the type [C] of the parsed [documentABC]. *)
Definition parsedUnion : M (ptr * ptr) :=
  let* doc := MutableSchema.parse documentABC in
  let* u := BaseSchema.type doc "U" in
  let* U := the u in
  let* c := BaseSchema.type doc "C" in
  let* C := the c in
  ret (U, C).

(** The type [A] of the parsed [documentABC]. *)
Definition parsedA : M (ptr * ptr) :=
  let* doc := MutableSchema.parse documentABC in
  let* a := BaseSchema.type doc "A" in
  let* A := the a in
  let* int := BaseSchema.type doc "Int" in
  let* Int := the int in
  ret (A, Int).

(** The definitions the builder has no support for: executable
    definitions, interfaces, enumerations and extensions. *)
Definition unsupported (definitionNode : DefinitionNode) : bool :=
  match definitionNode with
  | OperationDefinition | FragmentDefinition
  | InterfaceTypeDefinition _ _ | EnumTypeDefinition _ _
  | TypeSystemExtension => true
  | _ => false
  end.

(** [enum E] after a type the builder supports. *)
Definition documentWithEnum : DocumentNode :=
  [ ObjectTypeDefinition "A" [] [mkFieldNode "x" [] (NamedTypeNode "Int") []];
    EnumTypeDefinition "E" [] ].

End SchemaSpec.

(** ** Vocabulary of the statements about registered references *)

Module SymmetrySpec.
Import Ast Som SomSpec.

(** Whoever refers to a type is listed among the referencers of that
    type, the elements of [except] apart: those are under construction. *)
Definition symmetricExcept (except : list ptr) (h : Heap) : Prop :=
  forall X o T,
    h !! X = Some o -> X ∉ except -> T ∈ typesReferencedBy o -> X ∈ referencersOf h T.

Definition symmetric (h : Heap) : Prop := symmetricExcept [] h.

(** What an object keeps when the builder writes it again: its class, the
    type it declares and the referencers it lists. *)
Definition keeps (o o' : Object) : Prop :=
  match o, o' with
  | Schema _, Schema _ => True
  | SchemaDefinition _, SchemaDefinition _ => True
  | NamedType t, NamedType t' => forall x, x ∈ _referencers t -> x ∈ _referencers t'
  | FieldDefinition f, FieldDefinition f' => fd_type f' = fd_type f
  | InputFieldDefinition f, InputFieldDefinition f' => if_type f' = if_type f
  | ArgumentDefinition a, ArgumentDefinition a' => ad_type a' = ad_type a
  | DirectiveDefinition _, DirectiveDefinition _ => True
  | Directive _, Directive _ => True
  | _, _ => False
  end.

Definition grows (h h' : Heap) : Prop :=
  forall p o, h !! p = Some o -> exists o', h' !! p = Some o' /\ keeps o o'.

(** A computation that registers the references it creates. *)
Definition registers {A} (m : M A) : Prop :=
  forall h a h',
    m h = inr (a, h') ->
    grows h h' /\ forall except, symmetricExcept except h -> symmetricExcept except h'.

(** A computation that, besides, ends with [p] registered at the base of
    [type]. *)
Definition closes {A} (p : ptr) (type : option TypeRef) (m : M A) : Prop :=
  forall h a h',
    m h = inr (a, h') ->
    grows h h'
    /\ (forall except, symmetricExcept except h -> symmetricExcept except h')
    /\ forall T, T ∈ declaredBase type -> p ∈ referencersOf h' T.

(** The elements that refer to a type through the type they declare. *)
Definition declaresType (o : Object) : bool :=
  match o with
  | FieldDefinition _ | InputFieldDefinition _ | ArgumentDefinition _ => true
  | _ => false
  end.

End SymmetrySpec.

(** ** Removing elements from a mutable schema ([definitions.ts]) *)

Module Removal.
Import Ast Som.

(** [array.indexOf(x)], [None] standing for [-1]. *)
Fixpoint indexOf (l : list ptr) (x : ptr) : option nat :=
  match l with
  | [] => None
  | y :: r => if bool_decide (y = x) then Some 0 else option_map S (indexOf r x)
  end.

(** [map.delete(k)]. *)
Definition map_delete {K V} `{EqDecision K} (m : JsMap K V) (k : K) : JsMap K V :=
  List.filter (fun e => negb (bool_decide (fst e = k))) m.

(** Writing the array [_appliedDirectives] of an element; a schema and a
    directive application have none. *)
Definition with_appliedDirectives (o : Object) (l : list ptr) : option Object :=
  match o with
  | SchemaDefinition d =>
      Some (SchemaDefinition (mkSchemaDefinitionObj (sd_parent d) l (rootsMap d)))
  | NamedType t =>
      Some (NamedType
              (mkNamedTypeObj (nt_kind t) (nt_name t) (nt_parent t) l (_referencers t)
                 (fieldsMap t) (typesList t)))
  | FieldDefinition f =>
      Some (FieldDefinition
              (mkFieldDefinitionObj (fd_name f) (fd_parent f) (fd_type f) (fd_args f) l))
  | InputFieldDefinition f =>
      Some (InputFieldDefinition
              (mkInputFieldDefinitionObj (if_name f) (if_parent f) (if_type f) l))
  | ArgumentDefinition a =>
      Some (ArgumentDefinition
              (mkArgumentDefinitionObj (ad_name a) (ad_parent a) (ad_type a)
                 (ad_defaultValue a) l))
  | DirectiveDefinition d =>
      Some (DirectiveDefinition
              (mkDirectiveDefinitionObj (dd_name d) (dd_parent d) (dd_args d) l))
  | Schema _ | Directive _ => None
  end.

Definition with_nt_parent (t : NamedTypeObj) (parent : option ptr) : NamedTypeObj :=
  mkNamedTypeObj (nt_kind t) (nt_name t) parent (nt_appliedDirectives t) (_referencers t)
    (fieldsMap t) (typesList t).

(** [removeTypeDefinition]. *)
Definition removeTypeDefinition (namedType : ptr) (schema : ptr) : M unit :=
  let* t := derefNamedType namedType in
  let* s := derefSchema schema in
  store schema (Schema (with_typesMap s (map_delete (typesMap s) (nt_name t)))).

Module MutableDirective.

(** [remove]: the directive leaves the array of its parent by [splice]
    and loses its parent.  The message of the assertion prints the
    directive and its parent, which are left out here. *)
Definition remove (this : ptr) : M bool :=
  let* o := deref this in
  match o with
  | Directive d =>
      match dir_parent d with
      | None => ret false
      | Some _parent =>
          let* parent := deref _parent in
          let parentDirectives := BaseElement.appliedDirectives parent in
          match with_appliedDirectives parent parentDirectives with
          | None => throw (TypeError "this._parent.appliedDirectives is not a function")
          | Some _ =>
              match indexOf parentDirectives this with
              | None =>
                  throw (AssertionError
                           "Directive lists as parent, but that parent doesn't list it as applied directive")
              | Some index =>
                  store _parent
                    (default parent
                       (with_appliedDirectives parent (delete index parentDirectives))) ;;
                  store this (Directive (mkDirectiveObj (dir_name d) None (dir_args d))) ;;
                  ret true
              end
          end
      end
  | _ => throw (TypeError "not a directive")
  end.

End MutableDirective.

(** [for (const directive of this._appliedDirectives) directive.remove()]:
    the iterator reads the array that [remove] splices, position [index]
    of what the array holds by then.  The array never grows, so there are
    no more turns than it had elements, which the caller gives as [turns]
    with one to spare. *)
Fixpoint removeAppliedDirectives (turns : nat) (this : ptr) (index : nat) : M unit :=
  match turns with
  | O => ret tt
  | S turns' =>
      let* o := deref this in
      match BaseElement.appliedDirectives o !! index with
      | None => ret tt
      | Some directive =>
          MutableDirective.remove directive ;;
          removeAppliedDirectives turns' this (S index)
      end
  end.

(** The steps the [remove] methods of the named types share. *)
Definition detach (this : ptr) : M unit :=
  let* t := derefNamedType this in
  store this (NamedType (with_nt_parent t None)).

Definition removeDirectives (this : ptr) : M unit :=
  let* t := derefNamedType this in
  removeAppliedDirectives (S (length (nt_appliedDirectives t))) this 0.

(** [[... this._referencers].map(r => { BaseElement.prototype['removeTypeReference'].call(r, this); return r; })]
    followed by [this._referencers.clear()]: the method called is the one
    of [BaseElement], whose body is empty. *)
Definition clearReferencers (this : ptr) : M (list ptr) :=
  let* t := derefNamedType this in
  let toReturn := _referencers t in
  store this (NamedType (with_referencers t [])) ;;
  ret toReturn.

Module MutableScalarType.

Definition remove (this : ptr) : M (list ptr) :=
  let* t := derefNamedType this in
  match nt_parent t with
  | None => ret []
  | Some _parent =>
      removeTypeDefinition this _parent ;;
      detach this ;;
      removeDirectives this ;;
      clearReferencers this
  end.

End MutableScalarType.

Module MutableUnionType.

Definition remove (this : ptr) : M (list ptr) :=
  let* t := derefNamedType this in
  match nt_parent t with
  | None => ret []
  | Some _parent =>
      removeTypeDefinition this _parent ;;
      detach this ;;
      removeDirectives this ;;
      (let* u := derefNamedType this in
       store this (NamedType (with_typesList u []))) ;;
      clearReferencers this
  end.

End MutableUnionType.

End Removal.

(** ** Vocabulary of the statements about removal *)

Module RemovalSpec.
Import Ast Som SomSpec Removal.

(** The elements at the odd positions of a list, counting from zero. *)
Fixpoint odds {A} (l : list A) : list A :=
  match l with
  | _ :: b :: r => b :: odds r
  | _ => []
  end.

(** The elements at the even positions. *)
Fixpoint evens {A} (l : list A) : list A :=
  match l with
  | a :: r => a :: match r with _ :: r' => evens r' | [] => [] end
  | [] => []
  end.

Definition directivesOf (h : Heap) (element : ptr) : list ptr :=
  match h !! element with
  | Some o => BaseElement.appliedDirectives o
  | None => []
  end.

Definition parentOf (h : Heap) (element : ptr) : option ptr :=
  match h !! element with
  | Some o => BaseElement.parent o
  | None => None
  end.

(** The directive applications of a type are well linked: distinct objects,
    each a directive application whose parent is the type. *)
Definition wellLinked (h : Heap) (type : ptr) : Prop :=
  NoDup (directivesOf h type)
  /\ forall d, d ∈ directivesOf h type ->
               exists o, h !! d = Some (Directive o) /\ dir_parent o = Some type.

(** What a removal leaves of an object: its class and the types it refers
    to. *)
Definition sameReferences (o o' : Object) : Prop :=
  typesReferencedBy o' = typesReferencedBy o
  /\ match o, o' with
     | Schema _, Schema _ | SchemaDefinition _, SchemaDefinition _
     | NamedType _, NamedType _ | FieldDefinition _, FieldDefinition _
     | InputFieldDefinition _, InputFieldDefinition _
     | ArgumentDefinition _, ArgumentDefinition _
     | DirectiveDefinition _, DirectiveDefinition _ | Directive _, Directive _ => True
     | _, _ => False
     end.

(** The referencer set of a named type is what it was. *)
Definition sameReferencers (o o' : Object) : Prop :=
  match o, o' with
  | NamedType t, NamedType t' => _referencers t' = _referencers t
  | _, _ => True
  end.

Definition untouched (o o' : Object) : Prop :=
  sameReferences o o' /\ sameReferencers o o'.

(** A computation that leaves every reference of every element, and every
    referencer set, as it found them. *)
Definition spares {A} (m : M A) : Prop :=
  forall h a h',
    m h = inr (a, h') ->
    forall p o, h !! p = Some o -> exists o', h' !! p = Some o' /\ untouched o o'.

(** A named type with another array of applied directives. *)
Definition with_nt_appliedDirectives (t : NamedTypeObj) (l : list ptr) : NamedTypeObj :=
  mkNamedTypeObj (nt_kind t) (nt_name t) (nt_parent t) l (_referencers t)
    (fieldsMap t) (typesList t).

(** [scalar S @tag @tag(name: "b") @tag] and a type [A] with a field
    [s: S]. *)
Definition documentTagged : DocumentNode :=
  [ ScalarTypeDefinition "S" [tag []; tag [("name", StringValue "b")]; tag []];
    ObjectTypeDefinition "A" [] [mkFieldNode "s" [] (NamedTypeNode "S") []] ].

(** The scalar [S] and the field [A.s] of the parsed [documentTagged]. *)
Definition parsedTagged : M (ptr * ptr) :=
  let* doc := Som.MutableSchema.parse documentTagged in
  let* s := BaseSchema.type doc "S" in
  let* S := the s in
  let* a := BaseSchema.type doc "A" in
  let* A := the a in
  fun h => match lookupField h A "s" with
           | Some f => inr ((S, f), h)
           | None => inl (TypeError "undefined")
           end.

(** The union [U] of the parsed [documentABC] and its member [A]. *)
Definition parsedMember : M (ptr * ptr) :=
  let* doc := Som.MutableSchema.parse documentABC in
  let* u := BaseSchema.type doc "U" in
  let* U := the u in
  let* a := BaseSchema.type doc "A" in
  let* A := the a in
  ret (U, A).

End RemovalSpec.

(** * Properties *)

(** ** JavaScript helpers *)

Module JsFacts.
Import Js.

Lemma includes_In (l : list string) (x : string) :
  includes l x = true <-> In x l.
Proof.
  unfold includes. rewrite existsb_exists. split.
  - intros (y & Hy & E). apply String.eqb_eq in E. now subst.
  - intros H. exists x. split; [assumption | apply String.eqb_refl].
Qed.

Lemma ascii_compare_trans_gt (a b c : ascii) :
  Ascii.compare a b <> Gt -> Ascii.compare b c <> Gt ->
  Ascii.compare a c <> Gt.
Proof.
  unfold Ascii.compare. rewrite !N.compare_le_iff. lia.
Qed.

Lemma ascii_compare_eq (a b : ascii) : Ascii.compare a b = Eq -> a = b.
Proof. apply Ascii.compare_eq_iff. Qed.

Lemma ascii_compare_refl (a : ascii) : Ascii.compare a a = Eq.
Proof. unfold Ascii.compare. apply N.compare_refl. Qed.

Lemma compare_trans_gt (s1 : string) :
  forall s2 s3, String.compare s1 s2 <> Gt -> String.compare s2 s3 <> Gt ->
                String.compare s1 s3 <> Gt.
Proof.
  induction s1 as [|a s1 IH]; intros [|b s2] [|c s3]; simpl; try congruence.
  destruct (Ascii.compare a b) eqn:Eab; try congruence;
    destruct (Ascii.compare b c) eqn:Ebc; try congruence; intros H1 H2.
  - apply ascii_compare_eq in Eab, Ebc. subst.
    rewrite ascii_compare_refl. now apply (IH s2).
  - apply ascii_compare_eq in Eab. subst. now rewrite Ebc.
  - apply ascii_compare_eq in Ebc. subst. now rewrite Eab.
  - assert (Hac : Ascii.compare a c = Lt).
    { unfold Ascii.compare in *. rewrite N.compare_lt_iff in *. lia. }
    now rewrite Hac.
Qed.

Global Instance str_le_trans : Transitive str_le.
Proof.
  intros x y z Hxy Hyz. unfold str_le, String.leb in *.
  pose proof (compare_trans_gt x y z) as H.
  destruct (String.compare x y); try discriminate;
    destruct (String.compare y z); try discriminate;
    destruct (String.compare x z); try reflexivity; exfalso; apply H; congruence.
Qed.

Global Instance str_le_antisym : AntiSymm eq str_le.
Proof. intros x y. apply String.leb_antisym. Qed.

Global Instance str_le_total : Total str_le.
Proof. intros x y. apply String.leb_total. Qed.

Lemma sort_Permutation (l : list string) : Permutation (sort l) l.
Proof. apply merge_sort_Permutation. Qed.

(** The outcome of sorting depends on the multiset of strings only. *)
Lemma sort_eq_iff (l1 l2 : list string) :
  sort l1 = sort l2 <-> Permutation l1 l2.
Proof.
  split.
  - intros E. rewrite <- (sort_Permutation l1), E. apply sort_Permutation.
  - intros P. apply (Sorted_unique str_le).
    + apply Sorted_merge_sort, _.
    + apply Sorted_merge_sort, _.
    + unfold sort. now rewrite !merge_sort_Permutation.
Qed.

End JsFacts.

(** ** Scope algebra *)

Module ScopeFacts.
Import Ast GraphQL Scope ScopeSpec.

(** *** Directive lists *)

Section Printer.
Variable directiveToString : DirectiveNode -> string.

Lemma stringsEqualFrom_spec (n : nat) :
  forall i a b,
    stringsEqualFrom n i a b = true <->
    (forall j, i <= j < i + n -> a !! j = b !! j).
Proof.
  induction n as [|n IH]; intros i a b; simpl.
  - split; [intros _ j Hj; lia | reflexivity].
  - destruct (bool_decide (a !! i = b !! i)) eqn:E; simpl.
    + apply bool_decide_eq_true in E. rewrite IH. split.
      * intros H j Hj. destruct (decide (j = i)) as [->|Hne]; [assumption|].
        apply H. lia.
      * intros H j Hj. apply H. lia.
    + apply bool_decide_eq_false in E. split; [discriminate|].
      intros H. exfalso. apply E, H. lia.
Qed.

Lemma stringsEqualFrom_full (a b : list string) :
  length a = length b ->
  stringsEqualFrom (length a) 0 a b = true <-> a = b.
Proof.
  intros Hlen. rewrite stringsEqualFrom_spec. split.
  - intros H. apply list_eq. intros j.
    destruct (decide (j < length a)) as [Hj|Hj].
    + apply H. lia.
    + rewrite !lookup_ge_None_2; [reflexivity | lia | lia].
  - intros -> j _. reflexivity.
Qed.

Lemma directivesEquals_present (l1 l2 : list DirectiveNode) :
  directivesEquals directiveToString (Some l1) (Some l2) = true <->
  Permutation (List.map directiveToString l1) (List.map directiveToString l2).
Proof.
  unfold directivesEquals.
  destruct (Nat.eqb (length l1) (length l2)) eqn:El; simpl.
  - apply Nat.eqb_eq in El.
    assert (Hs : length (Js.sort (List.map directiveToString l1))
                 = length (Js.sort (List.map directiveToString l2))).
    { rewrite !(Permutation_length (JsFacts.sort_Permutation _)).
      rewrite !length_map. exact El. }
    assert (Hl : length l1 = length (Js.sort (List.map directiveToString l1))).
    { rewrite (Permutation_length (JsFacts.sort_Permutation _)).
      now rewrite length_map. }
    rewrite Hl, (stringsEqualFrom_full _ _ Hs).
    apply JsFacts.sort_eq_iff.
  - apply Nat.eqb_neq in El. split; [discriminate|].
    intros P. apply Permutation_length in P. rewrite !length_map in P. contradiction.
Qed.

End Printer.

(** C9, as stated, fails: [@a @b] and [@b @a] compare equal although
    they differ at both positions. *)
Lemma directivesEquals_not_elementwise :
  ~ (directivesEquals printStripped (Some [dirA; dirB]) (Some [dirB; dirA]) = true
     <-> elementwiseEqual [dirA; dirB] [dirB; dirA]).
Proof.
  intros [H _].
  assert (E : directivesEquals printStripped (Some [dirA; dirB]) (Some [dirB; dirA]) = true)
    by (vm_compute; reflexivity).
  specialize (H E). inversion H as [|? ? ? ? [Hn _] _]; subst.
  discriminate Hn.
Qed.

(** C9 (amended): two directive lists compare equal iff both are absent,
    or both are present and their printed forms are the same up to
    reordering, that is element-wise equal once sorted; a directive is
    compared through its printed text. *)
Theorem directivesEquals_iff (directiveToString : DirectiveNode -> string)
        (d1 d2 : option (list DirectiveNode)) :
  directivesEquals directiveToString d1 d2 = true <->
  match d1, d2 with
  | None, None => True
  | Some l1, Some l2 =>
      length l1 = length l2
      /\ Js.sort (List.map directiveToString l1) = Js.sort (List.map directiveToString l2)
  | _, _ => False
  end.
Proof.
  destruct d1 as [l1|], d2 as [l2|].
  - rewrite directivesEquals_present, JsFacts.sort_eq_iff. split.
    + intros P. split; [|assumption].
      apply Permutation_length in P. now rewrite !length_map in P.
    + intros [_ P]. exact P.
  - simpl. split; [discriminate | contradiction].
  - simpl. split; [discriminate | contradiction].
  - simpl. split; [trivial | reflexivity].
Qed.

(** *** Equality and hashing *)

(** C8: the scopes of [... on User @a @b] and [... on User @b @a] are
    equal for [equals] and have different hash codes. *)
Theorem equals_not_hash_congruent :
  equals printStripped scopeAB scopeBA = true
  /\ hashCode printStripped scopeAB = 32324842%Z
  /\ hashCode printStripped scopeBA = 32324872%Z
  /\ hashCode printStripped scopeAB <> hashCode printStripped scopeBA.
Proof. vm_compute. repeat split; try reflexivity. discriminate. Qed.

(** For want of the same directives in another order, [equals] does imply
    equal hash codes on scopes whose directive lists print alike position
    by position. *)
Lemma hashCode_same_printed (directiveToString : DirectiveNode -> string) (s1 s2 : Scope) :
  parentType s1 = parentType s2 ->
  option_map (List.map directiveToString) (directives s1)
  = option_map (List.map directiveToString) (directives s2) ->
  hashCode directiveToString s1 = hashCode directiveToString s2.
Proof.
  intros Hp Hd. unfold hashCode. rewrite Hp.
  destruct (directives s1) as [l1|], (directives s2) as [l2|]; simpl in Hd;
    try discriminate; [|reflexivity].
  injection Hd as Hd.
  replace (List.map (fun d => stringHash (directiveToString d)) l1)
    with (List.map stringHash (List.map directiveToString l1))
    by (rewrite List.map_map; reflexivity).
  replace (List.map (fun d => stringHash (directiveToString d)) l2)
    with (List.map stringHash (List.map directiveToString l2))
    by (rewrite List.map_map; reflexivity).
  now rewrite Hd.
Qed.

(** The earlier flat scope builds its identity key from the directives in
    list order, and cannot build it at all when a directive has arguments. *)
Example identityKey_order_sensitive :
  FlatScope.identityKey (FlatScope.new "User" ["User"] (Some [dirA; dirB]))
  = Some "User-User-a--b-"
  /\ FlatScope.identityKey (FlatScope.new "User" ["User"] (Some [dirB; dirA]))
     = Some "User-User-b--a-"
  /\ FlatScope.identityKey
       (FlatScope.new "User" ["User"]
          (Some [mkDirective "include" [("if", BooleanValue true)]]))
     = None.
Proof. vm_compute. repeat split. Qed.

End ScopeFacts.

Module RefineFacts.
Import Ast GraphQL Scope ScopeSpec.

Lemma find_name (l : list GraphQLNamedType) (name : string) (t : GraphQLNamedType) :
  List.find (fun t => String.eqb (t_name t) name) l = Some t ->
  In t l /\ t_name t = name.
Proof.
  intros H. apply find_some in H. destruct H as [Hin E].
  apply String.eqb_eq in E. auto.
Qed.

Lemma find_unique (l : list GraphQLNamedType) (t : GraphQLNamedType) :
  NoDup (List.map t_name l) -> In t l ->
  List.find (fun u => String.eqb (t_name u) (t_name t)) l = Some t.
Proof.
  induction l as [|u l IH]; simpl; intros Hnd Hin; [contradiction|].
  apply NoDup_cons in Hnd as [Hnotin Hnd'].
  destruct (String.eqb (t_name u) (t_name t)) eqn:E.
  - apply String.eqb_eq in E. destruct Hin as [->|Hin]; [reflexivity|].
    exfalso. apply Hnotin. rewrite E. apply list_elem_of_In.
    apply in_map. exact Hin.
  - destruct Hin as [->|Hin].
    + rewrite String.eqb_refl in E. discriminate.
    + apply IH; assumption.
Qed.

Section Valid.
Variable schema : GraphQLSchema.
Hypothesis valid : validSchema schema = true.

Lemma valid_unique : NoDup (List.map t_name (typeMap schema)).
Proof.
  unfold validSchema in valid. apply andb_true_iff in valid as [H _].
  apply andb_true_iff in H as [H _]. now apply bool_decide_eq_true in H.
Qed.

Lemma getType_In (t : GraphQLNamedType) :
  In t (typeMap schema) -> getType schema (t_name t) = Some t.
Proof. apply find_unique, valid_unique. Qed.

Lemma hasKind_getType (name : string) (k : TypeKind) :
  hasKind schema name k = true <->
  exists t, getType schema name = Some t /\ t_kind t = k.
Proof.
  unfold hasKind, kindOf. rewrite bool_decide_eq_true.
  destruct (getType schema name) as [t|]; simpl; split.
  - intros [= <-]. eauto.
  - intros (t' & [= <-] & <-). reflexivity.
  - discriminate.
  - intros (t' & [=] & _).
Qed.

Lemma implementationsOf_In (k : TypeKind) (iface name : string) :
  In name (implementationsOf schema k iface) <->
  exists t, getType schema name = Some t /\ t_kind t = k /\ In iface (t_interfaces t).
Proof.
  unfold implementationsOf. rewrite in_map_iff. split.
  - intros (t & <- & Hin). apply filter_In in Hin as [Hin Hc].
    apply andb_true_iff in Hc as [Hk Hi].
    apply bool_decide_eq_true in Hk. apply JsFacts.includes_In in Hi.
    exists t. auto using getType_In.
  - intros (t & Hg & Hk & Hi). apply find_name in Hg as [Hin <-].
    exists t. split; [reflexivity|]. apply filter_In. split; [assumption|].
    apply andb_true_iff. split.
    + now apply bool_decide_eq_true.
    + now apply JsFacts.includes_In.
Qed.

Lemma union_members_objects (t : GraphQLNamedType) (m : string) :
  In t (typeMap schema) -> t_kind t = UnionKind -> In m (t_unionTypes t) ->
  isObjectType schema m = true.
Proof.
  intros Hin Hk Hm. unfold validSchema in valid.
  apply andb_true_iff in valid as [H _]. apply andb_true_iff in H as [_ H].
  unfold unionsOfObjects in H. rewrite forallb_forall in H.
  specialize (H t Hin). apply orb_true_iff in H as [H|H].
  - apply negb_true_iff, bool_decide_eq_false in H. contradiction.
  - rewrite forallb_forall in H. now apply H.
Qed.

Lemma interfaces_inherited (o t2 : GraphQLNamedType) (i2 i1 : string) :
  In o (typeMap schema) -> t_kind o = ObjectKind -> In i2 (t_interfaces o) ->
  getType schema i2 = Some t2 -> In i1 (t_interfaces t2) ->
  In i1 (t_interfaces o).
Proof.
  intros Hin Hk Hi2 Hg Hi1. unfold validSchema in valid.
  apply andb_true_iff in valid as [_ H].
  unfold interfacesInherited in H. rewrite forallb_forall in H.
  specialize (H o Hin). apply orb_true_iff in H as [H|H].
  - apply negb_true_iff, bool_decide_eq_false in H. contradiction.
  - rewrite forallb_forall in H. specialize (H i2 Hi2). rewrite Hg in H.
    rewrite forallb_forall in H. apply JsFacts.includes_In. now apply H.
Qed.

Variable context : QueryPlanningContext.
Hypothesis context_schema : Scope.schema context = schema.

(** A sub-type has no more possible runtime types than its super-type. *)
Lemma subtype_possibleTypes (sub super : string) :
  isTypeSubTypeOf schema sub super = true ->
  incl (getPossibleTypes context sub) (getPossibleTypes context super).
Proof.
  unfold isTypeSubTypeOf. destruct (String.eqb sub super) eqn:E.
  { apply String.eqb_eq in E. subst. intros _. apply incl_refl. }
  intros H. apply andb_true_iff in H as [H Hsub].
  apply andb_true_iff in H as [Habs Hkind].
  unfold getPossibleTypes. rewrite context_schema, Habs.
  unfold isSubType in Hsub. unfold schemaPossibleTypes at 2.
  destruct (getType schema super) as [t|] eqn:Hg; [|discriminate].
  pose proof (find_name _ _ _ Hg) as [Htin Htname].
  destruct (bool_decide (t_kind t = UnionKind)) eqn:Hu.
  - (* the super-type is a union *)
    apply bool_decide_eq_true in Hu. apply JsFacts.includes_In in Hsub.
    pose proof (union_members_objects t sub Htin Hu Hsub) as Hobj.
    unfold isAbstractType, isInterfaceType, isUnionType.
    unfold isObjectType, hasKind in *.
    apply bool_decide_eq_true in Hobj. rewrite Hobj.
    rewrite !bool_decide_eq_false_2 by discriminate. simpl.
    intros x [<-|[]]. exact Hsub.
  - (* the super-type is an interface *)
    apply bool_decide_eq_false in Hu.
    apply JsFacts.includes_In, in_app_or in Hsub.
    apply orb_true_iff in Hkind as [Hi|Ho].
    + (* an interface below an interface *)
      apply hasKind_getType in Hi as (ts & Hgs & Hks).
      assert (Hsuper : In super (t_interfaces ts)).
      { destruct Hsub as [Hs|Hs]; apply implementationsOf_In in Hs
          as (ts' & Hgs' & Hks' & Hin'); rewrite Hgs in Hgs';
          injection Hgs' as <-; [congruence | exact Hin']. }
      unfold isAbstractType, isInterfaceType, isUnionType, hasKind, kindOf.
      rewrite Hgs. simpl. rewrite Hks.
      rewrite bool_decide_eq_true_2 by reflexivity. simpl.
      unfold schemaPossibleTypes. rewrite Hgs, Hks.
      rewrite bool_decide_eq_false_2 by discriminate.
      intros o Ho. apply implementationsOf_In in Ho as (to & Hgo & Hko & Hino).
      apply implementationsOf_In. exists to. repeat split; try assumption.
      pose proof (find_name _ _ _ Hgo) as [Hoin _].
      exact (interfaces_inherited to ts sub super Hoin Hko Hino Hgs Hsuper).
    + (* an object below an interface *)
      apply hasKind_getType in Ho as (ts & Hgs & Hks).
      unfold isAbstractType, isInterfaceType, isUnionType, hasKind, kindOf.
      rewrite Hgs. simpl. rewrite Hks.
      rewrite !bool_decide_eq_false_2 by discriminate. simpl.
      intros x [<-|[]].
      destruct Hsub as [Hs|Hs]; [exact Hs|].
      apply implementationsOf_In in Hs as (ts' & Hgs' & Hks' & _).
      rewrite Hgs in Hgs'. injection Hgs' as <-. congruence.
Qed.

Lemma Scope_chain_ind (P : Scope -> Prop) :
  (forall p d, P (mkScope p d None)) ->
  (forall p d n, P n -> P (mkScope p d (Some n))) ->
  forall s, P s.
Proof.
  intros H0 H1. fix F 1. intros [p d [n|]].
  - apply H1, F.
  - apply H0.
Qed.

Lemma intersectEnclosing_In (next : Scope) :
  forall possibleTypes x,
    In x (intersectEnclosing context next possibleTypes) <->
    In x possibleTypes
    /\ forall p, In p (chainTypes next) -> In x (getPossibleTypes context p).
Proof.
  induction next as [p d|p d n IH] using Scope_chain_ind; intros pts x; simpl.
  - rewrite filter_In, JsFacts.includes_In. split.
    + intros [H1 H2]. split; [assumption|]. intros q [<-|[]]. assumption.
    + intros [H1 H2]. split; [assumption|]. apply H2. now left.
  - rewrite IH, filter_In, JsFacts.includes_In. split.
    + intros [[H1 H2] H3]. split; [assumption|].
      intros q [<-|Hq]; [assumption | now apply H3].
    + intros [H1 H2]. repeat split; [assumption | apply H2; now left |].
      intros q Hq. apply H2. now right.
Qed.

Lemma possibleRuntimeTypes_In (s : Scope) (x : string) :
  In x (possibleRuntimeTypes context s) <->
  forall p, In p (chainTypes s) -> In x (getPossibleTypes context p).
Proof.
  unfold possibleRuntimeTypes, computePossibleRuntimeTypes.
  destruct s as [p d [n|]]; simpl.
  - rewrite intersectEnclosing_In. split.
    + intros [H1 H2] q [<-|Hq]; [assumption | now apply H2].
    + intros H. split; [apply H; now left|]. intros q Hq. apply H. now right.
  - split.
    + intros H q [<-|[]]. assumption.
    + intros H. apply H. now left.
Qed.

(** Pruning only drops links whose type the refining type is below. *)
Lemma pruneScope_keeps (T : string) (s : Scope) :
  forall p, In p (chainTypes s) ->
            In p (chainTypesOpt (pruneScope context s T))
            \/ isTypeSubTypeOf schema T p = true.
Proof.
  induction s as [p d|p d n IH] using Scope_chain_ind; intros q Hq; simpl in *.
  - destruct Hq as [<-|[]].
    rewrite context_schema.
    destruct (negb (bool_decide (is_Some d)) && isTypeSubTypeOf schema T p) eqn:E.
    + right. now apply andb_true_iff in E as [_ E].
    + left. simpl. now left.
  - rewrite context_schema.
    destruct (negb (bool_decide (is_Some d)) && isTypeSubTypeOf schema T p) eqn:E.
    + destruct Hq as [<-|Hq].
      * right. now apply andb_true_iff in E as [_ E].
      * now apply IH.
    + destruct Hq as [<-|Hq]; [left; simpl; now left|].
      destruct (IH q Hq) as [H|H]; [left | now right].
      simpl. right. exact H.
Qed.

Lemma refine_narrows_valid (s : Scope) (T : string)
      (dirs : option (list DirectiveNode)) :
  incl (possibleRuntimeTypes context (refine context s T dirs))
       (possibleRuntimeTypes context s).
Proof.
  intros x Hx. apply possibleRuntimeTypes_In. intros p Hp.
  unfold refine in Hx.
  assert (Hwith : forall ds,
             In x (possibleRuntimeTypes context (mkScope T (Some ds) (Some s))) ->
             In x (getPossibleTypes context p)).
  { intros ds H. rewrite possibleRuntimeTypes_In in H. apply H. simpl. now right. }
  assert (Hwithout :
            In x (possibleRuntimeTypes context
                    (if negb (isStrictlyRefinedBy context s T) then s
                     else mkScope T None (pruneRefinedTypes context (Some s) T))) ->
            In x (getPossibleTypes context p)).
  { destruct (negb (isStrictlyRefinedBy context s T)).
    - intros H. rewrite possibleRuntimeTypes_In in H. now apply H.
    - intros H. rewrite possibleRuntimeTypes_In in H.
      destruct (pruneScope_keeps T s p Hp) as [Hkept|Hsub].
      + apply H. simpl. right.
        unfold chainTypesOpt in Hkept.
        destruct (pruneScope context s T); [exact Hkept | contradiction].
      + apply (subtype_possibleTypes T p Hsub). apply H. simpl. now left. }
  destruct dirs as [[|d ds]|]; eauto.
Qed.

End Valid.

(** C7, as stated, fails: nothing in the scope algebra checks the schema,
    and over one that would not pass validation pruning the link of a
    super-type adds a runtime type.  [User] implements [Entity] but not
    [Node]: the scope of [Node] has no runtime type, its refinement by
    [Entity] has [User]. *)
Lemma refine_widens_unvalidated :
  validSchema unvalidatedSchema = false
  /\ isCompositeType unvalidatedSchema "Node" = true
  /\ isCompositeType unvalidatedSchema "Entity" = true
  /\ possibleRuntimeTypes unvalidatedContext (create "Node") = []
  /\ possibleRuntimeTypes unvalidatedContext
       (refine unvalidatedContext (create "Node") "Entity" None) = ["User"]
  /\ ~ incl (possibleRuntimeTypes unvalidatedContext
               (refine unvalidatedContext (create "Node") "Entity" None))
            (possibleRuntimeTypes unvalidatedContext (create "Node")).
Proof.
  repeat (split; [vm_compute; reflexivity|]).
  vm_compute. intros H. exact (H "User" (or_introl eq_refl)).
Qed.

(** C7 (amended): over a schema that passed validation (type names are
    unique, unions list object types only, an object type that implements
    an interface implements the interfaces of that interface), refining a
    scope, with or without directives and whether or not older links are
    pruned, never adds possible runtime types. *)
Theorem refine_possibleRuntimeTypes_subset (context : QueryPlanningContext)
        (s : Scope) (T : string) (dirs : option (list DirectiveNode)) :
  validSchema (Scope.schema context) = true ->
  incl (possibleRuntimeTypes context (refine context s T dirs))
       (possibleRuntimeTypes context s).
Proof.
  intros valid. now apply (refine_narrows_valid (Scope.schema context) valid).
Qed.

(** C7 (amended), run on a chain [Node] refined by [Entity]: the link for
    [Node] is pruned. *)
Lemma refine_possibleRuntimeTypes_subset_witness :
  refine exampleContext (create "Node") "Entity" None = mkScope "Entity" None None
  /\ incl (possibleRuntimeTypes exampleContext
             (refine exampleContext (create "Node") "Entity" None))
          (possibleRuntimeTypes exampleContext (create "Node")).
Proof.
  split; [reflexivity|].
  apply (refine_possibleRuntimeTypes_subset exampleContext (create "Node") "Entity" None).
  vm_compute. reflexivity.
Defined.

End RefineFacts.

(** ** Field collection *)

Module PlanningFacts.
Import Ast GraphQL Scope PlanningContext ScopeSpec.

(** C10: a field whose named return type is not composite provides
    nothing, whatever the service and whatever metadata it carries. *)
Theorem getProvidedFields_not_composite (context : QueryPlanningContext) (fuel : nat)
        (fieldDef : GraphQLField) (serviceName : string) :
  isCompositeType (Scope.schema context) (getNamedType (f_type fieldDef)) = false ->
  getProvidedFields context fuel fieldDef serviceName = Ok [].
Proof.
  intros H. unfold getProvidedFields. now rewrite H.
Qed.

(** C10, run on [User.name : String] carrying a [@provides]. *)
Lemma getProvidedFields_not_composite_witness :
  getProvidedFields exampleContext 0
    (mkField "name" (ListOf (NonNull (Named "String")))
       (Some (mkFieldMeta (Some "accounts") None (Some [Field "id" None []]))))
    "accounts" = Ok [].
Proof.
  apply getProvidedFields_not_composite. vm_compute. reflexivity.
Defined.

(** A composite return type does yield its key fields. *)
Example getProvidedFields_composite :
  exists typename id,
    getProvidedFields exampleContext 5 (mkField "friend" (Named "User") None) "accounts"
    = Ok [typename; id]
    /\ e_fieldNode typename = typenameField
    /\ e_fieldDef id = idField.
Proof. vm_compute. do 2 eexists. repeat split. Qed.

End PlanningFacts.

(** ** The shareable predicate *)

Module PrecomputeFacts.
Import Precompute PrecomputeSpec.

Lemma fold_left_grows {A : Type} (step : gset string -> A -> gset string)
      (P : A -> string -> Prop) :
  (forall acc a x, x ∈ step acc a <-> x ∈ acc \/ P a x) ->
  forall l acc x,
    x ∈ fold_left step l acc <-> x ∈ acc \/ exists a, In a l /\ P a x.
Proof.
  intros Hstep l. induction l as [|a l IH]; intros acc x; simpl.
  - split; [auto | intros [H|(a & [] & _)]; exact H].
  - rewrite IH, Hstep. split.
    + intros [[H|H]|(b & Hb & H)]; eauto.
    + intros [H|(b & [<-|Hb] & H)]; eauto.
Qed.

Section Collector.

Variable collectTargetFields : Schema -> string -> Directive -> list FieldDefinition.
Variable schema : Schema.
Variable metadata : FederationMetadata.

Lemma addAll_spec (found : list FieldDefinition) (fields : gset string) (x : string) :
  x ∈ addAll fields found <-> x ∈ fields \/ exists g, In g found /\ coordinate g = x.
Proof.
  unfold addAll.
  apply (fold_left_grows _ (fun g x => coordinate g = x)).
  intros acc a y. rewrite elem_of_union, elem_of_singleton. intuition congruence.
Qed.

Lemma addKeyFields_spec (type : NamedType) (fields : gset string) (x : string) :
  x ∈ addKeyFields collectTargetFields schema metadata fields type <->
  x ∈ fields
  \/ exists key g,
      In key (appliedDirectivesOf (t_appliedDirectives type) (keyDirective metadata))
      /\ In g (collectTargetFields schema (t_name type) key)
      /\ coordinate g = x.
Proof.
  unfold addKeyFields.
  rewrite (fold_left_grows _
             (fun key x => exists g, In g (collectTargetFields schema (t_name type) key)
                                     /\ coordinate g = x)).
  - split; intros [H|H]; auto; right.
    + destruct H as (key & Hk & g & Hg & E). eauto.
    + destruct H as (key & g & Hk & Hg & E). eauto.
  - intros acc key y. apply addAll_spec.
Qed.

Lemma provides_spec (field : FieldDefinition) (fields : gset string) (x : string) :
  x ∈ fold_left
        (fun fields provides =>
           fold_left
             (fun fields f =>
                if isFieldExternal metadata f then fields ∪ {[ coordinate f ]} else fields)
             (collectTargetFields schema (baseType (f_type field)) provides)
             fields)
        (appliedDirectivesOf (f_appliedDirectives field) (providesDirective metadata))
        fields
  <-> x ∈ fields
      \/ exists provides g,
          In provides
             (appliedDirectivesOf (f_appliedDirectives field) (providesDirective metadata))
          /\ In g (collectTargetFields schema (baseType (f_type field)) provides)
          /\ isFieldExternal metadata g = true
          /\ coordinate g = x.
Proof.
  rewrite (fold_left_grows _
             (fun provides x =>
                exists g, In g (collectTargetFields schema (baseType (f_type field)) provides)
                          /\ isFieldExternal metadata g = true /\ coordinate g = x)).
  - split; intros [H|H]; auto; right.
    + destruct H as (pr & Hp & g & Hg & He & E). eauto 6.
    + destruct H as (pr & g & Hp & Hg & He & E). eauto 6.
  - intros acc pr y.
    rewrite (fold_left_grows _
               (fun g x => isFieldExternal metadata g = true /\ coordinate g = x)).
    + reflexivity.
    + intros acc' g z. destruct (isFieldExternal metadata g).
      * rewrite elem_of_union, elem_of_singleton. intuition congruence.
      * intuition congruence.
Qed.

Lemma visitField_spec (directive : option string) (directivesOnType : list Directive)
      (field : FieldDefinition) (fields : gset string) (x : string) :
  x ∈ visitField collectTargetFields schema metadata directive true directivesOnType
        fields field
  <-> x ∈ fields
      \/ (coordinate field = x
          /\ ((exists d, directive = Some d
                         /\ hasAppliedDirective (f_appliedDirectives field) d = true)
              \/ exists d, In d directivesOnType
                           /\ f_ofExtension field = d_ofExtension d))
      \/ exists provides g,
          In provides
             (appliedDirectivesOf (f_appliedDirectives field) (providesDirective metadata))
          /\ In g (collectTargetFields schema (baseType (f_type field)) provides)
          /\ isFieldExternal metadata g = true
          /\ coordinate g = x.
Proof.
  unfold visitField. rewrite provides_spec.
  set (direct := match directive with
                 | Some d => hasAppliedDirective (f_appliedDirectives field) d
                 | None => false
                 end).
  set (onType := negb (Nat.eqb (length directivesOnType) 0)
                 && existsb (fun d => sameExtension (f_ofExtension field) (d_ofExtension d))
                      directivesOnType).
  assert (Hdirect : direct = true <->
                    exists d, directive = Some d
                              /\ hasAppliedDirective (f_appliedDirectives field) d = true).
  { subst direct. destruct directive as [d|].
    - split; [eauto | intros (d' & [= <-] & H); exact H].
    - split; [discriminate | intros (d' & [=] & _)]. }
  assert (HonType : onType = true <->
                    exists d, In d directivesOnType
                              /\ f_ofExtension field = d_ofExtension d).
  { subst onType. rewrite andb_true_iff, existsb_exists. split.
    - intros [_ (d & Hd & E)]. apply bool_decide_eq_true in E. eauto.
    - intros (d & Hd & E). split.
      + destruct directivesOnType; [contradiction | reflexivity].
      + exists d. split; [assumption | now apply bool_decide_eq_true]. }
  destruct (direct || onType) eqn:E.
  - rewrite elem_of_union, elem_of_singleton.
    apply orb_true_iff in E.
    assert (Hmark : (exists d, directive = Some d
                               /\ hasAppliedDirective (f_appliedDirectives field) d = true)
                    \/ exists d, In d directivesOnType
                                 /\ f_ofExtension field = d_ofExtension d)
      by (destruct E as [E|E]; [left; now apply Hdirect | right; now apply HonType]).
    split.
    + intros [[H|H]|H]; auto.
    + intros [H|[[H _]|H]]; auto.
  - apply orb_false_iff in E as [E1 E2].
    split.
    + intros [H|H]; auto.
    + intros [H|[[_ [H|H]]|H]]; auto.
      * apply Hdirect in H. congruence.
      * apply HonType in H. congruence.
Qed.

Lemma visitObjectType_spec (directive : option string) (type : NamedType)
      (fields : gset string) (x : string) :
  x ∈ visitObjectType collectTargetFields schema metadata directive true fields type
  <-> x ∈ fields
      \/ (exists key g,
             In key (appliedDirectivesOf (t_appliedDirectives type) (keyDirective metadata))
             /\ In g (collectTargetFields schema (t_name type) key)
             /\ coordinate g = x)
      \/ exists field,
          In field (t_fields type)
          /\ ((coordinate field = x
               /\ exists d, directive = Some d
                     /\ (hasAppliedDirective (f_appliedDirectives field) d = true
                         \/ exists a, In a (appliedDirectivesOf (t_appliedDirectives type) d)
                                      /\ f_ofExtension field = d_ofExtension a))
              \/ exists provides g,
                  In provides (appliedDirectivesOf (f_appliedDirectives field)
                                 (providesDirective metadata))
                  /\ In g (collectTargetFields schema (baseType (f_type field)) provides)
                  /\ isFieldExternal metadata g = true
                  /\ coordinate g = x).
Proof.
  unfold visitObjectType.
  set (directivesOnType := match directive with
                           | Some d => appliedDirectivesOf (t_appliedDirectives type) d
                           | None => []
                           end).
  rewrite (fold_left_grows _
             (fun field x =>
                (coordinate field = x
                 /\ ((exists d, directive = Some d
                                /\ hasAppliedDirective (f_appliedDirectives field) d = true)
                     \/ exists d, In d directivesOnType
                                  /\ f_ofExtension field = d_ofExtension d))
                \/ exists provides g,
                    In provides (appliedDirectivesOf (f_appliedDirectives field)
                                   (providesDirective metadata))
                    /\ In g (collectTargetFields schema (baseType (f_type field)) provides)
                    /\ isFieldExternal metadata g = true
                    /\ coordinate g = x))
    by (intros; apply visitField_spec).
  rewrite addKeyFields_spec.
  assert (Hmark : forall field,
             ((exists d, directive = Some d
                         /\ hasAppliedDirective (f_appliedDirectives field) d = true)
              \/ exists d, In d directivesOnType /\ f_ofExtension field = d_ofExtension d)
             <-> exists d, directive = Some d
                    /\ (hasAppliedDirective (f_appliedDirectives field) d = true
                        \/ exists a, In a (appliedDirectivesOf (t_appliedDirectives type) d)
                                     /\ f_ofExtension field = d_ofExtension a)).
  { intros field. subst directivesOnType. destruct directive as [d|].
    - split.
      + intros [(d' & [= <-] & H)|(a & Ha & E)]; exists d; eauto.
      + intros (d' & [= <-] & [H|(a & Ha & E)]); eauto.
    - split.
      + intros [(d' & [=] & _)|(a & [] & _)].
      + intros (d' & [=] & _). }
  split.
  - intros [[H|H]|(field & Hf & [[E H]|H])]; auto.
    + right. right. exists field. split; [assumption|]. left. split; [assumption|].
      now apply Hmark.
    + right. right. exists field. auto.
  - intros [H|[H|(field & Hf & [[E H]|H])]]; auto.
    + right. exists field. split; [assumption|]. left. split; [assumption|].
      now apply Hmark.
    + right. exists field. auto.
Qed.

Lemma collectedCoordinates_spec (directive : option string) (x : string) :
  x ∈ collectedCoordinates collectTargetFields schema metadata directive true
  <-> (exists T key g,
         (In T (types schema ObjectType) \/ In T (types schema InterfaceType))
         /\ In key (appliedDirectivesOf (t_appliedDirectives T) (keyDirective metadata))
         /\ In g (collectTargetFields schema (t_name T) key)
         /\ coordinate g = x)
      \/ exists T field,
          In T (types schema ObjectType) /\ In field (t_fields T)
          /\ ((coordinate field = x
               /\ exists d, directive = Some d
                     /\ (hasAppliedDirective (f_appliedDirectives field) d = true
                         \/ exists a, In a (appliedDirectivesOf (t_appliedDirectives T) d)
                                      /\ f_ofExtension field = d_ofExtension a))
              \/ exists provides g,
                  In provides (appliedDirectivesOf (f_appliedDirectives field)
                                 (providesDirective metadata))
                  /\ In g (collectTargetFields schema (baseType (f_type field)) provides)
                  /\ isFieldExternal metadata g = true
                  /\ coordinate g = x).
Proof.
  unfold collectedCoordinates.
  rewrite (fold_left_grows _
             (fun T x => exists key g,
                  In key (appliedDirectivesOf (t_appliedDirectives T) (keyDirective metadata))
                  /\ In g (collectTargetFields schema (t_name T) key)
                  /\ coordinate g = x))
    by (intros; apply addKeyFields_spec).
  rewrite (fold_left_grows _
             (fun T x =>
                (exists key g,
                    In key (appliedDirectivesOf (t_appliedDirectives T) (keyDirective metadata))
                    /\ In g (collectTargetFields schema (t_name T) key)
                    /\ coordinate g = x)
                \/ exists field,
                    In field (t_fields T)
                    /\ ((coordinate field = x
                         /\ exists d, directive = Some d
                               /\ (hasAppliedDirective (f_appliedDirectives field) d = true
                                   \/ exists a,
                                       In a (appliedDirectivesOf (t_appliedDirectives T) d)
                                       /\ f_ofExtension field = d_ofExtension a))
                        \/ exists provides g,
                            In provides (appliedDirectivesOf (f_appliedDirectives field)
                                           (providesDirective metadata))
                            /\ In g (collectTargetFields schema (baseType (f_type field))
                                       provides)
                            /\ isFieldExternal metadata g = true
                            /\ coordinate g = x)))
    by (intros; apply visitObjectType_spec).
  rewrite elem_of_empty. split.
  - intros [[[]|(T & HT & [(key & g & H)|(field & Hf & H)])]|(T & HT & key & g & H)].
    + left. exists T, key, g. auto.
    + right. exists T, field. auto.
    + left. exists T, key, g. auto.
  - intros [(T & key & g & [HT|HT] & H)|(T & field & HT & Hf & H)].
    + left. right. exists T. split; [assumption|]. left. eauto.
    + right. exists T. split; [assumption|]. eauto.
    + left. right. exists T. split; [assumption|]. right. eauto.
Qed.

End Collector.

(** C6 (amended): a field coordinate is shareable iff some field with that
    coordinate (a) carries [@shareable] itself or (b) shares its extension
    with a [@shareable] on its parent type, in both cases as a field of an
    object type of a federation 2 schema; or (c) is selected by a [@key] of
    an object or interface type; or (d) is external and selected by a
    [@provides] found on a field of any object type, read against the type
    that field returns. *)
Theorem computeShareables_spec
        (collectTargetFields : Schema -> string -> Directive -> list FieldDefinition)
        (schema : Schema) (metadata : FederationMetadata)
        (isShareable : FieldDefinition -> bool) (f : FieldDefinition) :
  federationMetadata schema = Some metadata ->
  computeShareables collectTargetFields schema = Some isShareable ->
  isShareable f = true <->
  markedShareable schema metadata f
  \/ keyField collectTargetFields schema metadata f
  \/ providedExternal collectTargetFields schema metadata f.
Proof.
  intros Hm Hc. unfold computeShareables, computeAllFieldsWithDirective in Hc.
  rewrite Hm in Hc. injection Hc as <-.
  rewrite bool_decide_eq_true, collectedCoordinates_spec.
  unfold fed2Directive. rewrite Hm.
  unfold markedShareable, keyField, providedExternal. split.
  - intros [H|(T & field & HT & Hf & [[E (d & Hd & H)]|(pr & g & H)])].
    + right. left. exact H.
    + left. destruct (isFed2Schema metadata); [|discriminate].
      injection Hd as <-. split; [reflexivity|]. exists T, field. auto.
    + right. right. exists T, field, pr, g. tauto.
  - intros [[Hfed (T & g & HT & Hg & E & H)]|[H|(T & p & pr & g & HT & Hp & H)]].
    + right. exists T, g. split; [assumption|]. split; [assumption|]. left.
      split; [assumption|]. rewrite Hfed. eauto.
    + left. exact H.
    + right. exists T, p. split; [assumption|]. split; [assumption|]. right.
      exists pr, g. tauto.
Qed.

(** C6, as stated, fails: in the second subgraph of the test "override
    field in a @provides", [B.v] is shareable because [T.a] provides it,
    and no field of [B] carries a [@provides]. *)
Lemma shareable_not_as_claimed :
  exists isShareable,
    computeShareables collectSelectedFields subgraph2 = Some isShareable
    /\ isShareable field_B_v = true
    /\ ~ claimedShareable collectSelectedFields subgraph2 subgraph2Metadata field_B_v.
Proof.
  eexists. split; [reflexivity|]. split; [vm_compute; reflexivity|].
  intros [H|[H|[H|H]]].
  - vm_compute in H. discriminate.
  - destruct H as (T & d & HT & Hn & Hd & _).
    simpl in HT. destruct HT as [<-|[<-|[<-|[]]]]; simpl in Hd; try contradiction;
      discriminate Hn.
  - destruct H as (T & key & g & HT & Hk & Hg & E).
    assert (HT' : In T (allTypes subgraph2)).
    { destruct HT as [HT|HT]; apply filter_In in HT; tauto. }
    simpl in HT'.
    destruct HT' as [<-|[<-|[<-|[]]]]; simpl in Hk;
      destruct Hk as [<-|[]]; vm_compute in Hg;
      destruct Hg as [<-|[]]; discriminate E.
  - destruct H as (T & p & pr & g & HT & Hn & Hp & Hpr & _).
    simpl in HT. destruct HT as [<-|[<-|[<-|[]]]]; try discriminate Hn.
    simpl in Hp. destruct Hp as [<-|[<-|[]]]; simpl in Hpr; contradiction.
Qed.

(** C6 (amended), run on that subgraph and [B.v]. *)
Lemma computeShareables_spec_witness :
  exists isShareable,
    computeShareables collectSelectedFields subgraph2 = Some isShareable
    /\ (isShareable field_B_v = true <->
        markedShareable subgraph2 subgraph2Metadata field_B_v
        \/ keyField collectSelectedFields subgraph2 subgraph2Metadata field_B_v
        \/ providedExternal collectSelectedFields subgraph2 subgraph2Metadata field_B_v).
Proof.
  eexists. split; [reflexivity|].
  apply (computeShareables_spec collectSelectedFields subgraph2 subgraph2Metadata);
    reflexivity.
Defined.

End PrecomputeFacts.

(** ** Schema object model *)

Module SomFacts.
Import Ast Som SomSpec.

(** *** Referencers *)

(** Parsing registers every reference it creates. *)
Example parse_keeps_referencer_symmetry :
  exists doc f B C h,
    run parsedABC = inr ((doc, f, B, C), h)
    /\ referencedType h f = Some B
    /\ (f ∈ referencersOf h B)
    /\ referencerSymmetry h doc = true.
Proof.
  vm_compute. do 5 eexists. repeat split. apply list_elem_of_In; simpl; auto.
Qed.

(** So does copying. *)
Example copy_keeps_referencer_symmetry :
  exists copied h,
    run (let* r := parsedABC in MutableSchema.toImmutable (fst (fst (fst r)))) = inr (copied, h)
    /\ referencerSymmetry h copied = true.
Proof. vm_compute. do 2 eexists. split; reflexivity. Qed.

(** C1: after [addField] on a mutable object type the new field refers to
    its type, and the type does not list the field among its referencers. *)
Theorem addField_breaks_referencer_symmetry :
  exists doc Int f h,
    run addFieldScenario = inr ((doc, Int, f), h)
    /\ attachedTo h doc f = true
    /\ referencedType h f = Some Int
    /\ (f ∉ referencersOf h Int)
    /\ referencerSymmetry h doc = false.
Proof.
  vm_compute. do 4 eexists. repeat split. apply not_elem_of_nil.
Qed.

(** The other setters of the mutable interface behave alike. *)
Example setRoot_breaks_referencer_symmetry :
  exists doc definition Q h,
    run setRootScenario = inr ((doc, definition, Q), h)
    /\ typesReferencedBy (default (Schema (mkSchemaObj true None [] [] [])) (h !! definition))
       = [Q]
    /\ (definition ∉ referencersOf h Q)
    /\ referencerSymmetry h doc = false.
Proof.
  vm_compute. do 4 eexists. repeat split. apply not_elem_of_nil.
Qed.

Example unionAddType_breaks_referencer_symmetry :
  exists doc U C h,
    run unionAddTypeScenario = inr ((doc, U, C), h)
    /\ (U ∉ referencersOf h C)
    /\ referencerSymmetry h doc = false.
Proof.
  vm_compute. do 4 eexists. repeat split. apply not_elem_of_nil.
Qed.

(** Whatever the heap, [addField] leaves every referencer set as it was:
    the field it returns, a fresh object, is registered nowhere. *)
Lemma addField_referencers_unchanged (this : ptr) (name : string) (type : TypeRef)
      (h h' : Heap) (f : ptr) :
  MutableObjectType.addField this name type h = inr (f, h') ->
  f = length h
  /\ typeOfField h' f = Some type
  /\ forall T, referencersOf h' T = referencersOf h T.
Proof.
  unfold MutableObjectType.addField, bind, derefNamedType, deref, bind.
  destruct (h !! this) as [o|] eqn:Hthis; [|discriminate].
  destruct o as [| |t| | | | |]; try discriminate. simpl.
  destruct (map_get (fieldsMap t) name); [discriminate|].
  destruct (schemaOfType type h) as [e|[typeSide h0]] eqn:Hs; [discriminate|].
  assert (h0 = h) as ->.
  { unfold schemaOfType, ListType.schema, BaseElement.schema in Hs.
    destruct type; [now injection Hs|].
    destruct (ListType.baseType _); [now injection Hs | discriminate]. }
  unfold BaseElement.schema.
  destruct (negb (bool_decide (typeSide = BaseElement.schemaFrom (length h) h this)));
    [destruct (typeToString type h) as [e|[printed h1]]; discriminate|].
  unfold Ctors.createFieldDefinition, alloc, store, ret.
  assert (Hlt : this < length h) by (eapply lookup_lt_Some; eassumption).
  rewrite lookup_app_l by exact Hlt. rewrite Hthis. simpl.
  intros [= <- <-]. split; [reflexivity|]. split.
  - unfold typeOfField.
    rewrite list_lookup_insert_ne by lia.
    rewrite lookup_app_r by lia. now rewrite Nat.sub_diag.
  - intros T. unfold referencersOf.
    destruct (decide (T = this)) as [->|Hne].
    + rewrite list_lookup_insert_eq by (rewrite length_app; simpl; lia).
      now rewrite Hthis.
    + rewrite list_lookup_insert_ne by congruence.
      destruct (decide (T < length h)) as [Hl|Hl].
      * now rewrite lookup_app_l by exact Hl.
      * rewrite lookup_app_r by lia. rewrite (lookup_ge_None_2 h T) by lia.
        destruct (T - length h) as [|n]; reflexivity.
Qed.

(** *** [setType] *)

Lemma referencersOf_store_field (h : Heap) (p : ptr) (f f' : FieldDefinitionObj) (T : ptr) :
  h !! p = Some (FieldDefinition f) ->
  referencersOf (<[p := FieldDefinition f']> h) T = referencersOf h T.
Proof.
  intros Hp. unfold referencersOf.
  destruct (decide (T = p)) as [->|Hne].
  - rewrite list_lookup_insert_eq by (eapply lookup_lt_Some; eassumption).
    now rewrite Hp.
  - now rewrite list_lookup_insert_ne by congruence.
Qed.

Lemma schemaOfType_base (type : TypeRef) (base : ptr) (h : Heap) :
  ListType.baseType type = Some base ->
  schemaOfType type h = inr (BaseElement.schemaFrom (length h) h base, h).
Proof.
  intros Hbase. unfold schemaOfType. destruct type as [p|inner].
  - simpl in Hbase. injection Hbase as <-. reflexivity.
  - unfold ListType.schema. now rewrite Hbase.
Qed.

Lemma schemaOfType_undefined (type : TypeRef) (h : Heap) :
  ListType.baseType type = None -> exists e, schemaOfType type h = inl e.
Proof.
  intros Hbase. unfold schemaOfType. destruct type as [p|inner].
  - discriminate.
  - unfold ListType.schema. rewrite Hbase. eexists. reflexivity.
Qed.

(** Printing a type whose base is a named type of the heap. *)
Lemma typeToString_runs (type : TypeRef) (base : ptr) (t : NamedTypeObj) (h : Heap) :
  ListType.baseType type = Some base ->
  h !! base = Some (NamedType t) ->
  exists printed, typeToString type h = inr (printed, h).
Proof.
  intros Hbase Ht. revert type Hbase. fix IH 1. intros [p|[inner|]]; simpl.
  - intros [= ->]. cbv [bind derefNamedType deref ret]. rewrite Ht. eauto.
  - intros Hbase. destruct (IH inner Hbase) as [printed Hp].
    unfold bind. rewrite Hp. simpl. eauto.
  - discriminate.
Qed.

(** [setType] throws on a detached field. *)
Lemma setType_detached (this : ptr) (type : TypeRef) (h : Heap) (f : FieldDefinitionObj) :
  h !! this = Some (FieldDefinition f) ->
  BaseElement.schemaFrom (length h) h this = None ->
  MutableFieldDefinition.setType this type h
  = inl (GraphQLError ("Cannot set the type of field " ++ fd_name f ++ " as it is detached")).
Proof.
  intros Hf H. unfold MutableFieldDefinition.setType, bind, deref, BaseElement.schema.
  now rewrite Hf, H.
Qed.

(** [setType] throws when the type is attached to another schema, or to
    none. *)
Lemma setType_foreign (this : ptr) (type : TypeRef) (base : ptr) (h : Heap) (s : ptr)
      (f : FieldDefinitionObj) (t : NamedTypeObj) :
  h !! this = Some (FieldDefinition f) ->
  BaseElement.schemaFrom (length h) h this = Some s ->
  ListType.baseType type = Some base ->
  h !! base = Some (NamedType t) ->
  BaseElement.schemaFrom (length h) h base <> Some s ->
  exists provided,
    typeToString type h = inr (provided, h)
    /\ MutableFieldDefinition.setType this type h
       = inl (GraphQLError
                ("Cannot set provided type " ++ provided ++ " to field " ++ fd_name f
                   ++ " as it is not attached to this schema (it is "
                   ++ attachement (BaseElement.schemaFrom (length h) h base) ++ ")")).
Proof.
  intros Hf Hthis Hbase Ht Hne.
  destruct (typeToString_runs type base t h Hbase Ht) as [provided Hp].
  exists provided. split; [exact Hp|].
  unfold MutableFieldDefinition.setType, bind, deref, BaseElement.schema.
  rewrite Hf, Hthis, (schemaOfType_base type base h Hbase).
  rewrite bool_decide_eq_false_2 by exact Hne. simpl. now rewrite Hp.
Qed.

(** When [setType] returns, the field holds the new type, it and the type
    are attached to one schema, and every referencer set is as before. *)
Lemma setType_success (this : ptr) (type : TypeRef) (h h' : Heap) (r : ptr) :
  MutableFieldDefinition.setType this type h = inr (r, h') ->
  r = this
  /\ typeOfField h' this = Some type
  /\ (exists s base, BaseElement.schemaFrom (length h) h this = Some s
                     /\ ListType.baseType type = Some base
                     /\ BaseElement.schemaFrom (length h) h base = Some s)
  /\ forall T, referencersOf h' T = referencersOf h T.
Proof.
  unfold MutableFieldDefinition.setType, bind, deref, BaseElement.schema.
  destruct (h !! this) as [o|] eqn:Hp; [|discriminate].
  destruct o as [| | |f| | | |]; try discriminate.
  destruct (BaseElement.schemaFrom (length h) h this) as [s|] eqn:Hthis; [|discriminate].
  destruct (ListType.baseType type) as [base|] eqn:Hbase.
  2:{ destruct (schemaOfType_undefined type h Hbase) as [e ->]. discriminate. }
  rewrite (schemaOfType_base type base h Hbase).
  destruct (bool_decide (BaseElement.schemaFrom (length h) h base = Some s)) eqn:Hs.
  2:{ simpl. destruct (typeToString type h) as [e|[printed h1]]; discriminate. }
  apply bool_decide_eq_true in Hs. simpl.
  unfold store, ret. intros [= <- <-]. split; [reflexivity|]. split.
  - unfold typeOfField.
    rewrite list_lookup_insert_eq by (eapply lookup_lt_Some; eassumption).
    reflexivity.
  - split; [eauto|]. intros T. eapply referencersOf_store_field. eassumption.
Qed.

(** C5: on the parsed document, [A.f.setType(C)] succeeds and installs [C],
    and the referencer set of the old type [B] still lists the field (the
    set of [C] does not). *)
Theorem setType_keeps_old_referencer :
  exists doc f B C h h',
    run parsedABC = inr ((doc, f, B, C), h)
    /\ referencedType h f = Some B
    /\ (f ∈ referencersOf h B)
    /\ MutableFieldDefinition.setType f (NamedRef C) h = inr (f, h')
    /\ typeOfField h' f = Some (NamedRef C)
    /\ (f ∈ referencersOf h' B)
    /\ (f ∉ referencersOf h' C).
Proof.
  vm_compute. do 6 eexists. repeat split.
  - apply list_elem_of_In; simpl; auto.
  - apply list_elem_of_In; simpl; auto.
  - apply not_elem_of_nil.
Qed.

(** *** Copies *)

(** With a schema definition in the document, both round trips give back
    the structure they started from. *)
Example round_trip_with_schema_definition :
  (exists x y z h,
      run (roundTripFromMutable documentRich) = inr ((x, y, z), h)
      /\ describe h z = describe h x /\ describe h y = describe h x)
  /\ (exists x y z h,
         run (roundTripFromImmutable documentRich) = inr ((x, y, z), h)
         /\ describe h z = describe h x /\ describe h y = describe h x).
Proof. vm_compute. split; do 4 eexists; repeat split. Qed.

(** C2: a schema parsed from a document without a schema definition cannot
    be converted, in either direction. *)
Theorem copy_fails_without_schema_definition :
  (exists s h, run (ImmutableSchema.parse documentA) = inr (s, h))
  /\ run (let* s := ImmutableSchema.parse documentA in ImmutableSchema.toMutable s)
     = inl (AssertionError "Badly constructed schema; doesn't have a schema definition")
  /\ (exists s h, run (MutableSchema.parse documentA) = inr (s, h))
  /\ run (let* s := MutableSchema.parse documentA in MutableSchema.toImmutable s)
     = inl (AssertionError "Badly constructed schema; doesn't have a schema definition").
Proof. vm_compute. repeat split; eauto. Qed.

End SomFacts.

(** *** Schemas without a schema definition *)

Module SomFrame.
Import Ast Som SomSpec.

Lemma extends_refl (h : Heap) : extends h h.
Proof. intros p o H. eauto. Qed.

Lemma extends_trans (h1 h2 h3 : Heap) : extends h1 h2 -> extends h2 h3 -> extends h1 h3.
Proof.
  intros H12 H23 p o H. destruct (H12 p o H) as (o2 & H2 & E2).
  destruct (H23 p o2 H2) as (o3 & H3 & E3). exists o3. split; congruence.
Qed.

Lemma extends_app (h : Heap) (l : list Object) : extends h (h ++ l).
Proof.
  intros p o H. exists o. split; [|reflexivity].
  rewrite lookup_app_l; [assumption | eapply lookup_lt_Some; eassumption].
Qed.

Lemma extends_insert (h : Heap) (p : ptr) (o o' : Object) :
  h !! p = Some o -> definitionSlot o' = definitionSlot o -> extends h (<[p := o']> h).
Proof.
  intros Hp E q oq Hq. destruct (decide (q = p)) as [->|Hne].
  - exists o'. rewrite list_lookup_insert_eq by (eapply lookup_lt_Some; eassumption).
    split; congruence.
  - exists oq. now rewrite list_lookup_insert_ne by congruence.
Qed.

Lemma stable_ret {A} (a : A) : stable (ret a).
Proof. intros h a' h' [= <- <-]. apply extends_refl. Qed.

Lemma stable_throw {A} (e : Error) : stable (@throw A e).
Proof. intros h a h' [=]. Qed.

Lemma stable_alloc (o : Object) : stable (alloc o).
Proof. intros h a h' [= <- <-]. apply extends_app. Qed.

Lemma stable_deref (p : ptr) : stable (deref p).
Proof.
  intros h a h'. unfold deref. destruct (h !! p); [|discriminate].
  intros [= <- <-]. apply extends_refl.
Qed.

Lemma stable_bind {A B} (m : M A) (k : A -> M B) :
  stable m -> (forall a, stable (k a)) -> stable (bind m k).
Proof.
  intros Hm Hk h b h'. unfold bind. destruct (m h) as [e|[a h1]] eqn:E; [discriminate|].
  intros H. eapply extends_trans; [eapply Hm | eapply Hk]; eassumption.
Qed.

Lemma stable_forEach {A} (l : list A) (body : A -> M unit) :
  (forall a, stable (body a)) -> stable (forEach l body).
Proof.
  intros Hb. induction l as [|a l IH]; simpl.
  - apply stable_ret.
  - apply stable_bind; auto.
Qed.

Lemma stable_schema (p : ptr) : stable (BaseElement.schema p).
Proof. intros h a h' [= <- <-]. apply extends_refl. Qed.

Create HintDb stable.
#[local] Hint Resolve stable_ret stable_throw stable_alloc stable_deref
  stable_schema : stable.

(** Composite computations, from their parts. *)
Ltac stable_step :=
  first
    [ solve [auto with stable]
    | apply stable_bind; [|intros ?]
    | apply stable_forEach; intros ?
    | match goal with
      | |- stable (match ?x with _ => _ end) => destruct x
      | |- stable (if ?x then _ else _) => destruct x
      | |- stable (let _ := _ in _) => cbv zeta
      end ].

Ltac stable_parts := repeat stable_step.

(** Computations that read an object and write it back changed. *)
Ltac innermost_case H :=
  match type of H with
  | context [match ?x with _ => _ end] =>
      lazymatch x with
      | context [match _ with _ => _ end] => fail
      | _ => destruct x eqn:?; simpl in H; try discriminate H
      end
  end.

Ltac stable_write :=
  let h := fresh "h" in
  let a := fresh "a" in
  let h' := fresh "h'" in
  let H := fresh "H" in
  intros h a h' H;
  cbv [bind deref store ret throw derefNamedType derefSchema argumentName fieldName] in H;
  repeat innermost_case H;
  injection H as <- <-;
  repeat (eapply extends_trans;
          [|eapply extends_insert; [eassumption | reflexivity]]);
  apply extends_refl.

Lemma stable_derefNamedType (p : ptr) : stable (derefNamedType p).
Proof. unfold derefNamedType. stable_parts. Qed.

Lemma stable_derefSchema (p : ptr) : stable (derefSchema p).
Proof. unfold derefSchema. stable_parts. Qed.

#[local] Hint Resolve stable_derefNamedType stable_derefSchema : stable.

Lemma stable_type (schema : ptr) (name : string) : stable (BaseSchema.type schema name).
Proof. unfold BaseSchema.type. stable_parts. Qed.

Lemma stable_typeIn (schema : option ptr) (name : string) : stable (typeIn schema name).
Proof. unfold typeIn. destruct schema; auto using stable_type with stable. Qed.

Lemma stable_addAppliedDirective (this directive : ptr) :
  stable (BaseElement.addAppliedDirective this directive).
Proof.
  unfold BaseElement.addAppliedDirective, BaseElement.pushAppliedDirective.
  intros h a h' H.
  cbv [bind deref store ret throw] in H.
  destruct (h !! this) as [o|] eqn:E; [|discriminate].
  destruct o; try discriminate; injection H as <- <-;
    (eapply extends_insert; [eassumption | reflexivity]).
Qed.

Lemma stable_addReferencer (this referencer : ptr) :
  stable (BaseNamedType.addReferencer this referencer).
Proof. unfold BaseNamedType.addReferencer. stable_write. Qed.

#[local] Hint Resolve stable_type stable_typeIn stable_addAppliedDirective
  stable_addReferencer : stable.

Lemma stable_addReferencerToType (referencer : ptr) (type : option TypeRef) :
  stable (addReferencerToType referencer type).
Proof. unfold addReferencerToType. stable_parts. Qed.

Lemma stable_addTypeDefinition (namedType schema : ptr) :
  stable (addTypeDefinition namedType schema).
Proof. unfold addTypeDefinition. stable_write. Qed.

Lemma stable_addDirectiveDefinition (definition schema : ptr) :
  stable (addDirectiveDefinition definition schema).
Proof. unfold addDirectiveDefinition. stable_write. Qed.

Lemma stable_addFieldArg (arg field : ptr) : stable (addFieldArg arg field).
Proof. unfold addFieldArg. stable_write. Qed.

Lemma stable_addDirectiveArg (arg directive : ptr) : stable (addDirectiveArg arg directive).
Proof. unfold addDirectiveArg. stable_write. Qed.

Lemma stable_addField (field objectType : ptr) : stable (addField field objectType).
Proof. unfold addField. stable_write. Qed.

Lemma stable_addTypeToUnion (typeName : string) (unionType : ptr) :
  stable (addTypeToUnion typeName unionType).
Proof.
  intros h a h' H.
  cbv [addTypeToUnion bind deref store ret throw derefNamedType derefSchema
       BaseElement.schema typeIn BaseSchema.type addReferencerToType
       BaseNamedType.addReferencer ListType.baseType] in H.
  repeat innermost_case H;
    injection H as <- <-;
    repeat (eapply extends_trans;
            [|eapply extends_insert; [eassumption | reflexivity]]);
    apply extends_refl.
Qed.

#[local] Hint Resolve stable_addReferencerToType stable_addTypeDefinition
  stable_addDirectiveDefinition stable_addFieldArg stable_addDirectiveArg
  stable_addField stable_addTypeToUnion : stable.

Lemma stable_setBuiltIn (this : ptr) (name : string) (type : ptr) :
  stable (BaseSchema.setBuiltIn this name type).
Proof. unfold BaseSchema.setBuiltIn. stable_write. Qed.

Lemma stable_forEach_In {A} (l : list A) (body : A -> M unit) :
  (forall a, In a l -> stable (body a)) -> stable (forEach l body).
Proof.
  induction l as [|a l IH]; simpl; intros Hb.
  - apply stable_ret.
  - apply stable_bind; [apply Hb; now left|].
    intros _. apply IH. intros b Hin. apply Hb. now right.
Qed.

Lemma undefined_extends (doc : ptr) (h h' : Heap) :
  extends h h' -> definitionUndefined doc h -> definitionUndefined doc h'.
Proof.
  intros He (so & Hd & Hn). destruct (He doc _ Hd) as (o' & Ho' & E).
  destruct o' as [so'| | | | | | |]; try discriminate.
  exists so'. split; [assumption|]. simpl in E. congruence.
Qed.

Lemma stable_createNamedType (kind : NamedKind + string) (name : string) (schema : ptr) :
  stable (Ctors.createNamedType kind name schema).
Proof. unfold Ctors.createNamedType, Ctors.createTypeOfKind. stable_parts. Qed.

Section Builders.

Variable w : World.

Lemma stable_buildDirective (directiveNode : DirectiveNode) (element : ptr) :
  stable (buildDirective directiveNode element).
Proof. unfold buildDirective, Ctors.createDirective. stable_parts. Qed.

Lemma stable_buildAppliedDirectives (directives : list DirectiveNode) (element : ptr) :
  stable (buildAppliedDirectives directives element).
Proof.
  unfold buildAppliedDirectives. pose proof stable_buildDirective. stable_parts.
Qed.

Lemma stable_buildWrapperTypeOrTypeRef (typeNode : TypeNode) (schema : option ptr) :
  stable (buildWrapperTypeOrTypeRef typeNode schema).
Proof.
  induction typeNode as [name|inner IH|inner IH]; simpl; stable_parts.
Qed.

#[local] Hint Resolve stable_createNamedType stable_buildDirective
  stable_buildAppliedDirectives stable_buildWrapperTypeOrTypeRef : stable.

Lemma stable_buildFieldArgumentDefinition (inputNode : InputValueDefinitionNode)
      (parent : ptr) :
  stable (buildFieldArgumentDefinition inputNode parent).
Proof.
  unfold buildFieldArgumentDefinition, Ctors.createFieldArgumentDefinition. stable_parts.
Qed.

#[local] Hint Resolve stable_buildFieldArgumentDefinition : stable.

Lemma stable_buildFieldDefinition (fieldNode : FieldDefinitionNode) (parentType : ptr) :
  stable (buildFieldDefinition fieldNode parentType).
Proof. unfold buildFieldDefinition, Ctors.createFieldDefinition. stable_parts. Qed.

Lemma stable_buildInputFieldDefinition (fieldNode : InputValueDefinitionNode)
      (parentType : ptr) :
  stable (buildInputFieldDefinition fieldNode parentType).
Proof.
  unfold buildInputFieldDefinition, Ctors.createInputFieldDefinition. stable_parts.
Qed.

Lemma stable_buildDirectiveDefinition (name : string)
      (arguments : list InputValueDefinitionNode) (parent : ptr) :
  stable (buildDirectiveDefinition name arguments parent).
Proof.
  unfold buildDirectiveDefinition, buildDirectiveArgumentDefinition,
    Ctors.createDirectiveDefinition.
  stable_parts.
Qed.

#[local] Hint Resolve stable_buildFieldDefinition stable_buildInputFieldDefinition
  stable_buildDirectiveDefinition : stable.

Lemma stable_buildNamedTypeShallow (documentNode : DocumentNode) (schema : ptr) :
  stable (buildNamedTypeShallow documentNode schema).
Proof. unfold buildNamedTypeShallow. stable_parts. Qed.

Lemma stable_buildNamedTypeInner (definitionNode : DefinitionNode) (type : option ptr) :
  stable (buildNamedTypeInner definitionNode type).
Proof. unfold buildNamedTypeInner. stable_parts. Qed.

End Builders.

#[local] Hint Resolve stable_buildNamedTypeInner stable_buildDirectiveDefinition
  stable_buildNamedTypeShallow : stable.

(** [Ctors.schema] always returns, with a fresh schema that has no schema
    definition. *)
Lemma builtIns_run (names : list string) :
  forall (h : Heap) (doc : ptr) (so : SchemaObj),
    h !! doc = Some (Schema so) ->
    exists h1 so1,
      forEach names
        (fun builtIn =>
           let* type := Ctors.createScalarType builtIn (Some doc) in
           BaseSchema.setBuiltIn doc builtIn type) h = inr (tt, h1)
      /\ h1 !! doc = Some (Schema so1)
      /\ _schemaDefinition so1 = _schemaDefinition so
      /\ extends h h1.
Proof.
  induction names as [|name names IH]; intros h doc so Hdoc; simpl.
  - exists h, so. repeat split; auto using extends_refl.
  - assert (Hlt : doc < length h) by (eapply lookup_lt_Some; eassumption).
    unfold bind at 1 2. unfold Ctors.createScalarType, Ctors.createTypeOfKind, alloc.
    unfold BaseSchema.setBuiltIn, bind, derefSchema, bind, deref.
    rewrite lookup_app_l by exact Hlt. rewrite Hdoc. simpl.
    set (so' := mkSchemaObj (mutable so) (_schemaDefinition so)
                  (map_set (builtInTypes so) name (length h)) (typesMap so)
                  (directivesMap so)).
    set (h0 := <[doc := Schema so']> (h ++ [_])).
    assert (Hdoc0 : h0 !! doc = Some (Schema so')).
    { subst h0. apply list_lookup_insert_eq. rewrite length_app. lia. }
    destruct (IH h0 doc so' Hdoc0) as (h1 & so1 & Hrun & Hdoc1 & Hdef & Hext).
    exists h1, so1. repeat split; try assumption.
    eapply extends_trans; [|exact Hext].
    eapply extends_trans; [apply extends_app|].
    subst h0. apply (extends_insert _ doc (Schema so) (Schema so')); [|reflexivity].
    rewrite lookup_app_l by exact Hlt. exact Hdoc.
Qed.

Lemma Ctors_schema_runs (w : World) (h : Heap) :
  exists h1,
    Ctors.schema w h = inr (length h, h1)
    /\ extends h h1
    /\ definitionUndefined (length h) h1.
Proof.
  unfold Ctors.schema, Ctors.createSchema. unfold bind at 1. unfold alloc at 1.
  set (so := mkSchemaObj _ None [] [] []).
  assert (Hdoc : (h ++ [Schema so]) !! length h = Some (Schema so)).
  { rewrite lookup_app_r by lia. now rewrite Nat.sub_diag. }
  destruct (builtIns_run builtInTypeNames (h ++ [Schema so]) (length h) so Hdoc)
    as (h1 & so1 & Hrun & Hdoc1 & Hdef & Hext).
  exists h1. cbv beta iota. unfold bind at 1. rewrite Hrun.
  split; [reflexivity|]. split.
  - eapply extends_trans; [apply extends_app | exact Hext].
  - exists so1. split; [assumption|]. now rewrite Hdef.
Qed.

(** Building a schema from a document that has no schema definition node
    leaves the schema without a schema definition. *)
Lemma build_without_schema_definition (w : World) (document : DocumentNode)
      (h h' : Heap) (s : ptr) :
  hasSchemaDefinition document = false ->
  buildSchemaInternal w document h = inr (s, h') ->
  definitionUndefined s h'.
Proof.
  intros Hno. unfold buildSchemaInternal. unfold bind at 1.
  destruct (Ctors_schema_runs w h) as (h1 & -> & _ & Hundef).
  intros H.
  assert (Hstable :
            stable (buildNamedTypeShallow document (length h) ;;
                    forEach document
                      (fun definitionNode =>
                         match definitionNode with
                         | OperationDefinition | FragmentDefinition =>
                             throw (GraphQLError
                                      "Invalid executable definition found while building schema")
                         | SchemaDefinitionNode directives operationTypes =>
                             buildSchemaDefinition directives operationTypes (length h)
                         | DirectiveDefinitionNode name arguments =>
                             let* definition :=
                               buildDirectiveDefinition name arguments (length h) in
                             addDirectiveDefinition definition (length h)
                         | TypeSystemExtension => throw (PlainError "Extensions are a TODO")
                         | _ =>
                             let* type :=
                               BaseSchema.type (length h) (definitionName definitionNode) in
                             buildNamedTypeInner definitionNode type
                         end) ;;
                    ret (length h))).
  { apply stable_bind; [apply stable_buildNamedTypeShallow|]. intros _.
    apply stable_bind; [|intros _; apply stable_ret].
    apply stable_forEach_In. intros d Hd.
    destruct d; try (stable_parts; fail).
    exfalso. unfold hasSchemaDefinition in Hno.
    apply not_true_iff_false in Hno. apply Hno.
    apply existsb_exists. eexists. split; [exact Hd | reflexivity]. }
  assert (s = length h) as ->.
  { unfold bind in H.
    destruct (buildNamedTypeShallow document (length h) h1) as [e|[[] h2]]; [discriminate|].
    destruct (forEach document _ h2) as [e|[[] h3]]; [discriminate|].
    now injection H. }
  eapply undefined_extends; [eapply Hstable; exact H | exact Hundef].
Qed.

(** A schema without a schema definition cannot be copied. *)
Lemma copy_undefined_definition (w : World) (s : ptr) (h : Heap) :
  definitionUndefined s h ->
  copy w s h
  = inl (AssertionError "Badly constructed schema; doesn't have a schema definition").
Proof.
  intros Hundef. unfold copy. unfold bind at 1.
  destruct (Ctors_schema_runs w h) as (h1 & -> & Hext & _).
  destruct (undefined_extends s h h1 Hext Hundef) as (so & Hs & Hn).
  cbv beta iota. unfold bind at 1.
  unfold BaseSchema.schemaDefinition at 1. unfold bind at 1.
  unfold derefSchema at 1. unfold bind at 1. unfold deref at 1.
  rewrite Hs. cbv beta iota. unfold ret at 1. cbv beta iota. rewrite Hn.
  reflexivity.
Qed.

(** Whatever the document, as long as it has no schema definition node and
    builds, the schema built from it throws when converted to the other
    world. *)
Lemma parsed_without_schema_definition_cannot_convert (w w' : World)
      (document : DocumentNode) (h h' : Heap) (s : ptr) :
  hasSchemaDefinition document = false ->
  buildSchemaInternal w document h = inr (s, h') ->
  copy w' s h'
  = inl (AssertionError "Badly constructed schema; doesn't have a schema definition").
Proof.
  intros Hno Hbuild. apply copy_undefined_definition.
  eapply build_without_schema_definition; eassumption.
Qed.

End SomFrame.

(** ** Composition *)

Module CompositionFacts.
Import Composition CompositionSpec.

Lemma findSubgraph_In (subgraphs : list Subgraph) (n : string) (G : Subgraph) :
  findSubgraph subgraphs n = Some G -> In G subgraphs /\ name G = n.
Proof.
  intros H. apply find_some in H as [Hin E]. apply String.eqb_eq in E. auto.
Qed.

Lemma findSubgraph_unique (subgraphs : list Subgraph) (G : Subgraph) :
  NoDup (List.map name subgraphs) -> In G subgraphs ->
  findSubgraph subgraphs (name G) = Some G.
Proof.
  unfold findSubgraph.
  induction subgraphs as [|G' l IH]; simpl; intros Hnd Hin; [contradiction|].
  apply NoDup_cons in Hnd as [Hnotin Hnd].
  destruct (String.eqb (name G') (name G)) eqn:E.
  - apply String.eqb_eq in E. destruct Hin as [->|Hin]; [reflexivity|].
    exfalso. apply Hnotin. rewrite E. apply list_elem_of_In. now apply in_map.
  - destruct Hin as [->|Hin].
    + rewrite String.eqb_refl in E. discriminate.
    + now apply IH.
Qed.

Lemma same_name_same_subgraph (subgraphs : list Subgraph) (G G' : Subgraph) :
  NoDup (List.map name subgraphs) -> In G subgraphs -> In G' subgraphs ->
  name G = name G' -> G = G'.
Proof.
  intros Hnd HG HG' E.
  pose proof (findSubgraph_unique subgraphs G Hnd HG) as H1.
  pose proof (findSubgraph_unique subgraphs G' Hnd HG') as H2.
  rewrite E in H1. congruence.
Qed.

Lemma dedup_In (l : list string) (x : string) : In x (dedup l) <-> In x l.
Proof.
  induction l as [|y l IH]; simpl; [tauto|].
  rewrite filter_In, IH, negb_true_iff, String.eqb_neq.
  destruct (String.eqb_spec y x) as [->|Hne]; [tauto|]. intuition congruence.
Qed.

Lemma find_by_name {A : Type} (mk : string -> A) (key : A -> string) (names : list string)
      (n : string) :
  (forall m, key (mk m) = m) -> In n names ->
  List.find (fun t => String.eqb (key t) n) (List.map mk names) = Some (mk n).
Proof.
  intros Hkey. induction names as [|m names IH]; simpl; [contradiction|].
  intros Hin. rewrite Hkey. destruct (String.eqb_spec m n) as [->|Hne]; [reflexivity|].
  apply IH. destruct Hin; [contradiction | assumption].
Qed.

Lemma findType_In (G : Subgraph) (T : string) (t : TypeDecl) :
  findType G T = Some t -> In t (typeDefs G) /\ typeName t = T.
Proof.
  intros H. apply find_some in H as [Hin E]. apply String.eqb_eq in E. auto.
Qed.

Lemma declared_typeNames (subgraphs : list Subgraph) (G : Subgraph) (T a : string)
      (f : FieldDecl) :
  In G subgraphs -> findField G T a = Some f ->
  In T (typeNames subgraphs) /\ In a (fieldNames subgraphs T).
Proof.
  intros HG Hf. unfold findField in Hf.
  destruct (findType G T) as [t|] eqn:Ht; [|discriminate].
  pose proof (findType_In _ _ _ Ht) as [Htin Hname].
  apply find_some in Hf as [Hfin E]. apply String.eqb_eq in E.
  split.
  - apply dedup_In, in_flat_map. exists G. split; [assumption|].
    rewrite <- Hname. now apply in_map.
  - apply dedup_In, in_flat_map. exists G. split; [assumption|].
    rewrite Ht, <- E. now apply in_map.
Qed.

(** The supergraph field of a coordinate that some subgraph still
    contributes to. *)
Lemma superField_merge (subgraphs : list Subgraph) (T a : string) :
  In T (typeNames subgraphs) -> In a (fieldNames subgraphs T) ->
  mergedJoinFields subgraphs T a <> [] ->
  superField (merge subgraphs) T a
  = Some (mkSuperField a (mergedFieldType subgraphs T a) (mergedJoinFields subgraphs T a)).
Proof.
  intros HT Ha Hne. unfold superField, merge.
  rewrite (find_by_name _ superTypeName) by (auto || reflexivity). simpl.
  apply (find_by_name (fun a => mkSuperField a _ _) superFieldName); [reflexivity|].
  apply filter_In. split; [assumption|].
  unfold keptInSupergraph. destruct (mergedJoinFields subgraphs T a); [contradiction|].
  reflexivity.
Qed.

Lemma compose_Success (subgraphs : list Subgraph) (sg : Supergraph) :
  compose subgraphs = Success sg ->
  sg = merge subgraphs /\ overrideErrors subgraphs = [] /\ sharingErrors subgraphs = [].
Proof.
  unfold compose.
  destruct (overrideErrors subgraphs ++ sharingErrors subgraphs) eqn:E; [|discriminate].
  apply app_eq_nil in E as [E1 E2]. intros [= <-]. auto.
Qed.

Section Override.

Variable subgraphs : list Subgraph.
Hypothesis distinct : NoDup (List.map name subgraphs).

Variables S S' : Subgraph.
Variables T a : string.
Hypothesis S_in : In S subgraphs.
Hypothesis from_S' : overrideSource S T a = Some (name S').
Hypothesis S'_found : findSubgraph subgraphs (name S') = Some S'.
Hypothesis valid : validOverride subgraphs S T a = true.

Lemma valid_fields :
  exists f f',
    findField S T a = Some f /\ findField S' T a = Some f'
    /\ override f = Some (name S') /\ name S' <> name S
    /\ override f' = None /\ external f' = false /\ external f = false.
Proof.
  unfold validOverride in valid. unfold overrideSource in from_S'.
  destruct (findField S T a) as [f|] eqn:Hf; [|discriminate].
  rewrite from_S' in valid. rewrite S'_found in valid.
  destruct (findField S' T a) as [f'|] eqn:Hf'.
  2:{ now rewrite andb_false_r in valid. }
  apply andb_true_iff in valid as [Hne H]. apply andb_true_iff in H as [H He].
  apply andb_true_iff in H as [Ho He'].
  apply negb_true_iff in Hne, Ho, He', He. apply String.eqb_neq in Hne.
  exists f, f'. repeat split; try assumption.
  unfold hasOverride in Ho. apply bool_decide_eq_false in Ho.
  destruct (override f'); [exfalso; apply Ho; eauto | reflexivity].
Qed.

Lemma S'_in : In S' subgraphs.
Proof. now apply findSubgraph_In in S'_found. Qed.

Lemma S'_overridden : overridden subgraphs S' T a = true.
Proof.
  unfold overridden. apply existsb_exists. exists S. split; [exact S_in|].
  apply andb_true_iff. split; [|exact valid]. now apply bool_decide_eq_true.
Qed.

Lemma S_not_overridden : overridden subgraphs S T a = false.
Proof.
  destruct valid_fields as (f & f' & Hf & Hf' & Ho & Hne & Ho' & He' & He).
  apply not_true_is_false. intros H. unfold overridden in H.
  apply existsb_exists in H as (S2 & HS2 & H).
  apply andb_true_iff in H as [Hsrc Hval]. apply bool_decide_eq_true in Hsrc.
  unfold validOverride in Hval. unfold overrideSource in Hsrc.
  destruct (findField S2 T a) as [f2|]; [|discriminate].
  rewrite Hsrc in Hval.
  rewrite (findSubgraph_unique subgraphs S distinct S_in), Hf in Hval.
  unfold hasOverride in Hval. rewrite Ho in Hval.
  rewrite bool_decide_eq_true_2 in Hval by eauto.
  simpl in Hval. now rewrite andb_false_r in Hval.
Qed.

Lemma joinField_graph (G : Subgraph) (j : JoinField) :
  In j (joinFieldOf subgraphs T a G) -> graph j = name G.
Proof.
  unfold joinFieldOf. destruct (findField G T a); [|contradiction].
  destruct (overridden subgraphs G T a).
  - destruct (isKeyField G T a); [|contradiction]. now intros [<-|[]].
  - now intros [<-|[]].
Qed.

Lemma override_key_joinFields :
  isKeyField S' T a = true ->
  In (mkJoinField (name S) false) (mergedJoinFields subgraphs T a)
  /\ In (mkJoinField (name S') true) (mergedJoinFields subgraphs T a)
  /\ ~ In (mkJoinField (name S') false) (mergedJoinFields subgraphs T a)
  /\ resolves subgraphs S' T a = false.
Proof.
  intros Hkey.
  destruct valid_fields as (f & f' & Hf & Hf' & Ho & Hne & Ho' & He' & He).
  unfold mergedJoinFields. repeat split.
  - apply in_flat_map. exists S. split; [exact S_in|].
    unfold joinFieldOf. rewrite Hf, S_not_overridden, He. now left.
  - apply in_flat_map. exists S'. split; [exact S'_in|].
    unfold joinFieldOf. rewrite Hf', S'_overridden, Hkey. now left.
  - intros H. apply in_flat_map in H as (G & HG & Hj).
    pose proof (joinField_graph G _ Hj) as Hg. simpl in Hg.
    assert (G = S') as -> by (eapply same_name_same_subgraph; eauto using S'_in).
    unfold joinFieldOf in Hj. rewrite Hf', S'_overridden, Hkey in Hj.
    destruct Hj as [[=]|[]].
  - unfold resolves. rewrite Hf', S'_overridden. now rewrite andb_false_r.
Qed.

End Override.

(** C3, as stated, fails: a valid override of a key field does not make
    composition succeed when another field breaks a rule. *)
Lemma valid_key_override_may_fail :
  validOverride [keyOverride1Broken; keyOverride2] keyOverride1Broken "T" "k" = true
  /\ isKeyField keyOverride2 "T" "k" = true
  /\ compose [keyOverride1Broken; keyOverride2]
     = Failure [fromSelfError "Subgraph1" "T" "a"].
Proof. vm_compute. repeat split. Qed.

(** C3 (amended): whenever composition succeeds and [T.a] in [S] carries a
    valid [@override(from: S')] while [T.a] is a component of [T]'s [@key]
    in [S'], the supergraph keeps [T.a], [S'] no longer contributes it, and
    the field is annotated with [@join__field(graph: S)] and
    [@join__field(graph: S', external: true)]. *)
Theorem override_of_key_field (subgraphs : list Subgraph) (S S' : Subgraph)
        (T a : string) (sg : Supergraph) :
  NoDup (List.map name subgraphs) ->
  In S subgraphs ->
  overrideSource S T a = Some (name S') ->
  findSubgraph subgraphs (name S') = Some S' ->
  validOverride subgraphs S T a = true ->
  isKeyField S' T a = true ->
  compose subgraphs = Success sg ->
  exists f,
    superField sg T a = Some f
    /\ resolves subgraphs S' T a = false
    /\ In (mkJoinField (name S) false) (joinFields f)
    /\ In (mkJoinField (name S') true) (joinFields f)
    /\ ~ In (mkJoinField (name S') false) (joinFields f).
Proof.
  intros Hnd HS Hfrom HS' Hvalid Hkey Hc.
  apply compose_Success in Hc as (-> & _ & _).
  destruct (override_key_joinFields subgraphs Hnd S S' T a HS Hfrom HS' Hvalid Hkey)
    as (H1 & H2 & H3 & H4).
  destruct (valid_fields subgraphs S S' T a Hfrom HS' Hvalid) as (f & _ & Hf & _).
  destruct (declared_typeNames subgraphs S T a f HS Hf) as [HT Ha].
  eexists. split.
  - apply superField_merge; try assumption. intros E. rewrite E in H1. contradiction.
  - simpl. auto.
Qed.

(** C3 (amended), run on the subgraphs of the test "override @key field". *)
Lemma override_of_key_field_witness :
  exists f,
    superField (merge [keyOverride1; keyOverride2]) "T" "k" = Some f
    /\ resolves [keyOverride1; keyOverride2] keyOverride2 "T" "k" = false
    /\ In (mkJoinField "Subgraph1" false) (joinFields f)
    /\ In (mkJoinField "Subgraph2" true) (joinFields f)
    /\ ~ In (mkJoinField "Subgraph2" false) (joinFields f).
Proof.
  apply (override_of_key_field [keyOverride1; keyOverride2] keyOverride1 keyOverride2
           "T" "k" (merge [keyOverride1; keyOverride2])).
  - apply bool_decide_unpack with (dec := NoDup_dec _). vm_compute. reflexivity.
  - simpl. auto.
  - reflexivity.
  - reflexivity.
  - reflexivity.
  - reflexivity.
  - reflexivity.
Defined.

(** *** Two-way overrides *)

Lemma flat_map_nil {A B : Type} (g : A -> list B) (l : list A) :
  (forall x, In x l -> g x = []) -> flat_map g l = [].
Proof.
  induction l as [|y l IH]; simpl; intros H; [reflexivity|].
  rewrite (H y) by now left. apply IH. intros x Hx. apply H. now right.
Qed.

(** A [flat_map] to which one element only contributes. *)
Lemma flat_map_single {A B K : Type} (key : A -> K) (g : A -> list B) (l : list A)
      (x0 : A) :
  NoDup (List.map key l) -> In x0 l ->
  (forall x, In x l -> key x <> key x0 -> g x = []) ->
  flat_map g l = g x0.
Proof.
  induction l as [|y l IH]; simpl; intros Hnd Hin Hother; [contradiction|].
  apply NoDup_cons in Hnd as [Hnotin Hnd].
  destruct Hin as [->|Hin].
  - rewrite (flat_map_nil g l); [apply app_nil_r|].
    intros x Hx. apply Hother; [now right|].
    intros E. apply Hnotin. rewrite <- E. apply list_elem_of_In. now apply in_map.
  - rewrite (Hother y); [simpl; apply IH; auto | now left |].
    intros E. apply Hnotin. rewrite E. apply list_elem_of_In. now apply in_map.
Qed.

Lemma filter_NoDup {A : Type} (p : A -> bool) (l : list A) :
  NoDup l -> NoDup (List.filter p l).
Proof.
  induction 1 as [|x l Hx Hnd IH]; simpl; [constructor|].
  destruct (p x); [|exact IH]. constructor; [|exact IH].
  intros H. apply list_elem_of_In, filter_In in H as [H _].
  apply Hx. now apply list_elem_of_In.
Qed.

Lemma dedup_NoDup (l : list string) : NoDup (dedup l).
Proof.
  induction l as [|x l IH]; simpl; constructor.
  - intros H. apply list_elem_of_In, filter_In in H as [_ H].
    now rewrite String.eqb_refl in H.
  - now apply filter_NoDup.
Qed.

Lemma findField_In (G : Subgraph) (T a : string) (f : FieldDecl) :
  findField G T a = Some f ->
  exists t, In t (typeDefs G) /\ typeName t = T /\ In f (fields t) /\ fieldName f = a.
Proof.
  unfold findField. destruct (findType G T) as [t|] eqn:Ht; [|discriminate].
  intros Hf. apply findType_In in Ht as [Hin Hname].
  apply find_some in Hf as [Hfin E]. apply String.eqb_eq in E. eauto.
Qed.

(** In a subgraph where no other field raises an error, the override
    table raises what it raises for [T.a]. *)
Lemma overrideErrors_only (subgraphs : list Subgraph) (G : Subgraph) (T a : string)
      (f : FieldDecl) :
  declaredOnce G = true -> noOtherOverrideError subgraphs G T a = true ->
  findField G T a = Some f ->
  flat_map
    (fun t => flat_map (overrideErrorsOfField subgraphs G (typeName t)) (fields t))
    (typeDefs G)
  = overrideErrorsOfField subgraphs G T f.
Proof.
  intros Honce Honly Hf.
  destruct (findField_In G T a f Hf) as (t0 & Ht0 & Hname & Hf0 & Hfname).
  apply andb_true_iff in Honce as [Htypes Hfields].
  apply bool_decide_eq_true in Htypes.
  unfold noOtherOverrideError in Honly. rewrite forallb_forall in Honly, Hfields.
  assert (Hquiet : forall t f', In t (typeDefs G) -> In f' (fields t) ->
                                typeName t <> T \/ fieldName f' <> a ->
                                overrideErrorsOfField subgraphs G (typeName t) f' = []).
  { intros t f' Ht Hf' Hne.
    specialize (Honly t Ht). rewrite forallb_forall in Honly.
    specialize (Honly f' Hf'). apply orb_true_iff in Honly as [H|H].
    - apply andb_true_iff in H as [H1 H2].
      apply String.eqb_eq in H1, H2. destruct Hne; contradiction.
    - apply Nat.eqb_eq in H.
      now destruct (overrideErrorsOfField subgraphs G (typeName t) f'). }
  rewrite (flat_map_single typeName _ (typeDefs G) t0 Htypes Ht0).
  - rewrite Hname.
    apply (flat_map_single fieldName _ (fields t0) f).
    + pose proof (Hfields t0 Ht0) as Hnd. now apply bool_decide_eq_true in Hnd.
    + exact Hf0.
    + intros f' Hf' Hne. rewrite <- Hname. apply Hquiet; try assumption.
      right. congruence.
  - intros t Ht Hne. apply flat_map_nil. intros f' Hf'. apply Hquiet; try assumption.
    left. congruence.
Qed.

(** With no sharing conflict elsewhere, the sharing errors are those of
    [T.a]. *)
Lemma sharingErrors_only (subgraphs : list Subgraph) (T a : string) :
  In T (typeNames subgraphs) -> In a (fieldNames subgraphs T) ->
  noOtherSharingConflict subgraphs T a = true ->
  sharingErrors subgraphs = sharingErrorsOfField subgraphs T a.
Proof.
  intros HT Ha Hno. unfold noOtherSharingConflict in Hno. rewrite forallb_forall in Hno.
  assert (Hquiet : forall T' a', In T' (typeNames subgraphs) ->
                                 In a' (fieldNames subgraphs T') ->
                                 T' <> T \/ a' <> a ->
                                 sharingErrorsOfField subgraphs T' a' = []).
  { intros T' a' HT' Ha' Hne. specialize (Hno T' HT'). rewrite forallb_forall in Hno.
    specialize (Hno a' Ha'). apply orb_true_iff in Hno as [H|H].
    - apply andb_true_iff in H as [H1 H2].
      apply String.eqb_eq in H1, H2. destruct Hne; contradiction.
    - apply Nat.eqb_eq in H. now destruct (sharingErrorsOfField subgraphs T' a'). }
  unfold sharingErrors.
  rewrite (flat_map_single (fun n => n) _ (typeNames subgraphs) T).
  - apply (flat_map_single (fun n => n) _ (fieldNames subgraphs T) a).
    + rewrite map_id. apply dedup_NoDup.
    + exact Ha.
    + intros a' Ha' Hne. apply Hquiet; auto.
  - rewrite map_id. apply dedup_NoDup.
  - exact HT.
  - intros T' HT' Hne. apply flat_map_nil. intros a' Ha'. apply Hquiet; auto.
Qed.

Section TwoWay.

Variables S1 S2 : Subgraph.
Variables T a : string.
Variables f1 f2 : FieldDecl.
Hypothesis distinct : name S1 <> name S2.
Hypothesis declared1 : findField S1 T a = Some f1.
Hypothesis declared2 : findField S2 T a = Some f2.
Hypothesis from2 : override f1 = Some (name S2).
Hypothesis from1 : override f2 = Some (name S1).

Lemma findSubgraph_first : findSubgraph [S1; S2] (name S1) = Some S1.
Proof. unfold findSubgraph. simpl. now rewrite String.eqb_refl. Qed.

Lemma findSubgraph_second : findSubgraph [S1; S2] (name S2) = Some S2.
Proof.
  unfold findSubgraph. simpl.
  rewrite (proj2 (String.eqb_neq _ _) distinct). now rewrite String.eqb_refl.
Qed.

Lemma hasOverride_sides : hasOverride f1 = true /\ hasOverride f2 = true.
Proof.
  unfold hasOverride. rewrite from1, from2.
  split; apply bool_decide_eq_true; eauto.
Qed.

Lemma two_way_first :
  overrideErrorsOfField [S1; S2] S1 T f1 = [sourceHasOverrideError (name S1) (name S2) T a].
Proof.
  destruct (findField_In S1 T a f1 declared1) as (_ & _ & _ & _ & Hname).
  unfold overrideErrorsOfField. rewrite from2, Hname.
  rewrite (proj2 (String.eqb_neq _ _) (not_eq_sym distinct)).
  rewrite findSubgraph_second, declared2.
  now rewrite (proj2 hasOverride_sides).
Qed.

Lemma two_way_second :
  overrideErrorsOfField [S1; S2] S2 T f2 = [sourceHasOverrideError (name S2) (name S1) T a].
Proof.
  destruct (findField_In S2 T a f2 declared2) as (_ & _ & _ & _ & Hname).
  unfold overrideErrorsOfField. rewrite from1, Hname.
  rewrite (proj2 (String.eqb_neq _ _) distinct).
  rewrite findSubgraph_first, declared1.
  now rewrite (proj1 hasOverride_sides).
Qed.

(** Neither override is valid, so neither side is taken over. *)
Lemma two_way_not_overridden (G : Subgraph) : overridden [S1; S2] G T a = false.
Proof.
  assert (H1 : validOverride [S1; S2] S1 T a = false).
  { unfold validOverride. rewrite declared1, from2, findSubgraph_second, declared2.
    rewrite (proj2 hasOverride_sides). now rewrite andb_false_r. }
  assert (H2 : validOverride [S1; S2] S2 T a = false).
  { unfold validOverride. rewrite declared2, from1, findSubgraph_first, declared1.
    rewrite (proj1 hasOverride_sides). now rewrite andb_false_r. }
  unfold overridden. simpl. rewrite H1, H2. now rewrite !andb_false_r.
Qed.

Lemma two_way_sharing :
  external f1 = false -> external f2 = false ->
  isShareable S1 T a = false -> isShareable S2 T a = false ->
  sharingErrorsOfField [S1; S2] T a = [sharingError T a [name S1; name S2]].
Proof.
  intros He1 He2 Hs1 Hs2. unfold sharingErrorsOfField. simpl.
  unfold resolves. rewrite declared1, declared2, He1, He2, !two_way_not_overridden.
  simpl. now rewrite Hs1, Hs2.
Qed.

End TwoWay.

(** C4, as stated, fails: the two-way override of the test "multiple
    override error" with [T.a] marked [@shareable] on both sides raises the
    two [OVERRIDE_SOURCE_HAS_OVERRIDE] errors and no
    [INVALID_FIELD_SHARING]. *)
Lemma two_way_override_shareable :
  overrideSource twoWayShareable1 "T" "a" = Some "Subgraph2"
  /\ overrideSource twoWayShareable2 "T" "a" = Some "Subgraph1"
  /\ compose [twoWayShareable1; twoWayShareable2]
     = Failure [ sourceHasOverrideError "Subgraph1" "Subgraph2" "T" "a";
                 sourceHasOverrideError "Subgraph2" "Subgraph1" "T" "a" ].
Proof. vm_compute. repeat split. Qed.

(** C4 (amended): when [S1] declares [T.a] with [@override(from: S2)] and
    [S2] declares it with [@override(from: S1)], the field is external and
    shareable on neither side, and nothing else in the two subgraphs
    breaks a rule (no other field raises an override error or has a
    sharing conflict), composing [S1] and [S2] fails with exactly three
    errors, in this order: [OVERRIDE_SOURCE_HAS_OVERRIDE] for [S1], the
    same for [S2], and [INVALID_FIELD_SHARING] for [T.a].  The list is
    given by the names of the subgraphs and the coordinate alone. *)
Theorem two_way_override_errors (S1 S2 : Subgraph) (T a : string) (f1 f2 : FieldDecl) :
  name S1 <> name S2 ->
  declaredOnce S1 = true -> declaredOnce S2 = true ->
  findField S1 T a = Some f1 -> override f1 = Some (name S2) ->
  findField S2 T a = Some f2 -> override f2 = Some (name S1) ->
  noOtherOverrideError [S1; S2] S1 T a = true ->
  noOtherOverrideError [S1; S2] S2 T a = true ->
  external f1 = false -> external f2 = false ->
  isShareable S1 T a = false -> isShareable S2 T a = false ->
  noOtherSharingConflict [S1; S2] T a = true ->
  compose [S1; S2]
  = Failure [ sourceHasOverrideError (name S1) (name S2) T a;
              sourceHasOverrideError (name S2) (name S1) T a;
              sharingError T a [name S1; name S2] ]
  /\ List.map code (match compose [S1; S2] with Failure errors => errors | Success _ => [] end)
     = [OVERRIDE_SOURCE_HAS_OVERRIDE; OVERRIDE_SOURCE_HAS_OVERRIDE; INVALID_FIELD_SHARING].
Proof.
  intros Hne Honce1 Honce2 Hf1 Ho1 Hf2 Ho2 Honly1 Honly2 He1 He2 Hs1 Hs2 Hno.
  assert (Herrors : overrideErrors [S1; S2]
                    = [ sourceHasOverrideError (name S1) (name S2) T a;
                        sourceHasOverrideError (name S2) (name S1) T a ]).
  { unfold overrideErrors. simpl.
    rewrite (overrideErrors_only [S1; S2] S1 T a f1 Honce1 Honly1 Hf1).
    rewrite (overrideErrors_only [S1; S2] S2 T a f2 Honce2 Honly2 Hf2).
    rewrite (two_way_first S1 S2 T a f1 f2 Hne Hf1 Hf2 Ho1 Ho2).
    now rewrite (two_way_second S1 S2 T a f1 f2 Hne Hf1 Hf2 Ho1 Ho2). }
  destruct (declared_typeNames [S1; S2] S1 T a f1 (or_introl eq_refl) Hf1) as [HT Ha].
  assert (Hsharing : sharingErrors [S1; S2] = [sharingError T a [name S1; name S2]]).
  { rewrite (sharingErrors_only [S1; S2] T a HT Ha Hno).
    exact (two_way_sharing S1 S2 T a f1 f2 Hne Hf1 Hf2 Ho1 Ho2 He1 He2 Hs1 Hs2). }
  unfold compose. rewrite Herrors, Hsharing. simpl. split; reflexivity.
Qed.

(** C4 (amended), run on the subgraphs of the test "multiple override
    error". *)
Lemma two_way_override_errors_witness :
  compose [twoWay1; twoWay2]
  = Failure [ sourceHasOverrideError "Subgraph1" "Subgraph2" "T" "a";
              sourceHasOverrideError "Subgraph2" "Subgraph1" "T" "a";
              sharingError "T" "a" ["Subgraph1"; "Subgraph2"] ].
Proof.
  refine (proj1 (two_way_override_errors twoWay1 twoWay2 "T" "a"
                   (overriding "a" "Int" "Subgraph2") (overriding "a" "Int" "Subgraph1")
                   _ _ _ _ _ _ _ _ _ _ _ _ _ _));
    try reflexivity.
  discriminate.
Defined.

End CompositionFacts.
(** ** Laws of the scope algebra *)

Module ScopeLaws.
Import Ast GraphQL Scope ScopeSpec ChainSpec.

Section Printer.
Variable directiveToString : DirectiveNode -> string.

Lemma directivesEquals_refl (d : option (list DirectiveNode)) :
  directivesEquals directiveToString d d = true.
Proof.
  destruct d as [l|]; [|reflexivity].
  now apply ScopeFacts.directivesEquals_present.
Qed.

Lemma directivesEquals_sym (d1 d2 : option (list DirectiveNode)) :
  directivesEquals directiveToString d1 d2 = directivesEquals directiveToString d2 d1.
Proof.
  destruct d1 as [l1|], d2 as [l2|]; try reflexivity.
  apply eq_true_iff_eq.
  rewrite !ScopeFacts.directivesEquals_present.
  split; intros P; now symmetry.
Qed.

Lemma directivesEquals_trans (d1 d2 d3 : option (list DirectiveNode)) :
  directivesEquals directiveToString d1 d2 = true ->
  directivesEquals directiveToString d2 d3 = true ->
  directivesEquals directiveToString d1 d3 = true.
Proof.
  destruct d1 as [l1|], d2 as [l2|], d3 as [l3|]; try discriminate; try reflexivity.
  rewrite !ScopeFacts.directivesEquals_present.
  intros P Q. now rewrite P.
Qed.

Lemma equals_true (s t : Scope) :
  equals directiveToString s t = true <->
  parentType s = parentType t
  /\ directivesEquals directiveToString (directives s) (directives t) = true
  /\ match enclosing s, enclosing t with
     | Some s', Some t' => equals directiveToString s' t' = true
     | None, None => True
     | _, _ => False
     end.
Proof.
  destruct s as [p1 d1 e1], t as [p2 d2 e2]. simpl.
  destruct (String.eqb p1 p2) eqn:Ep; simpl.
  - apply String.eqb_eq in Ep.
    destruct (directivesEquals directiveToString d1 d2); simpl.
    + destruct e1, e2; intuition congruence.
    + intuition congruence.
  - apply String.eqb_neq in Ep. intuition congruence.
Qed.

End Printer.

(** X1: [equals] is an equivalence relation on scopes: reflexive,
    symmetric and transitive, whatever the printer of directives. *)
Theorem equals_equivalence (directiveToString : DirectiveNode -> string) :
  (forall s, equals directiveToString s s = true)
  /\ (forall s t, equals directiveToString s t = equals directiveToString t s)
  /\ (forall s t u,
         equals directiveToString s t = true ->
         equals directiveToString t u = true ->
         equals directiveToString s u = true).
Proof.
  split; [|split].
  - induction s as [p d|p d n IH] using RefineFacts.Scope_chain_ind;
      apply equals_true; simpl; auto using directivesEquals_refl.
  - induction s as [p d|p d n IH] using RefineFacts.Scope_chain_ind;
      intros [p' d' [n'|]]; simpl;
      rewrite (String.eqb_sym p p'), (directivesEquals_sym _ d d');
      try reflexivity.
    now rewrite IH.
  - induction s as [p d|p d n IH] using RefineFacts.Scope_chain_ind;
      intros t u Hst Htu;
      apply equals_true in Hst as (Hp & Hd & He);
      apply equals_true in Htu as (Hp' & Hd' & He');
      apply equals_true; simpl in *;
      (split; [congruence|]);
      (split; [eapply directivesEquals_trans; eassumption|]);
      destruct (enclosing t) as [t'|], (enclosing u) as [u'|]; try contradiction; auto.
    eapply IH; eassumption.
Qed.

(** *** Hash codes *)

(** X2: two scopes that are [equals] have the same hash code as long as
    the innermost link of the first carries at most one directive. *)
Theorem equals_hashCode_single (directiveToString : DirectiveNode -> string)
        (s1 s2 : Scope) :
  equals directiveToString s1 s2 = true ->
  directiveCount s1 <= 1 ->
  hashCode directiveToString s1 = hashCode directiveToString s2.
Proof.
  intros He Hc. apply equals_true in He as (Hp & Hd & _).
  apply ScopeFacts.hashCode_same_printed; [assumption|].
  unfold directiveCount in Hc.
  destruct (directives s1) as [l1|], (directives s2) as [l2|];
    try discriminate; [|reflexivity].
  apply ScopeFacts.directivesEquals_present in Hd. simpl. f_equal.
  destruct l1 as [|a [|b l1]]; simpl in *.
  - symmetry. now apply Permutation_nil.
  - symmetry. now apply Permutation_length_1_inv.
  - lia.
Qed.

(** X2, run on two scopes whose directives differ as syntax trees and
    print alike: [@a(x: 1)] with an integer and with a float literal. *)
Lemma equals_hashCode_single_witness :
  hashCode printStripped
    (refine exampleContext (create "User") "User"
       (Some [mkDirective "a" [("x", IntValue "1")]]))
  = hashCode printStripped
      (refine exampleContext (create "User") "User"
         (Some [mkDirective "a" [("x", FloatValue "1")]])).
Proof.
  apply equals_hashCode_single.
  - vm_compute. reflexivity.
  - vm_compute. lia.
Defined.

(** *** Possible runtime types *)

Lemma filter_filter_andb {A} (f g : A -> bool) (l : list A) :
  List.filter g (List.filter f l) = List.filter (fun x => f x && g x) l.
Proof.
  induction l as [|a l IH]; simpl; [reflexivity|].
  destruct (f a); simpl; [destruct (g a)|]; now rewrite IH.
Qed.

Lemma intersectEnclosing_filter (context : QueryPlanningContext) (next : Scope) :
  forall possibleTypes,
    intersectEnclosing context next possibleTypes
    = List.filter
        (fun t => forallb (fun p => Js.includes (getPossibleTypes context p) t)
                    (chainTypes next))
        possibleTypes.
Proof.
  induction next as [p d|p d n IH] using RefineFacts.Scope_chain_ind;
    intros pts; simpl.
  - apply filter_ext. intros t. now rewrite andb_true_r.
  - rewrite IH, filter_filter_andb. reflexivity.
Qed.

(** X3: the possible runtime types of a scope are the possible types of
    its parent type, in their order, that are also possible types of every
    enclosing link. *)
Theorem possibleRuntimeTypes_intersection (context : QueryPlanningContext) (s : Scope) :
  possibleRuntimeTypes context s
  = List.filter
      (fun t => forallb (fun p => Js.includes (getPossibleTypes context p) t)
                  (enclosingTypes s))
      (getPossibleTypes context (parentType s)).
Proof.
  unfold possibleRuntimeTypes, computePossibleRuntimeTypes, enclosingTypes.
  destruct (enclosing s) as [next|].
  - apply intersectEnclosing_filter.
  - simpl. induction (getPossibleTypes context (parentType s)) as [|a l IH];
      simpl; congruence.
Qed.

(** *** Refinement *)

Lemma isTypeSubTypeOf_refl (schema : GraphQLSchema) (T : string) :
  isTypeSubTypeOf schema T T = true.
Proof. unfold isTypeSubTypeOf. now rewrite String.eqb_refl. Qed.

(** X4: refining twice by the same type, without directives, is refining
    once. *)
Theorem refine_idempotent (context : QueryPlanningContext) (s : Scope) (T : string) :
  refine context (refine context s T None) T None = refine context s T None.
Proof.
  unfold refine at 2 3.
  destruct (isStrictlyRefinedBy context s T) eqn:E; simpl.
  - unfold refine. simpl. now rewrite isTypeSubTypeOf_refl.
  - unfold refine. now rewrite E.
Qed.

Lemma pruneScope_directiveLinks (context : QueryPlanningContext) (T : string) (s : Scope) :
  match pruneScope context s T with
  | Some s' => directiveLinks s'
  | None => []
  end = directiveLinks s.
Proof.
  induction s as [p d|p d n IH] using RefineFacts.Scope_chain_ind; simpl.
  - destruct d as [ds|]; simpl; [reflexivity|].
    destruct (isTypeSubTypeOf (schema context) T p); reflexivity.
  - destruct d as [ds|]; simpl.
    + now rewrite <- IH.
    + destruct (isTypeSubTypeOf (schema context) T p); simpl; exact IH.
Qed.

(** X5: [refine] never loses a link that carries directives: the chain it
    returns holds the directive-carrying links of the scope it started
    from, in order, preceded by the new link when directives are given. *)
Theorem refine_keeps_directives (context : QueryPlanningContext) (s : Scope) (T : string)
        (dirs : option (list DirectiveNode)) :
  directiveLinks (refine context s T dirs)
  = match dirs with
    | Some (d :: ds) => (T, d :: ds) :: directiveLinks s
    | _ => directiveLinks s
    end.
Proof.
  assert (Hnone : directiveLinks
                    (if negb (isStrictlyRefinedBy context s T) then s
                     else mkScope T None (pruneRefinedTypes context (Some s) T))
                  = directiveLinks s).
  { destruct (negb (isStrictlyRefinedBy context s T)); [reflexivity|].
    simpl. apply pruneScope_directiveLinks. }
  unfold refine. destruct dirs as [[|d ds]|]; auto.
Qed.

Lemma pruneScope_pruned (context : QueryPlanningContext) (T : string) (s : Scope) :
  Forall (fun link => snd link = None ->
                      isTypeSubTypeOf (schema context) T (fst link) = false)
    (chainLinksOpt (pruneScope context s T)).
Proof.
  induction s as [p d|p d n IH] using RefineFacts.Scope_chain_ind; simpl.
  - destruct d as [ds|]; simpl.
    + repeat constructor. discriminate.
    + destruct (isTypeSubTypeOf (schema context) T p) eqn:E; simpl;
        repeat constructor. intros _. exact E.
  - destruct d as [ds|]; simpl.
    + constructor; [discriminate | exact IH].
    + destruct (isTypeSubTypeOf (schema context) T p) eqn:E; simpl; [exact IH|].
      constructor; [intros _; exact E | exact IH].
Qed.

(** X6: when [refine] adds a link without directives, the links it keeps
    below the new one are pruned: none of them is a directive-less link
    whose type the refining type is a sub-type of. *)
Theorem refine_prunes (context : QueryPlanningContext) (s : Scope) (T : string) :
  isStrictlyRefinedBy context s T = true ->
  parentType (refine context s T None) = T
  /\ Forall (fun link => snd link = None ->
                         isTypeSubTypeOf (schema context) T (fst link) = false)
       (chainLinksOpt (enclosing (refine context s T None))).
Proof.
  intros E. unfold refine. rewrite E. simpl. split; [reflexivity|].
  apply pruneScope_pruned.
Qed.

(** X6, run on [Node] refined by [Entity]: the link for [Node] is pruned
    and nothing is left below the link for [Entity]. *)
Lemma refine_prunes_witness :
  parentType (refine exampleContext (create "Node") "Entity" None) = "Entity"
  /\ Forall (fun link => snd link = None ->
                         isTypeSubTypeOf (schema exampleContext) "Entity" (fst link) = false)
       (chainLinksOpt (enclosing (refine exampleContext (create "Node") "Entity" None))).
Proof.
  apply refine_prunes. vm_compute. reflexivity.
Defined.

Section Valid.
Variable context : QueryPlanningContext.
Hypothesis valid : validSchema (schema context) = true.

Lemma pruneScope_sub (T : string) (s : Scope) :
  forall p, In p (chainTypesOpt (pruneScope context s T)) -> In p (chainTypes s).
Proof.
  induction s as [p d|p d n IH] using RefineFacts.Scope_chain_ind; intros q; simpl.
  - destruct (negb (bool_decide (is_Some d)) && isTypeSubTypeOf (schema context) T p);
      simpl; tauto.
  - destruct (negb (bool_decide (is_Some d)) && isTypeSubTypeOf (schema context) T p);
      simpl.
    + intros H. right. now apply IH.
    + intros [H|H]; [now left | right; now apply IH].
Qed.

Lemma not_refined_below (T : string) (s : Scope) :
  isStrictlyRefinedBy context s T = false ->
  exists p, In p (chainTypes s) /\ isTypeSubTypeOf (schema context) p T = true.
Proof.
  induction s as [p d|p d n IH] using RefineFacts.Scope_chain_ind; simpl;
    destruct (isTypeSubTypeOf (schema context) p T) eqn:E; try discriminate; eauto.
  intros H. destruct (IH H) as (q & Hq & Hs). eauto.
Qed.

Lemma refine_intersection_valid (s : Scope) (T : string)
      (dirs : option (list DirectiveNode)) (t : string) :
  In t (possibleRuntimeTypes context (refine context s T dirs))
  <-> In t (possibleRuntimeTypes context s) /\ In t (getPossibleTypes context T).
Proof.
  pose proof (RefineFacts.subtype_possibleTypes (schema context) valid context eq_refl)
    as Hsub.
  assert (Hwith : forall ds,
             In t (possibleRuntimeTypes context (mkScope T (Some ds) (Some s)))
             <-> In t (possibleRuntimeTypes context s) /\ In t (getPossibleTypes context T)).
  { intros ds. rewrite !RefineFacts.possibleRuntimeTypes_In. simpl. split.
    - intros H. split; [intros p Hp; apply H; now right | apply H; now left].
    - intros [H1 H2] p [<-|Hp]; auto. }
  assert (Hwithout :
            In t (possibleRuntimeTypes context
                    (if negb (isStrictlyRefinedBy context s T) then s
                     else mkScope T None (pruneRefinedTypes context (Some s) T)))
            <-> In t (possibleRuntimeTypes context s) /\ In t (getPossibleTypes context T)).
  { destruct (isStrictlyRefinedBy context s T) eqn:E; simpl.
    - rewrite !RefineFacts.possibleRuntimeTypes_In. simpl. split.
      + intros H. split; [|apply H; now left].
        intros p Hp.
        destruct (RefineFacts.pruneScope_keeps (schema context) context eq_refl T s p Hp)
          as [Hkept|Hbelow].
        * apply H. right. unfold chainTypesOpt in Hkept.
          destruct (pruneScope context s T); [exact Hkept | contradiction].
        * apply (Hsub T p Hbelow). apply H. now left.
      + intros [H1 H2] p [<-|Hp]; [assumption|]. apply H1.
        apply (pruneScope_sub T s).
        unfold chainTypesOpt. destruct (pruneScope context s T); [exact Hp | contradiction].
    - split; [|tauto]. intros H. split; [assumption|].
      destruct (not_refined_below T s E) as (p & Hp & Hbelow).
      apply (Hsub p T Hbelow).
      rewrite RefineFacts.possibleRuntimeTypes_In in H. now apply H. }
  unfold refine. destruct dirs as [[|d ds]|]; auto.
Qed.

End Valid.

(** X7: over a validated schema, the possible runtime types of
    [s.refine(T, directives)] are exactly the possible runtime types of
    [s] that are possible types of [T], whether [refine] adds a link,
    prunes older links or returns [s] itself. *)
Theorem refine_intersection (context : QueryPlanningContext) (s : Scope) (T : string)
        (dirs : option (list DirectiveNode)) (t : string) :
  validSchema (schema context) = true ->
  In t (possibleRuntimeTypes context (refine context s T dirs))
  <-> In t (possibleRuntimeTypes context s) /\ In t (getPossibleTypes context T).
Proof. intros valid. now apply refine_intersection_valid. Qed.

(** X7, run on [SearchResult] refined by [Node]: [User] and [Product]
    are both kept. *)
Lemma refine_intersection_witness :
  In "Product" (possibleRuntimeTypes exampleContext
                  (refine exampleContext (create "SearchResult") "Node" None))
  <-> In "Product" (possibleRuntimeTypes exampleContext (create "SearchResult"))
      /\ In "Product" (getPossibleTypes exampleContext "Node").
Proof.
  apply refine_intersection. vm_compute. reflexivity.
Defined.

End ScopeLaws.
(** ** The identity key of the flat scope *)

Module FlatScopeFacts.
Import Ast FlatScope.

Lemma sequence_None {A B} (f : A -> option B) (l : list A) :
  sequence (List.map f l) = None <-> exists a, In a l /\ f a = None.
Proof.
  induction l as [|a l IH]; simpl.
  - split; [discriminate | intros (a & [] & _)].
  - destruct (f a) as [b|] eqn:E.
    + destruct (sequence (List.map f l)) as [r|]; simpl.
      * split; [discriminate|]. intros (x & [<-|Hx] & Hn); [congruence|].
        assert (H : @None (list B) = None) by reflexivity.
        destruct IH as [_ IH]. discriminate IH. eauto.
      * split; [|reflexivity]. intros _.
        destruct IH as [IH _]. destruct (IH eq_refl) as (x & Hx & Hn). eauto.
    + split; [|reflexivity]. intros _. eauto.
Qed.

Lemma directiveIdentityKey_unbound (directive : DirectiveNode) :
  directiveIdentityKey false directive = None <-> d_arguments directive <> [].
Proof.
  unfold directiveIdentityKey. destruct (d_arguments directive); simpl.
  - split; [discriminate | congruence].
  - split; [discriminate | reflexivity].
Qed.

(** X8: [identityKey] hands [directiveIdentityKey] to [map] unbound, so
    it throws a [TypeError] exactly when some directive of the scope has
    arguments; a scope without directives, or whose directives have no
    arguments, does get a key. *)
Theorem identityKey_throws_iff (this : Scope) :
  identityKey this = None
  <-> exists ds d, directives this = Some ds /\ In d ds /\ d_arguments d <> [].
Proof.
  unfold identityKey. destruct (directives this) as [ds|]; simpl.
  - destruct (sequence (List.map (directiveIdentityKey false) ds)) as [keys|] eqn:E; simpl.
    + split; [discriminate|]. intros (ds' & d & [= <-] & Hd & Hargs).
      assert (Hn : sequence (List.map (directiveIdentityKey false) ds) = None).
      { apply sequence_None. exists d. split; [assumption|].
        now apply directiveIdentityKey_unbound. }
      congruence.
    + split; [|reflexivity]. intros _.
      apply sequence_None in E as (d & Hd & Hn).
      apply directiveIdentityKey_unbound in Hn. eauto.
  - split; [discriminate|]. intros (ds & d & [=] & _).
Qed.

(** X9: the constructor sorts the possible types, so the identity key
    does not depend on the order in which they are given. *)
Theorem identityKey_order_of_possibleTypes (parentType : string)
        (possibleTypes1 possibleTypes2 : list string)
        (directives : option (list DirectiveNode)) :
  Permutation possibleTypes1 possibleTypes2 ->
  identityKey (new parentType possibleTypes1 directives)
  = identityKey (new parentType possibleTypes2 directives).
Proof.
  intros P. unfold new.
  now rewrite (proj2 (JsFacts.sort_eq_iff possibleTypes1 possibleTypes2) P).
Qed.

(** X9, run on the possible types of [SearchResult] in both orders. *)
Lemma identityKey_order_of_possibleTypes_witness :
  identityKey (new "SearchResult" ["User"; "Product"] None)
  = identityKey (new "SearchResult" ["Product"; "User"] None).
Proof.
  apply identityKey_order_of_possibleTypes. apply perm_swap.
Defined.

End FlatScopeFacts.

(** ** Grouping *)

Module GroupByFacts.
Import Utilities.

Section GroupBy.
Context {T U : Type} `{Countable U}.
Variable keyFunction : T -> U.

Lemma groupStep_lookup (result : gmap U (list T)) (e : T) (key : U) :
  groupStep keyFunction result e !! key
  = if bool_decide (keyFunction e = key)
    then Some (default [] (result !! key) ++ [e])
    else result !! key.
Proof.
  unfold groupStep. cbv zeta.
  destruct (decide (keyFunction e = key)) as [<-|Hne].
  - rewrite bool_decide_eq_true_2 by reflexivity.
    destruct (result !! keyFunction e) as [group|]; now rewrite lookup_insert_eq.
  - rewrite bool_decide_eq_false_2 by assumption.
    destruct (result !! keyFunction e) as [group|];
      now rewrite lookup_insert_ne by assumption.
Qed.

Lemma fold_groupStep (iterable : list T) :
  forall (result : gmap U (list T)) (key : U),
    fold_left (groupStep keyFunction) iterable result !! key
    = match List.filter (fun e => bool_decide (keyFunction e = key)) iterable with
      | [] => result !! key
      | group => Some (default [] (result !! key) ++ group)
      end.
Proof.
  induction iterable as [|e l IH]; intros result key; simpl; [reflexivity|].
  rewrite IH, groupStep_lookup.
  destruct (bool_decide (keyFunction e = key)); simpl.
  - destruct (List.filter _ l); simpl; [reflexivity|].
    now rewrite <- app_assoc.
  - reflexivity.
Qed.

End GroupBy.

(** X10: the map [groupBy] returns holds, under each key, the elements
    of the input with that key, all of them and in input order; a key no
    element has is absent, so no group is empty. *)
Theorem groupBy_lookup {T U : Type} `{Countable U} (keyFunction : T -> U)
        (iterable : list T) (key : U) :
  groupBy keyFunction iterable !! key
  = match List.filter (fun e => bool_decide (keyFunction e = key)) iterable with
    | [] => None
    | group => Some group
    end.
Proof.
  unfold groupBy. rewrite fold_groupStep. rewrite lookup_empty. reflexivity.
Qed.

End GroupByFacts.
(** ** The key predicate *)

Module KeysFacts.
Import Precompute PrecomputeSpec KeysSpec.

Lemma fold_left_ext {A B : Type} (f g : A -> B -> A) :
  (forall a b, f a b = g a b) ->
  forall l a, fold_left f l a = fold_left g l a.
Proof.
  intros Hfg l. induction l as [|b l IH]; intros a; simpl; [reflexivity|].
  now rewrite Hfg, IH.
Qed.

Section Collector.

Variable collectTargetFields : Schema -> string -> Directive -> list FieldDefinition.
Variable schema : Schema.
Variable metadata : FederationMetadata.

(** Without [includeOtherFieldsOnType] the directive plays no part. *)
Lemma visitField_unmarked (directive : option string) (directivesOnType : list Directive)
      (fields : gset string) (field : FieldDefinition) :
  visitField collectTargetFields schema metadata directive false directivesOnType
    fields field
  = visitField collectTargetFields schema metadata None true [] fields field.
Proof.
  unfold visitField. simpl.
  destruct (match directive with
            | Some d => hasAppliedDirective (f_appliedDirectives field) d
            | None => false
            end
            || negb (Nat.eqb (length directivesOnType) 0)
               && existsb (fun d => sameExtension (f_ofExtension field) (d_ofExtension d))
                    directivesOnType); reflexivity.
Qed.

Lemma visitObjectType_unmarked (directive : option string) (fields : gset string)
      (type : NamedType) :
  visitObjectType collectTargetFields schema metadata directive false fields type
  = visitObjectType collectTargetFields schema metadata None true fields type.
Proof.
  unfold visitObjectType. apply fold_left_ext. intros a b. apply visitField_unmarked.
Qed.

Lemma collectedCoordinates_unmarked (directive : option string) :
  collectedCoordinates collectTargetFields schema metadata directive false
  = collectedCoordinates collectTargetFields schema metadata None true.
Proof.
  unfold collectedCoordinates. f_equal.
  apply fold_left_ext. intros a b. apply visitObjectType_unmarked.
Qed.

Lemma collectedCoordinates_keys (directive : option string) (f : FieldDefinition) :
  coordinate f ∈ collectedCoordinates collectTargetFields schema metadata directive false
  <-> keyField collectTargetFields schema metadata f
      \/ providedExternal collectTargetFields schema metadata f.
Proof.
  rewrite collectedCoordinates_unmarked, PrecomputeFacts.collectedCoordinates_spec.
  unfold keyField, providedExternal. split.
  - intros [H|(T & field & HT & Hf & [[_ (d & [=] & _)]|(pr & g & H)])].
    + left. exact H.
    + right. exists T, field, pr, g. tauto.
  - intros [H|(T & p & pr & g & HT & Hp & H)].
    + left. exact H.
    + right. exists T, p. split; [assumption|]. split; [assumption|]. right.
      exists pr, g. tauto.
Qed.

Lemma collectedCoordinates_mono (directive directive' : option string) (x : string) :
  x ∈ collectedCoordinates collectTargetFields schema metadata directive false ->
  x ∈ collectedCoordinates collectTargetFields schema metadata directive' true.
Proof.
  rewrite collectedCoordinates_unmarked, !PrecomputeFacts.collectedCoordinates_spec.
  intros [H|(T & field & HT & Hf & [[_ (d & [=] & _)]|H])].
  - left. exact H.
  - right. exists T, field. auto.
Qed.

End Collector.

(** X11: the predicate [computeKeys] returns holds of a field iff a field
    with its coordinate is selected by a [@key] of an object or interface
    type, or is external and selected by a [@provides] on a field of an
    object type; [@key] applications on the field or its type play no
    part. *)
Theorem computeKeys_spec
        (collectTargetFields : Schema -> string -> Directive -> list FieldDefinition)
        (schema : Schema) (metadata : FederationMetadata)
        (isKey : FieldDefinition -> bool) (f : FieldDefinition) :
  federationMetadata schema = Some metadata ->
  computeKeys collectTargetFields schema = Some isKey ->
  isKey f = true <->
  keyField collectTargetFields schema metadata f
  \/ providedExternal collectTargetFields schema metadata f.
Proof.
  intros Hm Hc. unfold computeKeys, computeAllFieldsWithDirective in Hc.
  rewrite Hm in Hc. injection Hc as <-.
  rewrite bool_decide_eq_true. apply collectedCoordinates_keys.
Qed.

(** X11, run on [B.v] of the subgraph of the test "override field in a
    @provides". *)
Lemma computeKeys_spec_witness :
  exists isKey,
    computeKeys collectSelectedFields subgraph2 = Some isKey
    /\ (isKey field_B_v = true <->
        keyField collectSelectedFields subgraph2 subgraph2Metadata field_B_v
        \/ providedExternal collectSelectedFields subgraph2 subgraph2Metadata field_B_v).
Proof.
  eexists. split; [reflexivity|].
  apply (computeKeys_spec collectSelectedFields subgraph2 subgraph2Metadata);
    reflexivity.
Defined.

(** X12: every field [computeKeys] accepts, [computeShareables] accepts
    too. *)
Theorem computeKeys_shareable
        (collectTargetFields : Schema -> string -> Directive -> list FieldDefinition)
        (schema : Schema) (isKey isShareable : FieldDefinition -> bool)
        (f : FieldDefinition) :
  computeKeys collectTargetFields schema = Some isKey ->
  computeShareables collectTargetFields schema = Some isShareable ->
  isKey f = true -> isShareable f = true.
Proof.
  unfold computeKeys, computeShareables, computeAllFieldsWithDirective.
  destruct (federationMetadata schema) as [metadata|]; [|discriminate].
  intros [= <-] [= <-]. rewrite !bool_decide_eq_true.
  apply collectedCoordinates_mono.
Qed.

(** X12, run on the key field [A.id]. *)
Lemma computeKeys_shareable_witness :
  exists isShareable,
    computeShareables collectSelectedFields subgraph2 = Some isShareable
    /\ isShareable field_A_id = true.
Proof.
  eexists. split; [reflexivity|].
  eapply (computeKeys_shareable collectSelectedFields subgraph2 _ _ field_A_id).
  - reflexivity.
  - reflexivity.
  - vm_compute. reflexivity.
Defined.

(** X13: on a schema that is not a federation 2 schema, [computeShareables]
    and [computeKeys] return the same predicate. *)
Theorem computeShareables_fed1
        (collectTargetFields : Schema -> string -> Directive -> list FieldDefinition)
        (schema : Schema) (metadata : FederationMetadata) :
  federationMetadata schema = Some metadata ->
  isFed2Schema metadata = false ->
  computeShareables collectTargetFields schema = computeKeys collectTargetFields schema.
Proof.
  intros Hm Hfed.
  unfold computeShareables, computeKeys, computeAllFieldsWithDirective, fed2Directive.
  rewrite Hm, Hfed. now rewrite collectedCoordinates_unmarked.
Qed.

(** X13, run on the same subgraph read as a federation 1 schema. *)
Lemma computeShareables_fed1_witness :
  computeShareables collectSelectedFields fed1Subgraph
  = computeKeys collectSelectedFields fed1Subgraph.
Proof.
  apply (computeShareables_fed1 collectSelectedFields fed1Subgraph fed1Metadata);
    reflexivity.
Defined.

End KeysFacts.
(** ** Collected fields *)

Module CollectFacts.
Import Ast GraphQL Scope PlanningContext ScopeSpec CollectSpec.

Section WithContext.
Variable context : QueryPlanningContext.

Lemma collectFields_acc (fuel : nat) :
  forall scope selections fields,
    collectFields context fuel scope selections fields
    = do added <- collectFields context fuel scope selections [] ; Ok (fields ++ added).
Proof.
  induction fuel as [|fuel IH]; intros scope selections fields; simpl; [reflexivity|].
  destruct selections as [|selection rest]; simpl; [now rewrite app_nil_r|].
  assert (Hnested : forall newScope selectionSet,
             (do fields' <- collectFields context fuel newScope selectionSet fields ;
              collectFields context fuel scope rest fields')
             = do added <- (do fields' <- collectFields context fuel newScope selectionSet [] ;
                            collectFields context fuel scope rest fields') ;
               Ok (fields ++ added)).
  { intros newScope selectionSet.
    rewrite (IH newScope selectionSet fields).
    destruct (collectFields context fuel newScope selectionSet []) as [inner| |];
      simpl; try reflexivity.
    rewrite (IH scope rest (fields ++ inner)), (IH scope rest inner).
    destruct (collectFields context fuel scope rest []) as [more| |]; simpl;
      try reflexivity.
    now rewrite app_assoc. }
  destruct selection as [name dirs selectionSet|typeCondition dirs selectionSet|name dirs].
  - destruct (getFieldDef context (parentType scope) name) as [fieldDef| |]; simpl;
      try reflexivity.
    rewrite (IH scope rest (fields ++ _)), (IH scope rest [_]).
    destruct (collectFields context fuel scope rest []) as [more| |]; simpl;
      try reflexivity.
    now rewrite <- app_assoc.
  - destruct (scopeForFragment context scope typeCondition dirs) as [newScope|].
    + apply Hnested.
    + apply IH.
  - destruct (List.find _ (fragments context)) as [[n fragment]|].
    + destruct (scopeForFragment context scope (fr_typeCondition fragment) dirs)
        as [newScope|].
      * apply Hnested.
      * apply IH.
    + apply IH.
Qed.



(** The loops of [getKeyFields]: an accumulator that only grows. *)
Lemma fold_result_stuck {A B} (step : Result A -> B -> Result A) (l : list B)
      (r : Result A) :
  (forall b, step r b = r) -> fold_left step l r = r.
Proof.
  intros H. induction l as [|b l IH]; simpl; [reflexivity|]. now rewrite H.
Qed.

Lemma fold_append_prefix {B} (body : B -> Result FieldSet) (l : list B) :
  forall init result,
    fold_left
      (fun acc b => do sofar <- acc ; do more <- body b ; Ok (sofar ++ more))
      l (Ok init) = Ok result ->
    exists rest, result = init ++ rest.
Proof.
  induction l as [|b l IH]; intros init result; simpl.
  - intros [= <-]. exists []. now rewrite app_nil_r.
  - destruct (body b) as [more| |]; simpl.
    + intros H. apply IH in H as (rest & ->). exists (more ++ rest).
      now rewrite app_assoc.
    + rewrite fold_result_stuck by reflexivity. discriminate.
    + rewrite fold_result_stuck by reflexivity. discriminate.
Qed.

Lemma fold_append_nothing {B} (body : B -> Result FieldSet) (l : list B) (init : FieldSet) :
  (forall b, In b l -> body b = Ok []) ->
  fold_left
    (fun acc b => do sofar <- acc ; do more <- body b ; Ok (sofar ++ more))
    l (Ok init) = Ok init.
Proof.
  induction l as [|b l IH]; intros Hb; simpl; [reflexivity|].
  rewrite (Hb b) by now left. simpl. rewrite app_nil_r.
  apply IH. intros b' Hin. apply Hb. now right.
Qed.

End WithContext.

(** X14: handing [collectFields] an array to fill amounts to appending
    what it collects to that array: the entries already there stay, in
    place, and what is collected, thrown or left unfinished does not
    depend on them. *)
Theorem collectFields_appends (context : QueryPlanningContext) (fuel : nat)
        (scope : Scope) (selections : list SelectionNode) (fields : FieldSet) :
  collectFields context fuel scope selections fields
  = do added <- collectFields context fuel scope selections [] ; Ok (fields ++ added).
Proof. apply collectFields_acc. Qed.



(** X16: the field set [getKeyFields] returns begins with the
    [__typename] entry of the scope it was given. *)
Theorem getKeyFields_typename_first (context : QueryPlanningContext) (fuel : nat)
        (scope : Scope) (serviceName : string) (fetchAll : bool) (result : FieldSet) :
  getKeyFields context fuel scope serviceName fetchAll = Ok result ->
  exists rest, result = typenameEntry scope :: rest.
Proof.
  unfold getKeyFields. intros H.
  apply fold_append_prefix in H as (rest & ->). now exists rest.
Qed.

(** X16, run on [User] and the service [accounts]. *)
Lemma getKeyFields_typename_first_witness :
  exists result rest,
    getKeyFields exampleContext 5 (create "User") "accounts" false = Ok result
    /\ result = typenameEntry (create "User") :: rest.
Proof.
  eexists.
  destruct (getKeyFields_typename_first exampleContext 5 (create "User") "accounts" false
              _ eq_refl) as (rest & E).
  exists rest. split; [reflexivity | exact E].
Defined.

(** X17: when no possible runtime type of the scope declares a key for
    the service, [getKeyFields] returns the [__typename] entry alone,
    whether or not all keys were asked for. *)
Theorem getKeyFields_without_keys (context : QueryPlanningContext) (fuel : nat)
        (scope : Scope) (serviceName : string) (fetchAll : bool) :
  (forall t, In t (possibleRuntimeTypes context scope) ->
             declaredKeys context t serviceName = None
             \/ declaredKeys context t serviceName = Some []) ->
  getKeyFields context fuel scope serviceName fetchAll = Ok [typenameEntry scope].
Proof.
  intros Hkeys. unfold getKeyFields. apply fold_append_nothing.
  intros t Ht. unfold keyFieldsOfType.
  change (match getFederationMetadataForType (schema context) t with
          | Some {| tm_keys := Some byService |} =>
              option_map snd (List.find (fun e => String.eqb (fst e) serviceName) byService)
          | _ => None
          end) with (declaredKeys context t serviceName).
  destruct (Hkeys t Ht) as [-> | ->]; reflexivity.
Qed.

(** X17, run on [SearchResult] and a service no type has a key for. *)
Lemma getKeyFields_without_keys_witness :
  getKeyFields exampleContext 0 (create "SearchResult") "reviews" true
  = Ok [typenameEntry (create "SearchResult")].
Proof.
  apply getKeyFields_without_keys.
  intros t Ht. vm_compute in Ht.
  destruct Ht as [<-|[<-|[]]]; vm_compute; auto.
Defined.

End CollectFacts.
(** ** Mutable schemas *)

Module SchemaFacts.
Import Ast Som SomSpec SchemaSpec.

(** *** JavaScript maps *)

Lemma map_get_set_eq {K V} `{EqDecision K} (m : JsMap K V) (k : K) (v : V) :
  map_get (map_set m k v) k = Some v.
Proof.
  unfold map_get. induction m as [|[k' v'] m IH]; simpl.
  - now rewrite bool_decide_eq_true_2.
  - destruct (decide (k' = k)) as [->|Hne].
    + rewrite bool_decide_eq_true_2 by reflexivity. simpl.
      now rewrite bool_decide_eq_true_2.
    + rewrite bool_decide_eq_false_2 by assumption. simpl.
      rewrite bool_decide_eq_false_2 by assumption. exact IH.
Qed.

Lemma map_get_set_ne {K V} `{EqDecision K} (m : JsMap K V) (k k' : K) (v : V) :
  k' <> k -> map_get (map_set m k v) k' = map_get m k'.
Proof.
  intros Hne. unfold map_get. induction m as [|[k0 v0] m IH]; simpl.
  - rewrite bool_decide_eq_false_2 by congruence. reflexivity.
  - destruct (decide (k0 = k)) as [->|Hne0].
    + rewrite bool_decide_eq_true_2 by reflexivity. simpl.
      rewrite !bool_decide_eq_false_2 by congruence. reflexivity.
    + rewrite bool_decide_eq_false_2 by assumption. simpl.
      destruct (bool_decide (k0 = k')); [reflexivity | exact IH].
Qed.

(** *** Running a computation above a heap it does not read *)

Lemma run_alloc (h l : Heap) (o : Object) :
  alloc o (h ++ l) = inr (length h + length l, h ++ (l ++ [o])).
Proof. unfold alloc. now rewrite length_app, app_assoc. Qed.

Lemma run_deref (h l : Heap) (i : nat) (o : Object) :
  l !! i = Some o -> deref (length h + i) (h ++ l) = inr (o, h ++ l).
Proof.
  intros H. unfold deref. rewrite lookup_app_r by lia.
  replace (length h + i - length h) with i by lia. now rewrite H.
Qed.

Lemma run_store (h l : Heap) (i : nat) (o : Object) :
  i < length l ->
  store (length h + i) o (h ++ l) = inr (tt, h ++ <[i := o]> l).
Proof.
  intros Hi. unfold store. f_equal. f_equal.
  rewrite insert_app_r_alt by lia. f_equal. f_equal. lia.
Qed.

Ltac run_step :=
  first [ rewrite run_alloc
        | erewrite run_deref by reflexivity
        | rewrite run_store by (cbn [length]; lia) ];
  cbv beta iota; cbn [length app Nat.add list_insert insert].

Lemma lookup_above (h l : Heap) (i : nat) : (h ++ l) !! (length h + i) = l !! i.
Proof. rewrite lookup_app_r by lia. f_equal. lia. Qed.

Lemma empty_runs (h : Heap) :
  MutableSchema.empty h = inr (length h, h ++ emptySchemaObjects (length h)).
Proof.
  rewrite <- (app_nil_r h) at 1.
  unfold MutableSchema.empty, Ctors.schema, Ctors.createSchema, builtInTypeNames,
    Ctors.addSchemaDefinition, Ctors.createSchemaDefinition, Ctors.createScalarType,
    Ctors.createTypeOfKind, BaseSchema.setBuiltIn, BaseSchema.setSchemaDefinition,
    derefSchema, forEach, bind, ret.
  cbv beta. repeat run_step.
  unfold emptySchemaObjects, freshType. cbn.
  rewrite !Nat.add_0_r. reflexivity.
Qed.

Lemma type_runs (this : ptr) (name : string) (h : Heap) (s : SchemaObj) :
  h !! this = Some (Schema s) ->
  BaseSchema.type this name h = inr (resolve s name, h).
Proof.
  intros H. unfold BaseSchema.type, derefSchema, bind, deref, resolve. rewrite H. simpl.
  destruct (map_get (typesMap s) name); reflexivity.
Qed.

(** X18: [MutableSchema.empty()] always returns a new schema and leaves
    the objects that exist alone.  The schema has a schema definition
    without roots or directives, no type and no directive definition, and
    [type(name)] finds exactly the five built-in scalars, each attached to
    the schema. *)
Theorem empty_schema (h : Heap) :
  exists h',
    MutableSchema.empty h = inr (length h, h')
    /\ (forall p o, h !! p = Some o -> h' !! p = Some o)
    /\ describe h' (length h) = emptyShape
    /\ forall name,
        if bool_decide (In name builtInTypeNames)
        then exists p, typeOf h' (length h) name = Some p
                       /\ h' !! p = Some (freshType ScalarType name (length h))
        else typeOf h' (length h) name = None.
Proof.
  exists (h ++ emptySchemaObjects (length h)).
  split; [apply empty_runs|]. split.
  { intros p o Hp. rewrite lookup_app_l by (eapply lookup_lt_Some; eassumption).
    exact Hp. }
  assert (Hdoc : (h ++ emptySchemaObjects (length h)) !! length h
                 = emptySchemaObjects (length h) !! 0).
  { pose proof (lookup_above h (emptySchemaObjects (length h)) 0) as H.
    now rewrite Nat.add_0_r in H. }
  split.
  { unfold describe. rewrite Hdoc. cbn.
    unfold describeSchemaDefinition. rewrite lookup_above. reflexivity. }
  intros name. unfold typeOf.
  rewrite (type_runs _ _ _ _ Hdoc). unfold resolve. cbn [typesMap builtInTypes map_get].
  unfold map_get. cbn [List.find fst snd option_map].
  destruct (bool_decide (In name builtInTypeNames)) eqn:E.
  - apply bool_decide_eq_true in E. cbn in E.
    destruct E as [<-|[<-|[<-|[<-|[<-|[]]]]]]; cbn;
      eexists; (split; [reflexivity|]); cbn [snd]; rewrite lookup_above; reflexivity.
  - apply bool_decide_eq_false in E. cbn in E.
    rewrite !bool_decide_eq_false_2 by (intros <-; apply E; tauto). reflexivity.
Qed.

(** *** Adding types *)

Lemma addType_runs (this : ptr) (name : string) (kind : NamedKind) (h : Heap)
      (s : SchemaObj) :
  h !! this = Some (Schema s) ->
  MutableSchema.addType this name (fun n => Ctors.createTypeOfKind kind n (Some this)) h
  = match resolve s name with
    | Some _ => inl (alreadyExists name)
    | None =>
        inr (length h,
             <[this := Schema (with_typesMap s (map_set (typesMap s) name (length h)))]>
               (h ++ [freshType kind name this]))
    end.
Proof.
  intros Hthis.
  assert (Hlt : this < length h) by (eapply lookup_lt_Some; eassumption).
  unfold MutableSchema.addType, MutableSchema.ensureTypeNotFound.
  unfold bind at 1 2. rewrite (type_runs this name h s Hthis).
  destruct (resolve s name) as [existing|]; [reflexivity|].
  unfold ret at 1. unfold bind at 1.
  unfold Ctors.createTypeOfKind, alloc.
  unfold bind at 1. unfold derefNamedType, bind, deref.
  rewrite lookup_app_r by lia. rewrite Nat.sub_diag. simpl.
  unfold derefSchema, bind, deref.
  rewrite lookup_app_l by exact Hlt. rewrite Hthis. reflexivity.
Qed.

Lemma addObjectType_runs (this : ptr) (name : string) (h : Heap) (s : SchemaObj) :
  h !! this = Some (Schema s) ->
  MutableSchema.addObjectType this name h
  = match resolve s name with
    | Some _ => inl (alreadyExists name)
    | None =>
        inr (length h,
             <[this := Schema (with_typesMap s (map_set (typesMap s) name (length h)))]>
               (h ++ [freshType ObjectType name this]))
    end.
Proof. apply addType_runs. Qed.

Lemma addScalarType_runs (this : ptr) (name : string) (h : Heap) (s : SchemaObj) :
  h !! this = Some (Schema s) ->
  MutableSchema.addScalarType this name h
  = match map_get (builtInTypes s) name with
    | Some _ => inl (isBuiltIn name)
    | None =>
        match map_get (typesMap s) name with
        | Some _ => inl (alreadyExists name)
        | None =>
            inr (length h,
                 <[this := Schema (with_typesMap s (map_set (typesMap s) name (length h)))]>
                   (h ++ [freshType ScalarType name this]))
        end
    end.
Proof.
  intros Hthis. unfold MutableSchema.addScalarType.
  unfold bind at 1. unfold derefSchema, bind, deref. rewrite Hthis. simpl.
  destruct (map_get (builtInTypes s) name) as [b|] eqn:Hb; [reflexivity|].
  fold (Ctors.createTypeOfKind ScalarType).
  change (fun n => Ctors.createScalarType n (Some this))
    with (fun n => Ctors.createTypeOfKind ScalarType n (Some this)).
  rewrite (addType_runs this name ScalarType h s Hthis).
  unfold resolve. rewrite Hb. destruct (map_get (typesMap s) name); reflexivity.
Qed.

Lemma derefSchema_inv (this : ptr) (h h' : Heap) (s : SchemaObj) :
  derefSchema this h = inr (s, h') -> h' = h /\ h !! this = Some (Schema s).
Proof.
  unfold derefSchema, bind, deref. destruct (h !! this) as [o|]; [|discriminate].
  destruct o; try discriminate. intros [= <- <-]. auto.
Qed.

Lemma addObjectType_schema (this : ptr) (name : string) (h h' : Heap) (p : ptr) :
  MutableSchema.addObjectType this name h = inr (p, h') ->
  exists s, h !! this = Some (Schema s).
Proof.
  unfold MutableSchema.addObjectType, MutableSchema.addType,
    MutableSchema.ensureTypeNotFound, BaseSchema.type.
  unfold bind at 1 2 3.
  destruct (derefSchema this h) as [e|[s h0]] eqn:E; [discriminate|].
  apply derefSchema_inv in E as [_ E]. eauto.
Qed.

(** X19: on a schema, [addObjectType(name)] throws exactly when
    [type(name)] already finds a type, built-in scalars included, and what
    it throws then is the "already exists" error. *)
Theorem addObjectType_refuses (this : ptr) (name : string) (h : Heap) (s : SchemaObj) :
  h !! this = Some (Schema s) ->
  ((exists e, MutableSchema.addObjectType this name h = inl e)
   <-> is_Some (typeOf h this name))
  /\ forall e, MutableSchema.addObjectType this name h = inl e -> e = alreadyExists name.
Proof.
  intros Hthis. unfold typeOf.
  rewrite (addObjectType_runs this name h s Hthis), (type_runs this name h s Hthis).
  destruct (resolve s name) as [existing|]; split.
  - split; eauto.
  - now intros e [= <-].
  - split; [intros (e & [=]) | intros (x & [=])].
  - intros e [=].
Qed.

(** X19, run on the name [Int] and a fresh schema. *)
Lemma addObjectType_refuses_witness :
  ((exists e, MutableSchema.addObjectType 0 "Int" (emptySchemaObjects 0) = inl e)
   <-> is_Some (typeOf (emptySchemaObjects 0) 0 "Int"))
  /\ forall e, MutableSchema.addObjectType 0 "Int" (emptySchemaObjects 0) = inl e ->
               e = alreadyExists "Int".
Proof.
  eapply addObjectType_refuses. reflexivity.
Defined.

(** X20: after [addObjectType(name)] has returned, [type(name)] finds the
    type it returned, an object type of that name attached to the schema,
    without fields, directives or referencers; the other names resolve as
    before and the objects that existed, the schema apart, are as they
    were. *)
Theorem addObjectType_then_type (this : ptr) (name : string) (h h' : Heap) (p : ptr) :
  MutableSchema.addObjectType this name h = inr (p, h') ->
  typeOf h' this name = Some p
  /\ h' !! p = Some (freshType ObjectType name this)
  /\ h !! p = None
  /\ (forall other, other <> name -> typeOf h' this other = typeOf h this other)
  /\ forall q o, q <> this -> h !! q = Some o -> h' !! q = Some o.
Proof.
  intros Hrun.
  destruct (addObjectType_schema this name h h' p Hrun) as (s & Hthis).
  assert (Hlt : this < length h) by (eapply lookup_lt_Some; eassumption).
  rewrite (addObjectType_runs this name h s Hthis) in Hrun.
  destruct (resolve s name) as [existing|] eqn:Hres; [discriminate|].
  injection Hrun as <- <-.
  set (s' := with_typesMap s (map_set (typesMap s) name (length h))).
  assert (Hthis' : (<[this := Schema s']> (h ++ [freshType ObjectType name this])) !! this
                   = Some (Schema s')).
  { apply list_lookup_insert_eq. rewrite length_app. lia. }
  split; [|split; [|split; [|split]]].
  - unfold typeOf. rewrite (type_runs _ _ _ _ Hthis'). unfold resolve, s'. simpl.
    now rewrite map_get_set_eq.
  - rewrite list_lookup_insert_ne by lia.
    rewrite lookup_app_r by lia. now rewrite Nat.sub_diag.
  - apply lookup_ge_None_2. lia.
  - intros other Hne. unfold typeOf.
    rewrite (type_runs _ _ _ _ Hthis'), (type_runs _ _ _ _ Hthis).
    unfold resolve, s'. simpl. now rewrite map_get_set_ne by exact Hne.
  - intros q o Hq Ho. rewrite list_lookup_insert_ne by congruence.
    rewrite lookup_app_l by (eapply lookup_lt_Some; eassumption). exact Ho.
Qed.

(** X20, run on a fresh schema and the name [A]. *)
Lemma addObjectType_then_type_witness :
  exists p h',
    MutableSchema.addObjectType 0 "A" (emptySchemaObjects 0) = inr (p, h')
    /\ typeOf h' 0 "A" = Some p
    /\ h' !! p = Some (freshType ObjectType "A" 0).
Proof.
  do 2 eexists. split; [vm_compute; reflexivity|].
  pose proof (addObjectType_then_type 0 "A" (emptySchemaObjects 0) _ _ eq_refl)
    as (H1 & H2 & _).
  split; [exact H1 | exact H2].
Defined.

(** X21: [addOrGetObjectType] gets what it added: called again with the
    same name it returns the same type and changes nothing. *)
Theorem addOrGetObjectType_idempotent (this : ptr) (name : string) (h h' : Heap) (p : ptr) :
  MutableSchema.addOrGetObjectType this name h = inr (p, h') ->
  MutableSchema.addOrGetObjectType this name h' = inr (p, h').
Proof.
  unfold MutableSchema.addOrGetObjectType, MutableSchema.addOrGetType.
  unfold bind at 1.
  destruct (derefSchema this h) as [e|[s h0]] eqn:E; [discriminate|].
  apply derefSchema_inv in E as [-> Hthis].
  assert (Hlt : this < length h) by (eapply lookup_lt_Some; eassumption).
  destruct (map_get (typesMap s) name) as [existing|] eqn:Hget.
  - unfold bind at 1.
    destruct (derefNamedType existing h) as [e|[t h0]] eqn:Et; [discriminate|].
    assert (h0 = h) as ->.
    { unfold derefNamedType, bind, deref in Et.
      destruct (h !! existing) as [o|]; [|discriminate].
      destruct o; try discriminate. now injection Et. }
    destruct (bool_decide (nt_kind t = ObjectType)) eqn:Ek; [|discriminate].
    intros [= <- <-]. unfold bind at 1. unfold derefSchema, bind, deref.
    rewrite Hthis. simpl. rewrite Hget. unfold bind. rewrite Et, Ek. reflexivity.
  - rewrite (addObjectType_runs this name h s Hthis).
    destruct (resolve s name); [discriminate|]. intros [= <- <-].
    unfold bind at 1. unfold derefSchema, bind, deref.
    rewrite list_lookup_insert_eq by (rewrite length_app; lia). simpl.
    rewrite map_get_set_eq. unfold derefNamedType, bind, deref.
    rewrite list_lookup_insert_ne by lia.
    rewrite lookup_app_r by lia. rewrite Nat.sub_diag. reflexivity.
Qed.

(** X21, run on a fresh schema and the name [A]. *)
Lemma addOrGetObjectType_idempotent_witness :
  exists p h',
    MutableSchema.addOrGetObjectType 0 "A" (emptySchemaObjects 0) = inr (p, h')
    /\ MutableSchema.addOrGetObjectType 0 "A" h' = inr (p, h').
Proof.
  do 2 eexists. split; [vm_compute; reflexivity|].
  apply (addOrGetObjectType_idempotent 0 "A" (emptySchemaObjects 0)).
  vm_compute. reflexivity.
Defined.

(** X22: on the schema [MutableSchema.empty()] returns, the name of a
    built-in scalar cannot be taken: the four ways of adding a type
    throw, the scalar ones because the name is built-in and the object
    ones because the type exists. *)
Theorem builtIns_protected (h h' : Heap) (doc : ptr) (name : string) :
  MutableSchema.empty h = inr (doc, h') ->
  In name builtInTypeNames ->
  MutableSchema.addScalarType doc name h' = inl (isBuiltIn name)
  /\ MutableSchema.addOrGetScalarType doc name h' = inl (isBuiltIn name)
  /\ MutableSchema.addObjectType doc name h' = inl (alreadyExists name)
  /\ MutableSchema.addOrGetObjectType doc name h' = inl (alreadyExists name).
Proof.
  rewrite empty_runs. intros [= <- <-] Hname.
  pose proof (lookup_above h (emptySchemaObjects (length h)) 0) as Hdoc.
  rewrite Nat.add_0_r in Hdoc. cbn in Hdoc.
  set (s := mkSchemaObj _ _ _ _ _) in Hdoc.
  assert (Htypes : map_get (typesMap s) name = None) by reflexivity.
  assert (Hbuilt : is_Some (map_get (builtInTypes s) name)).
  { cbn in Hname. destruct Hname as [<-|[<-|[<-|[<-|[<-|[]]]]]]; eexists; reflexivity. }
  destruct Hbuilt as (b & Hb).
  assert (Hscalar : MutableSchema.addScalarType (length h) name
                      (h ++ emptySchemaObjects (length h)) = inl (isBuiltIn name)).
  { rewrite (addScalarType_runs _ _ _ s Hdoc). now rewrite Hb. }
  assert (Hobject : MutableSchema.addObjectType (length h) name
                      (h ++ emptySchemaObjects (length h)) = inl (alreadyExists name)).
  { rewrite (addObjectType_runs _ _ _ s Hdoc). unfold resolve. now rewrite Htypes, Hb. }
  split; [exact Hscalar|]. split; [|split; [exact Hobject|]].
  - unfold MutableSchema.addOrGetScalarType, MutableSchema.addOrGetType.
    unfold bind at 1. unfold derefSchema, bind, deref. rewrite Hdoc. simpl.
    exact Hscalar.
  - unfold MutableSchema.addOrGetObjectType, MutableSchema.addOrGetType.
    unfold bind at 1. unfold derefSchema, bind, deref. rewrite Hdoc. simpl.
    exact Hobject.
Qed.

(** X22, run on the empty heap and the name [ID]. *)
Lemma builtIns_protected_witness :
  MutableSchema.addScalarType 0 "ID" (emptySchemaObjects 0) = inl (isBuiltIn "ID")
  /\ MutableSchema.addOrGetScalarType 0 "ID" (emptySchemaObjects 0) = inl (isBuiltIn "ID")
  /\ MutableSchema.addObjectType 0 "ID" (emptySchemaObjects 0) = inl (alreadyExists "ID")
  /\ MutableSchema.addOrGetObjectType 0 "ID" (emptySchemaObjects 0)
     = inl (alreadyExists "ID").
Proof.
  apply (builtIns_protected [] (emptySchemaObjects 0) 0 "ID").
  - vm_compute. reflexivity.
  - simpl. tauto.
Defined.

(** *** Attachment is stable under writes that keep parents *)

Lemma schemaFrom_insert (h : Heap) (q : ptr) (o o' : Object) :
  h !! q = Some o -> sameLink o o' ->
  forall fuel p,
    BaseElement.schemaFrom fuel (<[q := o']> h) p = BaseElement.schemaFrom fuel h p.
Proof.
  intros Hq [Hparent Hkind].
  assert (Hlt : q < length h) by (eapply lookup_lt_Some; eassumption).
  assert (Hlook : forall p,
             match (<[q := o']> h) !! p, h !! p with
             | Some a', Some a => sameLink a a'
             | None, None => True
             | _, _ => False
             end).
  { intros p. destruct (decide (p = q)) as [->|Hne].
    - rewrite list_lookup_insert_eq by exact Hlt. rewrite Hq. split; assumption.
    - rewrite list_lookup_insert_ne by congruence.
      destruct (h !! p) as [a|]; [|exact I]. split; [reflexivity|].
      destruct a; exact I. }
  induction fuel as [|fuel IH]; intros p; simpl; [reflexivity|].
  pose proof (Hlook p) as Hp.
  destruct ((<[q := o']> h) !! p) as [a'|], (h !! p) as [a|]; try contradiction;
    [|reflexivity].
  destruct Hp as [-> _].
  destruct (BaseElement.parent a) as [up|]; [|reflexivity].
  pose proof (Hlook up) as Hup.
  destruct ((<[q := o']> h) !! up) as [b'|], (h !! up) as [b|]; try contradiction;
    [|reflexivity].
  destruct Hup as [_ Hup].
  destruct b, b'; try contradiction; try reflexivity; apply IH.
Qed.

Lemma schema_insert (h : Heap) (q : ptr) (o o' : Object) (p : ptr) :
  h !! q = Some o -> sameLink o o' ->
  BaseElement.schema p (<[q := o']> h)
  = inr (BaseElement.schemaFrom (length h) h p, <[q := o']> h).
Proof.
  intros Hq Hlink. unfold BaseElement.schema.
  rewrite length_insert. now rewrite (schemaFrom_insert h q o o' Hq Hlink).
Qed.

(** *** Unions *)

Lemma derefNamedType_inv (this : ptr) (h h' : Heap) (t : NamedTypeObj) :
  derefNamedType this h = inr (t, h') -> h' = h /\ h !! this = Some (NamedType t).
Proof.
  unfold derefNamedType, bind, deref. destruct (h !! this) as [o|]; [|discriminate].
  destruct o; try discriminate. intros [= <- <-]. auto.
Qed.

Lemma union_addType_again (this type : ptr) (h : Heap) (u : NamedTypeObj) :
  BaseElement.schemaFrom (length h) h type = BaseElement.schemaFrom (length h) h this ->
  h !! this = Some (NamedType u) ->
  (type ∈ typesList u) ->
  MutableUnionType.addType this type h = inr (tt, h).
Proof.
  intros Hs Hu Hin. unfold MutableUnionType.addType.
  unfold bind at 1 2. unfold BaseElement.schema at 1 2.
  rewrite bool_decide_eq_true_2 by exact Hs. simpl.
  cbv [bind derefNamedType deref ret]. rewrite Hu.
  now rewrite bool_decide_eq_true_2 by exact Hin.
Qed.

(** X23: when [addType] returns, the type is a member of the union, the
    members that were there are still there and a member list without
    duplicates stays without duplicates; adding the same type again changes
    nothing. *)
Theorem union_addType (this type : ptr) (h h' : Heap) (r : unit) :
  MutableUnionType.addType this type h = inr (r, h') ->
  (type ∈ membersOf h' this)
  /\ (forall x, x ∈ membersOf h this -> x ∈ membersOf h' this)
  /\ (NoDup (membersOf h this) -> NoDup (membersOf h' this))
  /\ MutableUnionType.addType this type h' = inr (tt, h').
Proof.
  intros H. unfold MutableUnionType.addType in H.
  unfold bind at 1 2 in H. unfold BaseElement.schema at 1 2 in H.
  destruct (bool_decide (BaseElement.schemaFrom (length h) h type
                         = BaseElement.schemaFrom (length h) h this)) eqn:Eside;
    simpl in H.
  2:{ unfold bind, throw, ret in H.
      destruct (derefNamedType type h) as [e|[t h1]]; [discriminate|].
      destruct (derefNamedType this h1) as [e|[u h2]]; discriminate. }
  apply bool_decide_eq_true in Eside.
  unfold bind at 1 in H.
  destruct (derefNamedType this h) as [e|[u h0]] eqn:Eu; [discriminate|].
  apply derefNamedType_inv in Eu as [-> Hthis].
  unfold membersOf. rewrite Hthis.
  destruct (bool_decide (type ∈ typesList u)) eqn:Ein.
  - apply bool_decide_eq_true in Ein. injection H as <- <-. rewrite Hthis.
    repeat split; auto. now apply (union_addType_again this type h u).
  - apply bool_decide_eq_false in Ein. unfold store in H. injection H as <- <-.
    assert (Hlt : this < length h) by (eapply lookup_lt_Some; eassumption).
    rewrite list_lookup_insert_eq by exact Hlt. simpl.
    assert (Hlink : sameLink (NamedType u)
                      (NamedType (with_typesList u (typesList u ++ [type]))))
      by (split; [reflexivity | exact I]).
    split; [|split; [|split]].
    + apply elem_of_app. right. now apply list_elem_of_singleton.
    + intros x Hx. apply elem_of_app. now left.
    + intros Hnd. apply NoDup_app. split; [assumption|]. split.
      * intros x Hx Hx'. apply list_elem_of_singleton in Hx'. now subst.
      * apply NoDup_singleton.
    + apply (union_addType_again this type _
               (with_typesList u (typesList u ++ [type]))).
      * rewrite length_insert.
        rewrite !(schemaFrom_insert h this _ _ Hthis Hlink). exact Eside.
      * now apply list_lookup_insert_eq.
      * simpl. apply elem_of_app. right. now apply list_elem_of_singleton.
Qed.

(** X23, run on the union [U = A | B] of the parsed document and the
    type [C]. *)
Lemma union_addType_witness :
  exists U C h h',
    run parsedUnion = inr ((U, C), h)
    /\ MutableUnionType.addType U C h = inr (tt, h')
    /\ (C ∈ membersOf h' U)
    /\ MutableUnionType.addType U C h' = inr (tt, h').
Proof.
  do 4 eexists. split; [vm_compute; reflexivity|].
  match goal with
  | |- MutableUnionType.addType ?U ?C ?h = inr (tt, ?h') /\ _ =>
      assert (Hrun : MutableUnionType.addType U C h = inr (tt, h'))
        by (vm_compute; reflexivity)
  end.
  split; [exact Hrun|].
  destruct (union_addType _ _ _ _ _ Hrun) as (H1 & _ & _ & H4).
  split; [exact H1 | exact H4].
Defined.

(** *** Fields *)

(** X24: [addField] returns only when the type had no field of that
    name; [field(name)] then finds the field it returned, a new object with
    that name, the type it was given and the object type as parent, and
    the other fields are found as before. *)
Theorem addField_then_field (this : ptr) (name : string) (type : TypeRef)
        (h h' : Heap) (f : ptr) :
  MutableObjectType.addField this name type h = inr (f, h') ->
  lookupField h this name = None
  /\ lookupField h' this name = Some f
  /\ h !! f = None
  /\ h' !! f = Some (FieldDefinition (mkFieldDefinitionObj name (Some this) (Some type) [] []))
  /\ forall other, other <> name -> lookupField h' this other = lookupField h this other.
Proof.
  unfold MutableObjectType.addField. unfold bind at 1.
  destruct (derefNamedType this h) as [e|[t h0]] eqn:Et; [discriminate|].
  apply derefNamedType_inv in Et as [-> Hthis].
  assert (Hlt : this < length h) by (eapply lookup_lt_Some; eassumption).
  destruct (map_get (fieldsMap t) name) eqn:Hget; [discriminate|].
  unfold bind at 1.
  destruct (schemaOfType type h) as [e|[typeSide h0]] eqn:Hs; [discriminate|].
  assert (h0 = h) as ->.
  { unfold schemaOfType, ListType.schema, BaseElement.schema in Hs.
    destruct type; [now injection Hs|].
    destruct (ListType.baseType _); [now injection Hs | discriminate]. }
  unfold bind at 1. unfold BaseElement.schema at 1.
  destruct (negb (bool_decide (typeSide = BaseElement.schemaFrom (length h) h this))).
  { unfold bind, throw. destruct (typeToString type h) as [e|[provided h1]]; discriminate. }
  unfold Ctors.createFieldDefinition, alloc, bind, derefNamedType, bind, deref, store, ret.
  rewrite lookup_app_l by exact Hlt. rewrite Hthis. simpl.
  intros [= <- <-]. unfold lookupField. rewrite Hthis.
  rewrite list_lookup_insert_eq by (rewrite length_app; lia). simpl.
  split; [exact Hget|]. split; [apply map_get_set_eq|].
  split; [apply lookup_ge_None_2; lia|]. split.
  - rewrite list_lookup_insert_ne by lia.
    rewrite lookup_app_r by lia. now rewrite Nat.sub_diag.
  - intros other Hne. now apply map_get_set_ne.
Qed.

(** X24, run on the type [A] of the parsed document and a new field
    [n: Int]. *)
Lemma addField_then_field_witness :
  exists A Int h f h',
    run parsedA = inr ((A, Int), h)
    /\ MutableObjectType.addField A "n" (NamedRef Int) h = inr (f, h')
    /\ lookupField h A "n" = None
    /\ lookupField h' A "n" = Some f.
Proof.
  do 5 eexists. split; [vm_compute; reflexivity|].
  match goal with
  | |- MutableObjectType.addField ?A ?n ?t ?h = inr (?f, ?h') /\ _ =>
      assert (Hrun : MutableObjectType.addField A n t h = inr (f, h'))
        by (vm_compute; reflexivity)
  end.
  split; [exact Hrun|].
  destruct (addField_then_field _ _ _ _ _ _ Hrun) as (H1 & H2 & _).
  split; [exact H1 | exact H2].
Defined.

(** *** Documents the builder refuses *)

Lemma forEach_fails {A} (body : A -> M unit) (l : list A) (a : A) :
  In a l -> (forall h, exists e, body a h = inl e) ->
  forall h, exists e, forEach l body h = inl e.
Proof.
  intros Hin Hfail. induction l as [|b l IH]; [contradiction|].
  intros h. simpl. unfold bind.
  destruct (body b h) as [e|[[] h1]] eqn:Eb; [eauto|].
  destruct Hin as [->|Hin].
  - destruct (Hfail h) as (e & He). congruence.
  - apply IH. exact Hin.
Qed.

(** X25: a document with an executable definition, an interface, an
    enumeration or an extension is never built: parsing it throws, in
    both worlds and whatever else the document holds. *)
Theorem parse_refuses_unsupported (w : World) (document : DocumentNode) (h : Heap) :
  existsb unsupported document = true ->
  exists e, buildSchemaInternal w document h = inl e.
Proof.
  intros Hex. apply existsb_exists in Hex as (d & Hd & Hun).
  unfold buildSchemaInternal. unfold bind at 1.
  destruct (SomFrame.Ctors_schema_runs w h) as (h1 & -> & _ & _).
  unfold bind at 1.
  destruct (buildNamedTypeShallow document (length h) h1) as [e|[[] h2]] eqn:Eshallow;
    [eauto|].
  assert (Hexec : d = OperationDefinition \/ d = FragmentDefinition).
  { unfold buildNamedTypeShallow in Eshallow.
    destruct d; try discriminate Hun; auto; exfalso;
      match type of Eshallow with
      | forEach _ ?body _ = _ =>
          destruct (forEach_fails body document _ Hd) with (h := h1) as (e & He);
            [intros h0; eexists; reflexivity | congruence]
      end. }
  unfold bind at 1.
  match goal with
  | |- context [forEach document ?body h2] =>
      destruct (forEach_fails body document d Hd) with (h := h2) as (e & He)
  end.
  - intros h0. destruct Hexec as [-> | ->]; eexists; reflexivity.
  - rewrite He. eauto.
Qed.

(** X25, run on a document with an enumeration. *)
Lemma parse_refuses_unsupported_witness :
  exists e, MutableSchema.parse documentWithEnum [] = inl e.
Proof.
  apply (parse_refuses_unsupported MutableWorld documentWithEnum []).
  reflexivity.
Defined.

End SchemaFacts.
(** ** Parsing registers every reference *)

Module SymmetryFacts.
Import Ast Som SomSpec SymmetrySpec.

Lemma keeps_refl (o : Object) : keeps o o.
Proof. destruct o; simpl; auto. Qed.

Lemma keeps_trans (o1 o2 o3 : Object) : keeps o1 o2 -> keeps o2 o3 -> keeps o1 o3.
Proof.
  destruct o1, o2; simpl; try contradiction; destruct o3; simpl; try contradiction;
    auto; congruence.
Qed.

Lemma grows_refl (h : Heap) : grows h h.
Proof. intros p o H. eauto using keeps_refl. Qed.

Lemma grows_trans (h1 h2 h3 : Heap) : grows h1 h2 -> grows h2 h3 -> grows h1 h3.
Proof.
  intros H12 H23 p o H. destruct (H12 p o H) as (o2 & H2 & K2).
  destruct (H23 p o2 H2) as (o3 & H3 & K3). eauto using keeps_trans.
Qed.

Lemma grows_app (h : Heap) (l : list Object) : grows h (h ++ l).
Proof.
  intros p o H. exists o. split; [|apply keeps_refl].
  rewrite lookup_app_l; [assumption | eapply lookup_lt_Some; eassumption].
Qed.

Lemma grows_insert (h : Heap) (q : ptr) (o o' : Object) :
  h !! q = Some o -> keeps o o' -> grows h (<[q := o']> h).
Proof.
  intros Hq K p op Hp. destruct (decide (p = q)) as [->|Hne].
  - exists o'. rewrite list_lookup_insert_eq by (eapply lookup_lt_Some; eassumption).
    split; [reflexivity|]. congruence.
  - exists op. rewrite list_lookup_insert_ne by congruence. auto using keeps_refl.
Qed.

Lemma referencersOf_grows (h h' : Heap) (T x : ptr) :
  grows h h' -> x ∈ referencersOf h T -> x ∈ referencersOf h' T.
Proof.
  intros G. unfold referencersOf. destruct (h !! T) as [o|] eqn:E.
  - destruct (G T o E) as (o' & -> & K).
    destruct o, o'; simpl in K; try contradiction; auto; intros H;
      try (now apply elem_of_nil in H).
  - intros H. now apply elem_of_nil in H.
Qed.

Lemma keeps_declared (o o' : Object) :
  declaresType o = true -> keeps o o' -> typesReferencedBy o' = typesReferencedBy o.
Proof.
  destruct o; try discriminate; destruct o'; simpl; try contradiction;
    intros _ ->; reflexivity.
Qed.

(** *** Steps *)

Lemma symmetricExcept_app (except : list ptr) (h : Heap) (o : Object) :
  symmetricExcept except h ->
  symmetricExcept (length h :: except) (h ++ [o]).
Proof.
  intros S X oX T HX Hex HT.
  assert (X <> length h) by (intros ->; apply Hex; now left).
  assert (Hlt : X < length h).
  { apply lookup_lt_Some in HX. rewrite length_app in HX. simpl in HX. lia. }
  rewrite lookup_app_l in HX by exact Hlt.
  apply (referencersOf_grows h); [apply grows_app|].
  apply (S X oX T HX); [|exact HT]. intros Hin. apply Hex. now right.
Qed.

Lemma symmetricExcept_alloc (except : list ptr) (h : Heap) (o : Object) :
  typesReferencedBy o = [] ->
  symmetricExcept except h -> symmetricExcept except (h ++ [o]).
Proof.
  intros Hnone S X oX T HX Hex HT.
  destruct (decide (X < length h)) as [Hlt|Hge].
  - rewrite lookup_app_l in HX by exact Hlt.
    apply (referencersOf_grows h); [apply grows_app|]. now apply (S X oX T).
  - pose proof (lookup_lt_Some _ _ _ HX) as Hl. rewrite length_app in Hl. simpl in Hl.
    assert (X = length h) as -> by lia.
    rewrite lookup_app_r, Nat.sub_diag in HX by lia. injection HX as <-.
    rewrite Hnone in HT. now apply elem_of_nil in HT.
Qed.

Lemma symmetricExcept_insert (except : list ptr) (h : Heap) (q : ptr) (o o' : Object) :
  h !! q = Some o -> keeps o o' ->
  (forall T, T ∈ typesReferencedBy o' -> T ∈ typesReferencedBy o) ->
  symmetricExcept except h -> symmetricExcept except (<[q := o']> h).
Proof.
  intros Hq K Hrefs S X oX T HX Hex HT.
  apply (referencersOf_grows h); [now apply (grows_insert h q o o')|].
  destruct (decide (X = q)) as [->|Hne].
  - rewrite list_lookup_insert_eq in HX by (eapply lookup_lt_Some; eassumption).
    injection HX as <-. apply (S q o T Hq Hex). now apply Hrefs.
  - rewrite list_lookup_insert_ne in HX by congruence. now apply (S X oX T).
Qed.

Lemma symmetricExcept_insert_open (except : list ptr) (h : Heap) (q : ptr)
      (o o' : Object) :
  h !! q = Some o -> keeps o o' ->
  symmetricExcept except h -> symmetricExcept (q :: except) (<[q := o']> h).
Proof.
  intros Hq K S X oX T HX Hex HT.
  assert (Hne : X <> q) by (intros ->; apply Hex; now left).
  apply (referencersOf_grows h); [now apply (grows_insert h q o o')|].
  rewrite list_lookup_insert_ne in HX by congruence.
  apply (S X oX T HX); [|exact HT]. intros Hin. apply Hex. now right.
Qed.

Lemma symmetricExcept_close (except : list ptr) (h : Heap) (p : ptr) :
  symmetricExcept (p :: except) h ->
  (p ∉ except ->
   forall o T, h !! p = Some o -> T ∈ typesReferencedBy o -> p ∈ referencersOf h T) ->
  symmetricExcept except h.
Proof.
  intros S Hp X oX T HX Hex HT. destruct (decide (X = p)) as [->|Hne].
  - now apply (Hp Hex oX T).
  - apply (S X oX T HX); [|exact HT].
    intros Hin. apply elem_of_cons in Hin as [?|?]; auto.
Qed.

(** *** Computations *)

Lemma registers_ret {A} (a : A) : registers (ret a).
Proof. intros h a' h' [= <- <-]. split; [apply grows_refl | auto]. Qed.

Lemma registers_throw {A} (e : Error) : registers (@throw A e).
Proof. intros h a h' [=]. Qed.

Lemma registers_bind {A B} (m : M A) (k : A -> M B) :
  registers m -> (forall a, registers (k a)) -> registers (bind m k).
Proof.
  intros Hm Hk h b h'. unfold bind. destruct (m h) as [e|[a h1]] eqn:E; [discriminate|].
  intros H. destruct (Hm h a h1 E) as [G1 S1]. destruct (Hk a h1 b h' H) as [G2 S2].
  split; [eapply grows_trans; eassumption | auto].
Qed.

Lemma registers_forEach {A} (l : list A) (body : A -> M unit) :
  (forall a, registers (body a)) -> registers (forEach l body).
Proof.
  intros Hb. induction l as [|a l IH]; simpl.
  - apply registers_ret.
  - apply registers_bind; auto.
Qed.

Lemma registers_deref (p : ptr) : registers (deref p).
Proof.
  intros h a h'. unfold deref. destruct (h !! p); [|discriminate].
  intros [= <- <-]. split; [apply grows_refl | auto].
Qed.

Lemma registers_schema (p : ptr) : registers (BaseElement.schema p).
Proof. intros h a h' [= <- <-]. split; [apply grows_refl | auto]. Qed.

Lemma registers_alloc (o : Object) :
  typesReferencedBy o = [] -> registers (alloc o).
Proof.
  intros Hnone h a h' [= <- <-]. split; [apply grows_app|].
  intros except. now apply symmetricExcept_alloc.
Qed.

Lemma registers_store (q : ptr) (o' : Object) (h : Heap) (o : Object) :
  h !! q = Some o -> keeps o o' ->
  (forall T, T ∈ typesReferencedBy o' -> T ∈ typesReferencedBy o) ->
  grows h (<[q := o']> h)
  /\ forall except, symmetricExcept except h -> symmetricExcept except (<[q := o']> h).
Proof.
  intros Hq K Hrefs. split; [now apply (grows_insert h q o o')|].
  intros except. now apply (symmetricExcept_insert except h q o o').
Qed.

Create HintDb registers.
#[local] Hint Resolve registers_ret registers_throw registers_deref registers_schema
  : registers.

Ltac registers_step :=
  first
    [ solve [auto with registers]
    | apply registers_alloc; reflexivity
    | apply registers_bind; [|intros ?]
    | apply registers_forEach; intros ?
    | match goal with
      | |- registers (match ?x with _ => _ end) => destruct x
      | |- registers (if ?x then _ else _) => destruct x
      | |- registers (let _ := _ in _) => cbv zeta
      end ].

Ltac registers_parts := repeat registers_step.

(** Computations that read an object and write it back changed once. *)
Ltac registers_write :=
  let h := fresh "h" in
  let a := fresh "a" in
  let h' := fresh "h'" in
  let H := fresh "H" in
  intros h a h' H;
  cbv [bind deref store ret throw derefNamedType derefSchema argumentName fieldName] in H;
  repeat SomFrame.innermost_case H;
  injection H as <- <-;
  (eapply registers_store; [eassumption | simpl; auto | simpl; auto]).

Lemma registers_derefNamedType (p : ptr) : registers (derefNamedType p).
Proof. unfold derefNamedType. registers_parts. Qed.

Lemma registers_derefSchema (p : ptr) : registers (derefSchema p).
Proof. unfold derefSchema. registers_parts. Qed.

#[local] Hint Resolve registers_derefNamedType registers_derefSchema : registers.

Lemma registers_type (schema : ptr) (name : string) :
  registers (BaseSchema.type schema name).
Proof. unfold BaseSchema.type. registers_parts. Qed.

Lemma registers_typeIn (schema : option ptr) (name : string) :
  registers (typeIn schema name).
Proof. unfold typeIn. destruct schema; auto using registers_type with registers. Qed.

Lemma registers_addAppliedDirective (this directive : ptr) :
  registers (BaseElement.addAppliedDirective this directive).
Proof.
  unfold BaseElement.addAppliedDirective, BaseElement.pushAppliedDirective.
  intros h a h' H.
  cbv [bind deref store ret throw] in H.
  destruct (h !! this) as [o|] eqn:E; [|discriminate].
  destruct o; try discriminate; injection H as <- <-;
    (eapply registers_store; [eassumption | simpl; auto | simpl; auto]).
Qed.

Lemma set_add_keeps (s : list ptr) (x y : ptr) : x ∈ s -> x ∈ set_add s y.
Proof.
  unfold set_add. destruct (bool_decide (y ∈ s)); [auto|].
  intros H. apply elem_of_app. now left.
Qed.

Lemma set_add_adds (s : list ptr) (y : ptr) : y ∈ set_add s y.
Proof.
  unfold set_add. destruct (bool_decide (y ∈ s)) eqn:E.
  - now apply bool_decide_eq_true in E.
  - apply elem_of_app. right. now apply list_elem_of_singleton.
Qed.

Lemma registers_addReferencer (this referencer : ptr) :
  registers (BaseNamedType.addReferencer this referencer).
Proof.
  unfold BaseNamedType.addReferencer.
  intros h a h' H.
  cbv [bind deref store ret throw derefNamedType] in H.
  repeat SomFrame.innermost_case H. injection H as <- <-.
  eapply registers_store; [eassumption | | simpl; auto].
  simpl. intros x. apply set_add_keeps.
Qed.

Lemma addReferencer_adds (this referencer : ptr) (h h' : Heap) (r : unit) :
  BaseNamedType.addReferencer this referencer h = inr (r, h') ->
  referencer ∈ referencersOf h' this.
Proof.
  unfold BaseNamedType.addReferencer. intros H.
  cbv [bind deref store ret throw derefNamedType] in H.
  repeat SomFrame.innermost_case H. injection H as <- <-.
  unfold referencersOf.
  rewrite list_lookup_insert_eq by (eapply lookup_lt_Some; eassumption).
  simpl. apply set_add_adds.
Qed.

#[local] Hint Resolve registers_type registers_typeIn registers_addAppliedDirective
  registers_addReferencer : registers.

Lemma registers_addReferencerToType (referencer : ptr) (type : option TypeRef) :
  registers (addReferencerToType referencer type).
Proof. unfold addReferencerToType. registers_parts. Qed.

Lemma addReferencerToType_adds (referencer : ptr) (type : option TypeRef) (h h' : Heap)
      (r : unit) (T : ptr) :
  addReferencerToType referencer type h = inr (r, h') ->
  T ∈ declaredBase type -> referencer ∈ referencersOf h' T.
Proof.
  unfold addReferencerToType, declaredBase. destruct type as [t|]; [|discriminate].
  destruct (ListType.baseType t) as [base|]; [|discriminate].
  intros H HT. apply list_elem_of_singleton in HT as ->.
  eapply addReferencer_adds. eassumption.
Qed.

Lemma registers_addTypeDefinition (namedType schema : ptr) :
  registers (addTypeDefinition namedType schema).
Proof. unfold addTypeDefinition. registers_write. Qed.

Lemma registers_addDirectiveDefinition (definition schema : ptr) :
  registers (addDirectiveDefinition definition schema).
Proof. unfold addDirectiveDefinition. registers_write. Qed.

Lemma registers_addFieldArg (arg field : ptr) : registers (addFieldArg arg field).
Proof. unfold addFieldArg. registers_write. Qed.

Lemma registers_addDirectiveArg (arg directive : ptr) :
  registers (addDirectiveArg arg directive).
Proof. unfold addDirectiveArg. registers_write. Qed.

Lemma registers_addField (field objectType : ptr) : registers (addField field objectType).
Proof. unfold addField. registers_write. Qed.

Lemma registers_setBuiltIn (this : ptr) (name : string) (type : ptr) :
  registers (BaseSchema.setBuiltIn this name type).
Proof. unfold BaseSchema.setBuiltIn. registers_write. Qed.

Lemma registers_setSchemaDefinition (this definition : ptr) :
  registers (BaseSchema.setSchemaDefinition this definition).
Proof. unfold BaseSchema.setSchemaDefinition. registers_write. Qed.

(** *** Links written before they are registered *)

(** Writing a new reference to [t] into the object at [q], then
    registering [q] with [t]: what [addRoot] and [addTypeToUnion] do. *)
Lemma registers_link (q t : ptr) (o o' : Object) (h h' : Heap) (r : unit) :
  h !! q = Some o -> keeps o o' ->
  (forall T, T ∈ typesReferencedBy o' -> T = t \/ T ∈ typesReferencedBy o) ->
  BaseNamedType.addReferencer t q (<[q := o']> h) = inr (r, h') ->
  grows h h' /\ forall except, symmetricExcept except h -> symmetricExcept except h'.
Proof.
  intros Hq K Hrefs Hadd.
  pose proof (grows_insert h q o o' Hq K) as G1.
  destruct (registers_addReferencer t q _ _ _ Hadd) as [G2 S2].
  pose proof (addReferencer_adds t q _ _ _ Hadd) as Hin.
  assert (G : grows h h') by (eapply grows_trans; eassumption).
  split; [exact G|]. intros except S.
  apply (symmetricExcept_close except h' q).
  { apply S2. now apply (symmetricExcept_insert_open except h q o o'). }
  intros Hex oq T Hoq HT.
  assert (Hsame : forall T, T ∈ typesReferencedBy oq -> T ∈ typesReferencedBy o').
  { assert (Hlt : q < length h) by (eapply lookup_lt_Some; eassumption).
    unfold BaseNamedType.addReferencer in Hadd.
    cbv [bind deref store ret throw derefNamedType] in Hadd.
    repeat SomFrame.innermost_case Hadd. injection Hadd as <- <-.
    destruct (decide (t = q)) as [->|Hne].
    - rewrite list_lookup_insert_eq in Hoq by (rewrite length_insert; exact Hlt).
      injection Hoq as <-.
      match goal with
      | E : <[q := o']> h !! q = Some _ |- _ =>
          rewrite list_lookup_insert_eq in E by exact Hlt; injection E as ->
      end.
      simpl. auto.
    - rewrite list_lookup_insert_ne in Hoq by congruence.
      rewrite list_lookup_insert_eq in Hoq by exact Hlt. injection Hoq as <-. auto. }
  destruct (Hrefs T (Hsame T HT)) as [->|Hold]; [exact Hin|].
  apply (referencersOf_grows h); [exact G|]. now apply (S q o T).
Qed.

Lemma typeIn_inv (schema : option ptr) (name : string) (h h' : Heap) (r : option ptr) :
  typeIn schema name h = inr (r, h') -> h' = h.
Proof.
  unfold typeIn, BaseSchema.type. destruct schema as [s|]; [|discriminate].
  cbv [bind deref ret throw derefSchema].
  destruct (h !! s) as [o|]; [|discriminate]. destruct o; try discriminate.
  destruct (map_get _ name); now intros [= _ <-].
Qed.

Lemma map_values_set {K V} `{EqDecision K} (m : JsMap K V) (k : K) (v x : V) :
  x ∈ map_values (map_set m k v) -> x = v \/ x ∈ map_values m.
Proof.
  unfold map_values. induction m as [|[k' v'] m IH]; simpl.
  - intros H. apply list_elem_of_singleton in H. now left.
  - destruct (bool_decide (k' = k)); simpl; intros H;
      apply elem_of_cons in H as [->|H]; auto.
    + right. apply elem_of_cons. now right.
    + right. apply elem_of_cons. now left.
    + destruct (IH H) as [->|H']; auto. right. apply elem_of_cons. now right.
Qed.

Lemma registers_addTypeToUnion (typeName : string) (unionType : ptr) :
  registers (addTypeToUnion typeName unionType).
Proof.
  intros h a h' H. unfold addTypeToUnion in H.
  unfold bind at 1 in H. unfold BaseElement.schema at 1 in H.
  unfold bind at 1 in H.
  destruct (typeIn _ typeName h) as [e|[type h0]] eqn:Et; [discriminate|].
  apply typeIn_inv in Et as ->.
  unfold bind at 1 in H.
  destruct (derefNamedType unionType h) as [e|[u h0]] eqn:Eu; [discriminate|].
  apply SchemaFacts.derefNamedType_inv in Eu as [-> Hu].
  destruct (bool_decide (nt_kind u = UnionType)); [|discriminate].
  destruct type as [t|]; [|discriminate].
  unfold bind at 1, store at 1 in H. simpl in H.
  eapply (registers_link unionType t); [exact Hu | | | exact H].
  - simpl. auto.
  - simpl. intros T HT. apply elem_of_app in HT as [HT|HT]; [now right|].
    apply list_elem_of_singleton in HT. now left.
Qed.

Lemma registers_addRoot (root : SchemaRoot) (typeName : string) (schemaDefinition : ptr) :
  registers (addRoot root typeName schemaDefinition).
Proof.
  intros h a h' H. unfold addRoot in H.
  unfold bind at 1 in H. unfold BaseElement.schema at 1 in H.
  unfold bind at 1 in H.
  destruct (typeIn _ typeName h) as [e|[type h0]] eqn:Et; [discriminate|].
  apply typeIn_inv in Et as ->.
  unfold bind at 1, deref at 1 in H.
  destruct (h !! schemaDefinition) as [o|] eqn:Hd; [|discriminate].
  destruct o as [|d| | | | | |]; try (destruct type; discriminate).
  destruct type as [t|]; [|discriminate].
  unfold bind at 1, store at 1 in H. simpl in H.
  eapply (registers_link schemaDefinition t); [exact Hd | | | exact H].
  - simpl. auto.
  - simpl. intros T HT. apply map_values_set in HT. tauto.
Qed.

#[local] Hint Resolve registers_addReferencerToType registers_addTypeDefinition
  registers_addDirectiveDefinition registers_addFieldArg registers_addDirectiveArg
  registers_addField registers_addTypeToUnion registers_addRoot registers_setBuiltIn
  registers_setSchemaDefinition : registers.

(** *** Elements under construction *)

Lemma closes_bind {A B} (p : ptr) (type : option TypeRef) (m : M A) (k : A -> M B) :
  registers m -> (forall a, closes p type (k a)) -> closes p type (bind m k).
Proof.
  intros Hm Hk h b h'. unfold bind. destruct (m h) as [e|[a h1]] eqn:E; [discriminate|].
  intros H. destruct (Hm h a h1 E) as [G1 S1].
  destruct (Hk a h1 b h' H) as (G2 & S2 & R).
  split; [eapply grows_trans; eassumption|]. split; auto.
Qed.

Lemma closes_register {A} (p : ptr) (type : option TypeRef) (a : A) :
  closes p type (addReferencerToType p type ;; ret a).
Proof.
  intros h b h'. unfold bind.
  destruct (addReferencerToType p type h) as [e|[[] h1]] eqn:E; [discriminate|].
  intros [= <- <-].
  destruct (registers_addReferencerToType p type h tt h1 E) as [G S].
  split; [exact G|]. split; [exact S|].
  intros T HT. eapply addReferencerToType_adds; eassumption.
Qed.

(** An element allocated with its declared type and registered before the
    builder returns it. *)
Lemma registers_construct {A} (o : Object) (type : option TypeRef) (k : ptr -> M A) :
  declaresType o = true ->
  typesReferencedBy o = declaredBase type ->
  (forall p, closes p type (k p)) ->
  registers (bind (alloc o) k).
Proof.
  intros Hdecl Hrefs Hk h a h'. unfold bind, alloc. intros H.
  destruct (Hk (length h) (h ++ [o]) a h' H) as (G & S & R).
  split; [eapply grows_trans; [apply grows_app | exact G]|].
  intros except Sh.
  apply (symmetricExcept_close except h' (length h)).
  { apply S. now apply symmetricExcept_app. }
  intros _ o' T Ho' HT.
  assert (Ho : (h ++ [o]) !! length h = Some o)
    by (rewrite lookup_app_r, Nat.sub_diag by lia; reflexivity).
  destruct (G (length h) o Ho) as (o2 & Ho2 & K).
  assert (o2 = o') as -> by congruence.
  rewrite (keeps_declared o o' Hdecl K), Hrefs in HT. now apply R.
Qed.

Ltac closes_step :=
  first
    [ apply closes_register
    | apply closes_bind; [solve [registers_parts] | intros ?] ].

Section Builders.

Variable w : World.

Lemma registers_buildDirective (directiveNode : DirectiveNode) (element : ptr) :
  registers (buildDirective directiveNode element).
Proof. unfold buildDirective, Ctors.createDirective. registers_parts. Qed.

Lemma registers_buildAppliedDirectives (directives : list DirectiveNode) (element : ptr) :
  registers (buildAppliedDirectives directives element).
Proof.
  unfold buildAppliedDirectives. pose proof registers_buildDirective. registers_parts.
Qed.

Lemma registers_buildWrapperTypeOrTypeRef (typeNode : TypeNode) (schema : option ptr) :
  registers (buildWrapperTypeOrTypeRef typeNode schema).
Proof.
  induction typeNode as [name|inner IH|inner IH]; simpl; registers_parts.
Qed.

#[local] Hint Resolve registers_buildDirective registers_buildAppliedDirectives
  registers_buildWrapperTypeOrTypeRef : registers.

Lemma registers_buildFieldArgumentDefinition (inputNode : InputValueDefinitionNode)
      (parent : ptr) :
  registers (buildFieldArgumentDefinition inputNode parent).
Proof.
  unfold buildFieldArgumentDefinition, Ctors.createFieldArgumentDefinition.
  apply registers_bind; [registers_parts | intros schema].
  apply registers_bind; [registers_parts | intros type].
  apply (registers_construct _ type); [reflexivity | reflexivity | intros p].
  repeat closes_step.
Qed.

#[local] Hint Resolve registers_buildFieldArgumentDefinition : registers.

Lemma registers_buildFieldDefinition (fieldNode : FieldDefinitionNode) (parentType : ptr) :
  registers (buildFieldDefinition fieldNode parentType).
Proof.
  unfold buildFieldDefinition, Ctors.createFieldDefinition.
  apply registers_bind; [registers_parts | intros schema].
  apply registers_bind; [registers_parts | intros type].
  apply (registers_construct _ type); [reflexivity | reflexivity | intros p].
  repeat closes_step.
Qed.

Lemma registers_buildInputFieldDefinition (fieldNode : InputValueDefinitionNode)
      (parentType : ptr) :
  registers (buildInputFieldDefinition fieldNode parentType).
Proof.
  unfold buildInputFieldDefinition, Ctors.createInputFieldDefinition.
  apply registers_bind; [registers_parts | intros schema].
  apply registers_bind; [registers_parts | intros type].
  apply (registers_construct _ type); [reflexivity | reflexivity | intros p].
  repeat closes_step.
Qed.

Lemma registers_buildDirectiveDefinition (name : string)
      (arguments : list InputValueDefinitionNode) (parent : ptr) :
  registers (buildDirectiveDefinition name arguments parent).
Proof.
  unfold buildDirectiveDefinition, buildDirectiveArgumentDefinition,
    Ctors.createDirectiveDefinition.
  registers_parts.
Qed.

#[local] Hint Resolve registers_buildFieldDefinition registers_buildInputFieldDefinition
  registers_buildDirectiveDefinition : registers.

Lemma registers_createNamedType (kind : NamedKind + string) (name : string) (schema : ptr) :
  registers (Ctors.createNamedType kind name schema).
Proof. unfold Ctors.createNamedType, Ctors.createTypeOfKind. registers_parts. Qed.

#[local] Hint Resolve registers_createNamedType : registers.

Lemma registers_buildNamedTypeShallow (documentNode : DocumentNode) (schema : ptr) :
  registers (buildNamedTypeShallow documentNode schema).
Proof. unfold buildNamedTypeShallow. registers_parts. Qed.

Lemma registers_buildNamedTypeInner (definitionNode : DefinitionNode) (type : option ptr) :
  registers (buildNamedTypeInner definitionNode type).
Proof. unfold buildNamedTypeInner. registers_parts. Qed.

Lemma registers_schemaDefinition (schema : ptr) :
  registers (BaseSchema.schemaDefinition schema).
Proof. unfold BaseSchema.schemaDefinition. registers_parts. Qed.

#[local] Hint Resolve registers_schemaDefinition : registers.

Lemma registers_buildSchemaDefinition (directives : list DirectiveNode)
      (operationTypes : list (SchemaRoot * string)) (schema : ptr) :
  registers (buildSchemaDefinition directives operationTypes schema).
Proof.
  unfold buildSchemaDefinition, Ctors.addSchemaDefinition, Ctors.createSchemaDefinition.
  registers_parts.
Qed.

Lemma registers_schema_ctor : registers (Ctors.schema w).
Proof.
  unfold Ctors.schema, Ctors.createSchema, Ctors.createScalarType, Ctors.createTypeOfKind.
  registers_parts.
Qed.

#[local] Hint Resolve registers_buildNamedTypeShallow registers_buildNamedTypeInner
  registers_buildSchemaDefinition registers_schema_ctor : registers.

Lemma registers_buildSchemaInternal (documentNode : DocumentNode) :
  registers (buildSchemaInternal w documentNode).
Proof. unfold buildSchemaInternal. registers_parts. Qed.

End Builders.

Section Copies.

Variable destWorld : World.

Lemma registers_checkDetached {A} (v : option A) :
  registers (Ctors.checkDetached destWorld v).
Proof. unfold Ctors.checkDetached. registers_parts. Qed.

#[local] Hint Resolve registers_checkDetached : registers.

Lemma registers_copyDirective (source parentDest : ptr) :
  registers (copyDirective source parentDest).
Proof. unfold copyDirective, Ctors.createDirective. registers_parts. Qed.

Lemma registers_copyAppliedDirectives (source dest : ptr) :
  registers (copyAppliedDirectives source dest).
Proof.
  unfold copyAppliedDirectives. pose proof registers_copyDirective. registers_parts.
Qed.

Lemma registers_copyTypeRef (destParent : option ptr) :
  forall source, registers (copyTypeRef destWorld source destParent).
Proof.
  fix IH 1. intros [p|[inner|]]; simpl.
  - registers_parts.
  - apply registers_bind; [apply IH | intros ?; registers_parts].
  - registers_parts.
Qed.

Lemma registers_copyWrapperTypeOrTypeRef (source : option TypeRef)
      (destParent : option ptr) :
  registers (copyWrapperTypeOrTypeRef destWorld source destParent).
Proof.
  unfold copyWrapperTypeOrTypeRef.
  destruct source; auto using registers_copyTypeRef with registers.
Qed.

#[local] Hint Resolve registers_copyDirective registers_copyAppliedDirectives
  registers_copyWrapperTypeOrTypeRef : registers.

Lemma registers_copyFieldArgumentDefinition (source destParent : ptr) :
  registers (copyFieldArgumentDefinition destWorld source destParent).
Proof.
  unfold copyFieldArgumentDefinition, Ctors.createFieldArgumentDefinition.
  apply registers_bind; [registers_parts | intros o].
  destruct o; try apply registers_throw.
  apply registers_bind; [registers_parts | intros schema].
  apply registers_bind; [registers_parts | intros type].
  apply (registers_construct _ type); [reflexivity | reflexivity | intros p].
  repeat closes_step.
Qed.

#[local] Hint Resolve registers_copyFieldArgumentDefinition : registers.

Lemma registers_copyFieldDefinition (source destParent : ptr) :
  registers (copyFieldDefinition destWorld source destParent).
Proof.
  unfold copyFieldDefinition, Ctors.createFieldDefinition.
  apply registers_bind; [registers_parts | intros o].
  destruct o; try apply registers_throw.
  apply registers_bind; [registers_parts | intros schema].
  apply registers_bind; [registers_parts | intros type].
  apply (registers_construct _ type); [reflexivity | reflexivity | intros p].
  repeat closes_step.
Qed.

Lemma registers_copyInputFieldDefinition (source destParent : ptr) :
  registers (copyInputFieldDefinition destWorld source destParent).
Proof.
  unfold copyInputFieldDefinition, Ctors.createInputFieldDefinition.
  apply registers_bind; [registers_parts | intros o].
  destruct o; try apply registers_throw.
  apply registers_bind; [registers_parts | intros schema].
  apply registers_bind; [registers_parts | intros type].
  apply (registers_construct _ type); [reflexivity | reflexivity | intros p].
  repeat closes_step.
Qed.

#[local] Hint Resolve registers_copyFieldDefinition registers_copyInputFieldDefinition
  : registers.

Lemma registers_copyNamedTypeInner (source : ptr) (dest : option ptr) :
  registers (copyNamedTypeInner destWorld source dest).
Proof. unfold copyNamedTypeInner. registers_parts. Qed.

Lemma registers_copyNamedTypeShallow (source schema : ptr) :
  registers (copyNamedTypeShallow source schema).
Proof. unfold copyNamedTypeShallow. registers_parts. Qed.

Lemma registers_copyDirectiveDefinition (source destParent : ptr) :
  registers (copyDirectiveDefinition destWorld source destParent).
Proof.
  unfold copyDirectiveDefinition, copyDirectiveArgumentDefinition,
    Ctors.createDirectiveDefinition.
  registers_parts.
Qed.

Lemma registers_copySchemaDefinitionInner (source dest : ptr) :
  registers (copySchemaDefinitionInner source dest).
Proof. unfold copySchemaDefinitionInner. registers_parts. Qed.

Lemma registers_addSchemaDefinition (schema : ptr) :
  registers (Ctors.addSchemaDefinition schema).
Proof.
  unfold Ctors.addSchemaDefinition, Ctors.createSchemaDefinition. registers_parts.
Qed.

#[local] Hint Resolve registers_copyNamedTypeInner registers_copyNamedTypeShallow
  registers_copyDirectiveDefinition registers_copySchemaDefinitionInner
  registers_addSchemaDefinition registers_schema_ctor registers_schemaDefinition
  registers_createNamedType : registers.

Lemma registers_copy (source : ptr) : registers (copy destWorld source).
Proof. unfold copy. registers_parts. Qed.

End Copies.

Lemma symmetric_referencerSymmetry (h : Heap) (schema : ptr) :
  symmetric h -> referencerSymmetry h schema = true.
Proof.
  intros S. unfold referencerSymmetry. apply forallb_forall. intros X _.
  destruct (h !! X) as [o|] eqn:E; [|reflexivity].
  apply orb_true_iff. right. apply forallb_forall. intros T HT.
  apply bool_decide_eq_true. apply (S X o T E).
  - apply not_elem_of_nil.
  - now apply list_elem_of_In.
Qed.

(** X26: parsing registers every reference it creates.  Whatever the
    document, when building the schema returns, every element of the heap
    that refers to a type (a field, input field or argument through the
    type it declares, a union through its members, the schema definition
    through its roots) is listed among the referencers of that type,
    provided that was so of the objects that existed before; in
    particular the referencer symmetry of the new schema holds. *)
Theorem parse_registers_references (w : World) (document : DocumentNode)
        (h h' : Heap) (schema : ptr) :
  symmetric h ->
  buildSchemaInternal w document h = inr (schema, h') ->
  symmetric h' /\ referencerSymmetry h' schema = true.
Proof.
  intros S H.
  destruct (registers_buildSchemaInternal w document h schema h' H) as [_ S'].
  assert (Sh' : symmetric h') by (apply S'; exact S).
  split; [exact Sh' | now apply symmetric_referencerSymmetry].
Qed.

(** X26, run on the document with directives, arguments, an input type
    and a union. *)
Lemma parse_registers_references_witness :
  exists schema h',
    run (MutableSchema.parse documentRich) = inr (schema, h')
    /\ symmetric h'
    /\ referencerSymmetry h' schema = true.
Proof.
  do 2 eexists. split; [vm_compute; reflexivity|].
  apply (parse_registers_references MutableWorld documentRich []).
  - intros X o T HX. rewrite lookup_nil in HX. discriminate.
  - vm_compute. reflexivity.
Defined.

(** X27: converting a schema registers every reference it creates:
    when [toMutable] or [toImmutable] returns, every element that refers
    to a type is listed among the referencers of that type, the copy's
    included, provided that was so before the conversion. *)
Theorem copy_registers_references (destWorld : World) (source : ptr) (h h' : Heap)
        (copied : ptr) :
  symmetric h ->
  copy destWorld source h = inr (copied, h') ->
  symmetric h' /\ referencerSymmetry h' copied = true.
Proof.
  intros S H.
  destruct (registers_copy destWorld source h copied h' H) as [_ S'].
  assert (Sh' : symmetric h') by (apply S'; exact S).
  split; [exact Sh' | now apply symmetric_referencerSymmetry].
Qed.

(** X27, run on the schema parsed from the same document. *)
Lemma copy_registers_references_witness :
  exists schema h copied h',
    run (MutableSchema.parse documentRich) = inr (schema, h)
    /\ MutableSchema.toImmutable schema h = inr (copied, h')
    /\ symmetric h'
    /\ referencerSymmetry h' copied = true.
Proof.
  do 4 eexists. split; [vm_compute; reflexivity|].
  match goal with
  | |- MutableSchema.toImmutable ?s ?h = inr (?c, ?h') /\ _ =>
      assert (Hrun : copy ImmutableWorld s h = inr (c, h'))
        by (vm_compute; reflexivity)
  end.
  split; [exact Hrun|].
  refine (copy_registers_references ImmutableWorld _ _ _ _ _ Hrun).
  refine (proj2 (registers_buildSchemaInternal MutableWorld documentRich [] 0 _ _) [] _).
  - vm_compute. reflexivity.
  - intros X o T HX. rewrite lookup_nil in HX. discriminate.
Defined.

End SymmetryFacts.
(** ** Removing a named type *)

Module RemovalFacts.
Import Ast Som SomSpec Removal RemovalSpec.

(** *** What removal leaves alone *)

Lemma untouched_refl (o : Object) : untouched o o.
Proof. destruct o; repeat split. Qed.

Lemma untouched_trans (o1 o2 o3 : Object) :
  untouched o1 o2 -> untouched o2 o3 -> untouched o1 o3.
Proof.
  intros [[R1 C1] N1] [[R2 C2] N2].
  destruct o1, o2; try contradiction; destruct o3; try contradiction;
    repeat split; simpl in *; congruence.
Qed.

Lemma spares_ret {A} (a : A) : spares (ret a).
Proof. intros h a' h' [= <- <-] p o Hp. exists o. split; [assumption | apply untouched_refl]. Qed.

Lemma spares_throw {A} (e : Error) : spares (@throw A e).
Proof. intros h a h' [=]. Qed.

Lemma spares_deref (p : ptr) : spares (deref p).
Proof.
  intros h a h'. unfold deref. destruct (h !! p); [|discriminate].
  intros [= <- <-] q oq Hq. exists oq. split; [assumption | apply untouched_refl].
Qed.

Lemma spares_bind {A B} (m : M A) (k : A -> M B) :
  spares m -> (forall a, spares (k a)) -> spares (bind m k).
Proof.
  intros Hm Hk h b h'. unfold bind. destruct (m h) as [e|[a h1]] eqn:E; [discriminate|].
  intros H p o Hp.
  destruct (Hm h a h1 E p o Hp) as (o1 & Hp1 & L1).
  destruct (Hk a h1 b h' H p o1 Hp1) as (o2 & Hp2 & L2).
  exists o2. split; [assumption|]. exact (untouched_trans _ _ _ L1 L2).
Qed.

Lemma spares_store (q : ptr) (o' : Object) (h : Heap) (o : Object) :
  h !! q = Some o -> untouched o o' ->
  forall p op, h !! p = Some op ->
               exists op', (<[q := o']> h) !! p = Some op' /\ untouched op op'.
Proof.
  intros Hq L p op Hp. destruct (decide (p = q)) as [->|Hne].
  - exists o'. rewrite list_lookup_insert_eq by (eapply lookup_lt_Some; eassumption).
    split; [reflexivity|]. congruence.
  - exists op. rewrite list_lookup_insert_ne by congruence.
    split; [assumption | apply untouched_refl].
Qed.

Lemma with_appliedDirectives_links (o o' : Object) (l : list ptr) :
  with_appliedDirectives o l = Some o' -> untouched o o'.
Proof. destruct o; simpl; intros [= <-]; repeat split. Qed.

Lemma spares_removeDirective (this : ptr) : spares (MutableDirective.remove this).
Proof.
  intros h a h' H. unfold MutableDirective.remove in H.
  cbv [bind deref store ret throw] in H.
  destruct (h !! this) as [o|] eqn:Hthis; [|discriminate].
  destruct o as [| | | | | | |d]; try discriminate.
  destruct (dir_parent d) as [_parent|].
  2:{ injection H as <- <-. intros p o Hp. exists o.
      split; [assumption | apply untouched_refl]. }
  destruct (h !! _parent) as [parent|] eqn:Hparent; [|discriminate].
  destruct (with_appliedDirectives parent (BaseElement.appliedDirectives parent))
    as [same|] eqn:Esame; [|discriminate].
  destruct (indexOf (BaseElement.appliedDirectives parent) this) as [index|];
    [|discriminate].
  injection H as <- <-.
  destruct (with_appliedDirectives parent
              (delete index (BaseElement.appliedDirectives parent))) as [parent'|] eqn:E.
  2:{ destruct parent; discriminate. }
  simpl. intros p o Hp.
  destruct (spares_store _parent parent' h parent Hparent
              (with_appliedDirectives_links _ _ _ E) p o Hp) as (o1 & Hp1 & L1).
  assert (Hthis1 : exists d1, (<[_parent := parent']> h) !! this = Some (Directive d1)).
  { destruct (spares_store _parent parent' h parent Hparent
                (with_appliedDirectives_links _ _ _ E) this _ Hthis)
      as (o2 & Hp2 & [[_ C] _]).
    destruct o2; try contradiction. eauto. }
  destruct Hthis1 as (d1 & Hd1).
  destruct (spares_store this (Directive (mkDirectiveObj (dir_name d) None (dir_args d)))
              _ (Directive d1) Hd1 (conj (conj eq_refl I) I) p o1 Hp1)
    as (o2 & Hp2 & L2).
  exists o2. split; [assumption|]. exact (untouched_trans _ _ _ L1 L2).
Qed.

Lemma spares_removeAppliedDirectives (turns : nat) (this : ptr) :
  forall index, spares (removeAppliedDirectives turns this index).
Proof.
  induction turns as [|turns IH]; intros index; simpl.
  - apply spares_ret.
  - apply spares_bind; [apply spares_deref | intros o].
    destruct (BaseElement.appliedDirectives o !! index); [|apply spares_ret].
    apply spares_bind; [apply spares_removeDirective | intros _; apply IH].
Qed.

Lemma spares_derefNamedType (p : ptr) : spares (derefNamedType p).
Proof.
  unfold derefNamedType. apply spares_bind; [apply spares_deref | intros o].
  destruct o; auto using spares_ret, spares_throw.
Qed.

Lemma spares_removeTypeDefinition (namedType schema : ptr) :
  spares (removeTypeDefinition namedType schema).
Proof.
  intros h a h' H. unfold removeTypeDefinition in H.
  cbv [bind deref store ret throw derefNamedType derefSchema] in H.
  repeat SomFrame.innermost_case H. injection H as <- <-.
  eapply spares_store; [eassumption | repeat split].
Qed.

Lemma spares_detach (this : ptr) : spares (detach this).
Proof.
  intros h a h' H. unfold detach in H.
  cbv [bind deref store ret throw derefNamedType] in H.
  repeat SomFrame.innermost_case H. injection H as <- <-.
  eapply spares_store; [eassumption | repeat split].
Qed.

Lemma spares_removeDirectives (this : ptr) : spares (removeDirectives this).
Proof.
  unfold removeDirectives.
  apply spares_bind; [apply spares_derefNamedType | intros t].
  apply spares_removeAppliedDirectives.
Qed.

Lemma derefNamedType_run (this : ptr) (h : Heap) (t : NamedTypeObj) :
  h !! this = Some (NamedType t) -> derefNamedType this h = inr (t, h).
Proof. intros H. unfold derefNamedType, bind, deref. now rewrite H. Qed.

(** X28: when [remove] returns on an attached scalar type, it returns the
    elements the type listed as referencers, in order, and has emptied
    that list; but every element of the heap still refers to the types
    it referred to, the removed one included: the references are not
    cleared. *)
Theorem remove_keeps_references (this schema : ptr) (t : NamedTypeObj) (h h' : Heap)
        (returned : list ptr) :
  h !! this = Some (NamedType t) ->
  nt_parent t = Some schema ->
  MutableScalarType.remove this h = inr (returned, h') ->
  returned = _referencers t
  /\ referencersOf h' this = []
  /\ forall X o, h !! X = Some o ->
                 exists o', h' !! X = Some o' /\ sameReferences o o'.
Proof.
  intros Hthis Hparent. unfold MutableScalarType.remove.
  unfold bind at 1. rewrite (derefNamedType_run this h t Hthis).
  rewrite Hparent. intros H.
  assert (Hsp : spares (removeTypeDefinition this schema ;; detach this ;;
                        removeDirectives this)).
  { apply spares_bind; [apply spares_removeTypeDefinition | intros _].
    apply spares_bind; [apply spares_detach | intros _].
    apply spares_removeDirectives. }
  match type of H with
  | ?m h = _ =>
      assert (Heq : m h
                    = ((removeTypeDefinition this schema ;; detach this ;;
                        removeDirectives this) ;; clearReferencers this) h)
  end.
  { unfold bind.
    destruct (removeTypeDefinition this schema h) as [e|[[] h1]]; [reflexivity|].
    destruct (detach this h1) as [e|[[] h2]]; [reflexivity|].
    destruct (removeDirectives this h2) as [e|[[] h3]]; reflexivity. }
  rewrite Heq in H. clear Heq. unfold bind at 1 in H.
  destruct ((removeTypeDefinition this schema ;; detach this ;; removeDirectives this) h)
    as [e|[[] h3]] eqn:E3; [discriminate|].
  pose proof (Hsp h tt h3 E3) as Hspared.
  destruct (Hspared this _ Hthis) as (o3 & Hthis3 & [[Hrefs Hclass] Hreferencers]).
  destruct o3 as [| |t3| | | | |]; try contradiction.
  unfold clearReferencers, derefNamedType, bind, deref, store, ret in H.
  rewrite Hthis3 in H. simpl in H. injection H as <- <-.
  assert (Hlt : this < length h3) by (eapply lookup_lt_Some; eassumption).
  split; [exact Hreferencers|]. split.
  - unfold referencersOf. now rewrite list_lookup_insert_eq by exact Hlt.
  - intros X o HX. destruct (Hspared X o HX) as (o' & HX' & [L _]).
    destruct (decide (X = this)) as [->|Hne].
    + rewrite list_lookup_insert_eq by exact Hlt. eexists. split; [reflexivity|].
      assert (o = NamedType t) as -> by congruence.
      split; [exact Hrefs | exact I].
    + rewrite list_lookup_insert_ne by congruence. eauto.
Qed.

(** X28, run on the scalar [S] that the field [A.s] refers to. *)
Lemma remove_keeps_references_witness :
  exists S f h returned h',
    run parsedTagged = inr ((S, f), h)
    /\ MutableScalarType.remove S h = inr (returned, h')
    /\ returned = [f]
    /\ referencersOf h' S = []
    /\ referencedType h' f = Some S.
Proof.
  do 5 eexists. split; [vm_compute; reflexivity|].
  match goal with
  | |- MutableScalarType.remove ?S ?h = inr (?r, ?h') /\ _ =>
      assert (Hrun : MutableScalarType.remove S h = inr (r, h'))
        by (vm_compute; reflexivity)
  end.
  split; [exact Hrun|].
  pose proof (fun t Ht Hp => remove_keeps_references 6 0 t _ _ _ Ht Hp Hrun) as H.
  destruct (H _ eq_refl eq_refl) as (H1 & H2 & _).
  split; [exact H1|]. split; [exact H2 | reflexivity].
Defined.

(** *** The loop over the applied directives *)

Lemma indexOf_middle (kept rest : list ptr) (a : ptr) :
  a ∉ kept -> indexOf (kept ++ a :: rest) a = Some (length kept).
Proof.
  induction kept as [|k kept IH]; simpl; intros Hnot.
  - now rewrite bool_decide_eq_true_2.
  - rewrite bool_decide_eq_false_2.
    + rewrite IH; [reflexivity|]. intros Hin. apply Hnot. now right.
    + intros ->. apply Hnot. now left.
Qed.

Lemma pairs_ind {A} (P : list A -> Prop) :
  P [] -> (forall a, P [a]) -> (forall a b r, P r -> P (a :: b :: r)) ->
  forall l, P l.
Proof.
  intros H0 H1 H2 l.
  enough (P l /\ forall a, P (a :: l)) by tauto.
  induction l as [|b r [IH1 IH2]]; [now split|].
  split; [apply IH2 | intros a; now apply H2].
Qed.

Lemma evens_elem {A} (l : list A) (x : A) : x ∈ evens l -> x ∈ l.
Proof.
  induction l as [|a|a b r IH] using pairs_ind; simpl; [auto | auto |].
  intros H. apply elem_of_cons in H as [->|H]; [now left|].
  right. right. now apply IH.
Qed.

Lemma odds_elem {A} (l : list A) (x : A) : x ∈ odds l -> x ∈ l.
Proof.
  induction l as [|a|a b r IH] using pairs_ind; simpl;
    try (intros H; now apply elem_of_nil in H).
  intros H. apply elem_of_cons in H as [->|H]; [right; now left|].
  right. right. now apply IH.
Qed.

Lemma odds_not_evens {A} (l : list A) (x : A) :
  NoDup l -> x ∈ odds l -> x ∉ evens l.
Proof.
  induction l as [|a|a b r IH] using pairs_ind; simpl; intros Hnd Ho;
    try (now apply elem_of_nil in Ho).
  apply NoDup_cons in Hnd as [Ha Hnd'].
  apply NoDup_cons in Hnd' as [Hb Hnd''].
  intros He. apply elem_of_cons in He as [->|He].
  - apply elem_of_cons in Ho as [->|Ho].
    + apply Ha. now left.
    + apply Ha. right. now apply odds_elem.
  - apply elem_of_cons in Ho as [->|Ho].
    + apply Hb. now apply evens_elem.
    + now apply IH in Ho.
Qed.

Lemma with_nt_appliedDirectives_same (t : NamedTypeObj) (l : list ptr) :
  nt_appliedDirectives t = l -> with_nt_appliedDirectives t l = t.
Proof. intros <-. now destruct t. Qed.

Lemma removeDirective_run (this a : ptr) (h : Heap) (t : NamedTypeObj) (o : DirectiveObj)
      (kept rest : list ptr) :
  h !! this = Some (NamedType t) ->
  nt_appliedDirectives t = kept ++ a :: rest ->
  a ∉ kept ->
  h !! a = Some (Directive o) -> dir_parent o = Some this ->
  MutableDirective.remove a h
  = inr (true,
         <[a := Directive (mkDirectiveObj (dir_name o) None (dir_args o))]>
           (<[this := NamedType (with_nt_appliedDirectives t (kept ++ rest))]> h)).
Proof.
  intros Hthis Harr Hnot Ha Hparent.
  unfold MutableDirective.remove, bind, deref. rewrite Ha. simpl. rewrite Hparent.
  rewrite Hthis. simpl. rewrite Harr, (indexOf_middle kept rest a Hnot). simpl.
  rewrite delete_middle. reflexivity.
Qed.

Lemma loop_skips (this : ptr) :
  forall turns rest kept h t,
    length rest < turns ->
    h !! this = Some (NamedType t) ->
    nt_appliedDirectives t = kept ++ rest ->
    NoDup (kept ++ rest) ->
    (forall d, d ∈ rest ->
               exists o, h !! d = Some (Directive o) /\ dir_parent o = Some this) ->
    exists h',
      removeAppliedDirectives turns this (length kept) h = inr (tt, h')
      /\ h' !! this = Some (NamedType (with_nt_appliedDirectives t (kept ++ odds rest)))
      /\ (forall d, d ∈ evens rest -> parentOf h' d = None)
      /\ forall p, p <> this -> p ∉ evens rest -> h' !! p = h !! p.
Proof.
  induction turns as [|turns IH]; intros rest kept h t Hturns Hthis Harr Hnd Hdirs;
    [lia|].
  assert (Hlt : this < length h) by (eapply lookup_lt_Some; eassumption).
  simpl. unfold bind at 1. unfold deref at 1. rewrite Hthis. simpl. rewrite Harr.
  destruct rest as [|a rest].
  { rewrite lookup_ge_None_2 by (rewrite app_nil_r; lia).
    exists h. split; [reflexivity|]. split.
    - simpl. now rewrite (with_nt_appliedDirectives_same t _ Harr).
    - split; [intros d Hd; now apply elem_of_nil in Hd | reflexivity]. }
  rewrite list_lookup_middle by reflexivity.
  destruct (Hdirs a) as (oa & Ha & Hpa); [now left|].
  assert (Hat : a <> this) by (intros ->; congruence).
  assert (Hnot : a ∉ kept).
  { intros Hin. apply NoDup_app in Hnd as (_ & Hdisj & _).
    apply (Hdisj a Hin). now left. }
  unfold bind at 1.
  rewrite (removeDirective_run this a h t oa kept rest Hthis Harr Hnot Ha Hpa).
  set (h1 := <[a := _]> (<[this := _]> h)).
  assert (Hthis1 : h1 !! this
                   = Some (NamedType (with_nt_appliedDirectives t (kept ++ rest)))).
  { subst h1. rewrite list_lookup_insert_ne by exact Hat.
    now apply list_lookup_insert_eq. }
  assert (Ha1 : parentOf h1 a = None).
  { subst h1. unfold parentOf.
    rewrite list_lookup_insert_eq; [reflexivity|].
    rewrite length_insert. eapply lookup_lt_Some; eassumption. }
  assert (Hframe1 : forall p, p <> this -> p <> a -> h1 !! p = h !! p).
  { intros p Hp1 Hp2. subst h1. now rewrite !list_lookup_insert_ne by congruence. }
  destruct rest as [|b rest].
  { destruct turns as [|turns]; [simpl in Hturns; lia|].
    simpl. unfold bind at 1. unfold deref at 1. rewrite Hthis1. simpl.
    rewrite lookup_ge_None_2 by (rewrite app_nil_r; lia).
    exists h1. split; [reflexivity|]. split; [exact Hthis1|]. split.
    - intros d Hd. simpl in Hd. apply list_elem_of_singleton in Hd as ->. exact Ha1.
    - intros p Hp1 Hp2. apply Hframe1; [exact Hp1|].
      intros ->. apply Hp2. simpl. now left. }
  assert (Hnd1 : NoDup ((kept ++ [b]) ++ rest)).
  { rewrite <- app_assoc. simpl.
    apply NoDup_app in Hnd as (Hk & Hdisj & Hr). apply NoDup_app.
    split; [exact Hk|]. split.
    - intros x Hx Hin. apply (Hdisj x Hx). now right.
    - now apply NoDup_cons in Hr as [_ Hr]. }
  assert (Hab : a <> b /\ a ∉ rest).
  { apply NoDup_app in Hnd as (_ & _ & Hnd). apply NoDup_cons in Hnd as [Hin _].
    split; [intros ->; apply Hin; now left | intros H; apply Hin; now right]. }
  destruct Hab as [Hab Harest].
  destruct (IH rest (kept ++ [b]) h1 (with_nt_appliedDirectives t (kept ++ b :: rest)))
    as (h' & Hrun & Hthis' & Hevens & Hframe).
  - simpl in Hturns. lia.
  - exact Hthis1.
  - simpl. now rewrite <- app_assoc.
  - exact Hnd1.
  - intros d Hd. rewrite Hframe1.
    + apply Hdirs. right. now right.
    + intros ->. destruct (Hdirs this) as (o & Ho & _); [right; now right | congruence].
    + intros ->. contradiction.
  - exists h'. rewrite length_app in Hrun. simpl in Hrun.
    rewrite Nat.add_1_r in Hrun. split; [exact Hrun|]. split.
    + rewrite Hthis'. unfold with_nt_appliedDirectives. simpl.
      now rewrite <- app_assoc.
    + assert (Haev : a ∉ evens rest) by (intros H; apply Harest; now apply evens_elem).
      split.
      * intros d Hd. simpl in Hd. apply elem_of_cons in Hd as [->|Hd]; [|now apply Hevens].
        unfold parentOf. rewrite (Hframe a Hat Haev). exact Ha1.
      * intros p Hp1 Hp2. simpl in Hp2.
        assert (p <> a) by (intros ->; apply Hp2; now left).
        rewrite Hframe; [now apply Hframe1 | exact Hp1 |].
        intros H'. apply Hp2. now right.
Qed.

(** X29: [remove] goes through the applied directives of the type while
    each [directive.remove()] splices the array it goes through, so only
    every other directive is removed.  On an attached scalar type whose
    directive applications are distinct objects with the type as parent,
    [remove] returns; the type is then detached and still has the
    directives that stood at the odd positions, which still have it as
    parent; those at the even positions are detached. *)
Theorem remove_skips_directives (this schema : ptr) (t : NamedTypeObj) (s : SchemaObj)
        (h : Heap) :
  h !! this = Some (NamedType t) ->
  nt_parent t = Some schema ->
  h !! schema = Some (Schema s) ->
  wellLinked h this ->
  exists returned h',
    MutableScalarType.remove this h = inr (returned, h')
    /\ parentOf h' this = None
    /\ directivesOf h' this = odds (nt_appliedDirectives t)
    /\ (forall d, d ∈ odds (nt_appliedDirectives t) -> parentOf h' d = Some this)
    /\ forall d, d ∈ evens (nt_appliedDirectives t) -> parentOf h' d = None.
Proof.
  intros Hthis Hparent Hschema [Hnd Hdirs].
  unfold directivesOf in Hnd, Hdirs. rewrite Hthis in Hnd, Hdirs. simpl in Hnd, Hdirs.
  assert (Hts : this <> schema) by (intros ->; congruence).
  assert (Hlt : this < length h) by (eapply lookup_lt_Some; eassumption).
  assert (Hls : schema < length h) by (eapply lookup_lt_Some; eassumption).
  unfold MutableScalarType.remove.
  unfold bind at 1. rewrite (derefNamedType_run this h t Hthis). rewrite Hparent.
  unfold bind at 1. unfold removeTypeDefinition at 1.
  unfold bind at 1. rewrite (derefNamedType_run this h t Hthis).
  unfold bind at 1. unfold derefSchema at 1, bind at 1, deref at 1. rewrite Hschema.
  unfold ret at 1, store at 1.
  set (h1 := <[schema := _]> h).
  assert (Hthis1 : h1 !! this = Some (NamedType t)).
  { subst h1. now rewrite list_lookup_insert_ne by congruence. }
  unfold bind at 1. unfold detach at 1.
  unfold bind at 1. rewrite (derefNamedType_run this h1 t Hthis1). unfold store at 1.
  set (h2 := <[this := _]> h1).
  assert (Hthis2 : h2 !! this = Some (NamedType (with_nt_parent t None))).
  { subst h2. apply list_lookup_insert_eq. subst h1. now rewrite length_insert. }
  assert (Hframe2 : forall p, p <> this -> p <> schema -> h2 !! p = h !! p).
  { intros p Hp1 Hp2. subst h2 h1. now rewrite !list_lookup_insert_ne by congruence. }
  unfold bind at 1. unfold removeDirectives at 1.
  unfold bind at 1. rewrite (derefNamedType_run this h2 _ Hthis2).
  destruct (loop_skips this (S (length (nt_appliedDirectives t)))
              (nt_appliedDirectives t) [] h2 (with_nt_parent t None))
    as (h3 & Hrun & Hthis3 & Hevens & Hframe3).
  - simpl. lia.
  - exact Hthis2.
  - reflexivity.
  - exact Hnd.
  - intros d Hd. destruct (Hdirs d Hd) as (o & Ho & Hpo).
    exists o. split; [|exact Hpo]. rewrite Hframe2; [exact Ho | |];
      intros ->; congruence.
  - change (length (@nil ptr)) with 0 in Hrun.
    change (nt_appliedDirectives (with_nt_parent t None))
      with (nt_appliedDirectives t).
    rewrite Hrun.
    unfold clearReferencers, bind. rewrite (derefNamedType_run this h3 _ Hthis3).
    unfold store, ret. do 2 eexists. split; [reflexivity|].
    assert (Hlt3 : this < length h3) by (eapply lookup_lt_Some; eassumption).
    assert (Hother : forall d,
               d ∈ nt_appliedDirectives t ->
               d <> this /\ d <> schema).
    { intros d Hd. destruct (Hdirs d Hd) as (o & Ho & _).
      split; intros ->; congruence. }
    split; [|split; [|split]].
    + unfold parentOf. now rewrite list_lookup_insert_eq by exact Hlt3.
    + unfold directivesOf. now rewrite list_lookup_insert_eq by exact Hlt3.
    + intros d Hd.
      destruct (Hother d (odds_elem _ _ Hd)) as [Hd1 Hd2].
      destruct (Hdirs d (odds_elem _ _ Hd)) as (o & Ho & Hpo).
      unfold parentOf. rewrite list_lookup_insert_ne by congruence.
      rewrite (Hframe3 d Hd1 (odds_not_evens _ d Hnd Hd)).
      rewrite (Hframe2 d Hd1 Hd2), Ho. exact Hpo.
    + intros d Hd.
      destruct (Hother d (evens_elem _ _ Hd)) as [Hd1 _].
      unfold parentOf. rewrite list_lookup_insert_ne by congruence.
      now apply Hevens.
Qed.

(** X29, run on the scalar [S] of [scalar S @tag @tag(name: "b") @tag]:
    the second directive stays. *)
Lemma remove_skips_directives_witness :
  exists S f h returned h',
    run parsedTagged = inr ((S, f), h)
    /\ MutableScalarType.remove S h = inr (returned, h')
    /\ length (directivesOf h S) = 3
    /\ directivesOf h' S = odds (directivesOf h S).
Proof.
  do 3 eexists.
  match goal with
  | |- exists returned h', run parsedTagged = inr ((?S, ?f), ?h) /\ _ =>
      assert (Hparsed : run parsedTagged = inr ((S, f), h)) by (vm_compute; reflexivity)
  end.
  match type of Hparsed with
  | _ = inr ((?S, _), ?h) =>
      destruct (fun t s Ht Hp Hs => remove_skips_directives S 0 t s h Ht Hp Hs)
        with (t := default (mkNamedTypeObj ScalarType EmptyString None [] [] [] [])
                     (match h !! S with Some (NamedType t) => Some t | _ => None end))
             (s := default (mkSchemaObj true None [] [] [])
                     (match h !! 0 with Some (Schema s) => Some s | _ => None end))
        as (returned & h' & Hrun & _ & Hodds & _)
  end.
  - reflexivity.
  - reflexivity.
  - reflexivity.
  - split.
    + apply bool_decide_unpack with (dec := NoDup_dec _). vm_compute. reflexivity.
    + intros d Hd. vm_compute in Hd.
      apply list_elem_of_In in Hd. simpl in Hd.
      destruct Hd as [<-|[<-|[<-|[]]]]; eexists; split; reflexivity.
  - exists returned, h'. split; [exact Hparsed|]. split; [exact Hrun|].
    split; [reflexivity | exact Hodds].
Defined.

(** *** Removing a union *)

(** X30: when [remove] returns on an attached union type, the union has
    no member left, but the referencer set of every other type is as it
    was: the former members still list the union among their
    referencers. *)
Theorem union_remove_keeps_registrations (this schema : ptr) (t : NamedTypeObj)
        (h h' : Heap) (returned : list ptr) :
  h !! this = Some (NamedType t) ->
  nt_parent t = Some schema ->
  MutableUnionType.remove this h = inr (returned, h') ->
  returned = _referencers t
  /\ SchemaSpec.membersOf h' this = []
  /\ forall member, member <> this -> is_Some (h !! member) ->
                    referencersOf h' member = referencersOf h member.
Proof.
  intros Hthis Hparent. unfold MutableUnionType.remove.
  unfold bind at 1. rewrite (derefNamedType_run this h t Hthis).
  rewrite Hparent. intros H.
  assert (Hsp : spares (removeTypeDefinition this schema ;; detach this ;;
                        removeDirectives this)).
  { apply spares_bind; [apply spares_removeTypeDefinition | intros _].
    apply spares_bind; [apply spares_detach | intros _].
    apply spares_removeDirectives. }
  match type of H with
  | ?m h = _ =>
      assert (Heq : m h
                    = ((removeTypeDefinition this schema ;; detach this ;;
                        removeDirectives this) ;;
                       (let* u := derefNamedType this in
                        store this (NamedType (with_typesList u []))) ;;
                       clearReferencers this) h)
  end.
  { unfold bind.
    destruct (removeTypeDefinition this schema h) as [e|[[] h1]]; [reflexivity|].
    destruct (detach this h1) as [e|[[] h2]]; [reflexivity|].
    destruct (removeDirectives this h2) as [e|[[] h3]]; reflexivity. }
  rewrite Heq in H. clear Heq. unfold bind at 1 in H.
  destruct ((removeTypeDefinition this schema ;; detach this ;; removeDirectives this) h)
    as [e|[[] h3]] eqn:E3; [discriminate|].
  pose proof (Hsp h tt h3 E3) as Hspared.
  destruct (Hspared this _ Hthis) as (o3 & Hthis3 & [[Hrefs Hclass] Hreferencers]).
  destruct o3 as [| |t3| | | | |]; try contradiction.
  assert (Hlt : this < length h3) by (eapply lookup_lt_Some; eassumption).
  unfold bind at 1 in H. unfold bind at 1 in H.
  rewrite (derefNamedType_run this h3 t3 Hthis3) in H. unfold store at 1 in H.
  unfold clearReferencers, bind in H.
  rewrite (derefNamedType_run this _ (with_typesList t3 [])) in H
    by (now apply list_lookup_insert_eq).
  unfold store, ret in H. injection H as <- <-.
  split; [exact Hreferencers|]. split.
  - unfold SchemaSpec.membersOf.
    now rewrite list_lookup_insert_eq by (now rewrite length_insert).
  - intros member Hne [o Ho].
    destruct (Hspared member o Ho) as (o' & Ho' & [[_ Hc] Hr]).
    unfold referencersOf. rewrite !list_lookup_insert_ne by congruence.
    rewrite Ho, Ho'. destruct o, o'; try contradiction; try reflexivity. exact Hr.
Qed.

(** X30, run on the union [U] of [union U = A | B]: [A] still lists [U]. *)
Lemma union_remove_keeps_registrations_witness :
  exists U A h returned h',
    run parsedMember = inr ((U, A), h)
    /\ A ∈ SchemaSpec.membersOf h U
    /\ MutableUnionType.remove U h = inr (returned, h')
    /\ SchemaSpec.membersOf h' U = []
    /\ U ∈ referencersOf h' A.
Proof.
  do 3 eexists.
  match goal with
  | |- exists returned h', run parsedMember = inr ((?U, ?A), ?h) /\ _ =>
      assert (Hparsed : run parsedMember = inr ((U, A), h)) by (vm_compute; reflexivity)
  end.
  match type of Hparsed with
  | _ = inr ((?U, ?A), ?h) =>
      destruct (MutableUnionType.remove U h) as [e|[returned h']] eqn:Hrun;
        [vm_compute in Hrun; discriminate|];
        pose proof (fun t Ht Hp =>
                      union_remove_keeps_registrations U 0 t h h' returned Ht Hp Hrun) as H;
        destruct (H _ eq_refl eq_refl) as (_ & Hmembers & Hkeeps);
        specialize (Hkeeps A)
  end.
  exists returned, h'. split; [exact Hparsed|].
  split; [vm_compute; apply list_elem_of_In; simpl; tauto|].
  split; [reflexivity|]. split; [exact Hmembers|].
  rewrite Hkeeps; [| discriminate | eexists; reflexivity].
  vm_compute. apply list_elem_of_In. simpl. tauto.
Defined.

End RemovalFacts.
